(** * A shallow embedding of the QR code matrix generator [src/qr.ts]

    The TypeScript class [QrCode] is embedded function by function.
    JavaScript numbers that the program only uses as integers are [Z];
    array positions and loop counters are [nat]; a JavaScript array that
    is written by index is a list that grows when the index is past its
    end; a thrown exception is the [Throw] case of [result]. *)

From stdpp Require Import base list strings.
From Stdlib Require Import ZArith Uint63 PrimFloat SpecFloat FloatOps.

Open Scope Z_scope.

(** ** Exceptions *)

(** The strings thrown by the constructor, and the [TypeError] the
    JavaScript run time raises on a call or a property access on
    [undefined] or [null]. *)
Inductive error : Type :=
  | InvalidMode        (* "invalid or unsupported mode" *)
  | InvalidDataFormat  (* "invalid data format" *)
  | InvalidEccLevel    (* "invalid ECC level" *)
  | TooLargeData       (* "too large data" *)
  | InvalidVersion     (* "invalid version" *)
  | InvalidMask        (* "invalid mask" *)
  | TypeError.

Inductive result (A : Type) : Type :=
  | Ok (a : A)
  | Throw (e : error).
Arguments Ok {A} a.
Arguments Throw {A} e.

Definition rbind {A B} (r : result A) (f : A -> result B) : result B :=
  match r with
  | Ok a => f a
  | Throw e => Throw e
  end.

Notation "x <- r ;;; k" := (rbind r (fun x => k))
  (at level 100, r at next level, right associativity).

(** ** JavaScript values and arrays *)

Module Js.

(** The values that end up in the code word arrays: a number, [undefined]
    (also what reading past the end of an array gives), and the array
    that [new Array(k).fill(0)] builds. *)
Inductive val : Type :=
  | Num (z : Z)
  | Undef
  | Zeros (k : nat).

(** ToInt32 on an integer: wrap into [-2^31, 2^31). *)
Definition wrap32 (z : Z) : Z := (z + 2 ^ 31) mod 2 ^ 32 - 2 ^ 31.

(** ToInt32, as the operators [>>], [&], [|], [^] apply it to an operand.
    [undefined] is NaN, hence 0; an array of zeros converts through the
    string "0,0,...", which is 0 or NaN, hence 0. *)
Definition to_int32 (v : val) : Z :=
  match v with
  | Num z => wrap32 z
  | Undef => 0
  | Zeros _ => 0
  end.

(** ToInt32 of a number that is [None] when it is NaN or [undefined]. *)
Definition int32_of (o : option Z) : Z :=
  match o with
  | Some z => wrap32 z
  | None => 0
  end.

(** [a[i]] on an array of values. *)
Definition get (a : list val) (i : nat) : val := default Undef (a !! i).

(** [a[i] = v] on an array of values: past the end the array grows. *)
Definition set (a : list val) (i : nat) (v : val) : list val :=
  if decide (i < length a)%nat then <[i := v]> a
  else a ++ replicate (i - length a) Undef ++ [v].

(** A sparse array of numbers: [None] is a hole, which reads as
    [undefined]. *)
Abbreviation cells := (list (option Z)).

Definition cget (a : cells) (i : nat) : option Z := mjoin (a !! i).

Definition cset (a : cells) (i : nat) (v : Z) : cells :=
  if decide (i < length a)%nat then <[i := Some v]> a
  else a ++ replicate (i - length a) None ++ [Some v].

(** Truthiness of a cell: [undefined] and 0 are falsy. *)
Definition truthy (c : option Z) : bool :=
  match c with
  | Some z => negb (z =? 0)
  | None => false
  end.

(** [a[i]] where the index is a JavaScript number. *)
Definition zget (a : cells) (i : Z) : option Z :=
  if 0 <=? i then cget a (Z.to_nat i) else None.

End Js.

(** ** Loops *)

(** [for (let i = lo; i < hi; ++i) body], threading the variables the body
    assigns to. *)
Definition for_ {S : Type} (lo hi : nat) (body : nat -> S -> S) (s : S) : S :=
  foldl (fun s i => body i s) s (seq lo (hi - lo)).

(** The same loop with a body that may throw. *)
Definition rfor {S : Type} (lo hi : nat) (body : nat -> S -> result S) (s : S)
  : result S :=
  foldl (fun r i => rbind r (body i)) (Ok s) (seq lo (hi - lo)).

(** ** GF(2^8) tables: [QrCode.GF256] *)

Module GF256.

(** The first loop of the initialiser: [fuel] rounds from counter [i] and
    value [v], pushing onto [MAP] and writing [INVMAP[v] = i]. *)
Fixpoint tables (fuel : nat) (i v : Z) (map : list Z) (invmap : Js.cells)
  : list Z * Js.cells :=
  match fuel with
  | O => (map, invmap)
  | S fuel' =>
      tables fuel' (i + 1)
        (Z.lxor (v * 2) (if 128 <=? v then 0x11d else 0))
        (map ++ [v]) (Js.cset invmap (Z.to_nat v) i)
  end.

Definition MAP : list Z :=
  Eval vm_compute in fst (tables 255 0 1 [] [Some (-1)]).

Definition INVMAP : Js.cells :=
  Eval vm_compute in snd (tables 255 0 1 [] [Some (-1)]).

(** [MAP[x]] and [INVMAP[x]] for a JavaScript number [x]; [None] is
    [undefined]. *)
Definition map_at (x : Z) : option Z :=
  if 0 <=? x then MAP !! Z.to_nat x else None.

Definition invmap_at (x : Z) : option Z := Js.zget INVMAP x.

(** One generator polynomial from the previous one: the inner loop over
    [j] of the second loop, for [j] from [j] to [i]. A table entry that
    would be [undefined] makes the whole result [None]. *)
Fixpoint genpoly_row (fuel : nat) (i j : nat) (prevpoly poly : list Z)
  : option (list Z) :=
  match fuel with
  | O => Some poly
  | S fuel' =>
      a ← (if decide (j < i)%nat
           then (p ← prevpoly !! j; map_at p) else Some 0);
      b ← map_at ((Z.of_nat i
                   + match j with
                     | O => 0
                     | S j' => default 0 (prevpoly !! j')
                     end) `rem` 255);
      c ← invmap_at (Z.lxor a b);
      genpoly_row fuel' i (S j) prevpoly (poly ++ [c])
  end.

(** The outer loop: [GENPOLY] grows by one polynomial per round. *)
Fixpoint genpoly_table (fuel : nat) (i : nat) (acc : list (list Z))
  : option (list (list Z)) :=
  match fuel with
  | O => Some acc
  | S fuel' =>
      prevpoly ← acc !! i;
      poly ← genpoly_row (S i) i 0 prevpoly [];
      genpoly_table fuel' (S i) (acc ++ [poly])
  end.

Definition GENPOLY : list (list Z) :=
  Eval vm_compute in default [] (genpoly_table 30 0 [[]]).

End GF256.

(** ** Per-version information: [QrCode.VERSIONS] *)

(** Entry [v - 1] of the list is [VERSIONS[v]]: the degree of the generator
    polynomial by ECC level, the number of code blocks by ECC level, and the
    positions of the alignment patterns. *)
Definition VERSIONS_TABLE : list (list Z * list Z * list Z) :=
  [
    ([10; 7; 17; 13], [1; 1; 1; 1], []);
    ([16; 10; 28; 22], [1; 1; 1; 1], [4; 16]);
    ([26; 15; 22; 18], [1; 1; 2; 2], [4; 20]);
    ([18; 20; 16; 26], [2; 1; 4; 2], [4; 24]);
    ([24; 26; 22; 18], [2; 1; 4; 4], [4; 28]);
    ([16; 18; 28; 24], [4; 2; 4; 4], [4; 32]);
    ([18; 20; 26; 18], [4; 2; 5; 6], [4; 20; 36]);
    ([22; 24; 26; 22], [4; 2; 6; 6], [4; 22; 40]);
    ([22; 30; 24; 20], [5; 2; 8; 8], [4; 24; 44]);
    ([26; 18; 28; 24], [5; 4; 8; 8], [4; 26; 48]);
    ([30; 20; 24; 28], [5; 4; 11; 8], [4; 28; 52]);
    ([22; 24; 28; 26], [8; 4; 11; 10], [4; 30; 56]);
    ([22; 26; 22; 24], [9; 4; 16; 12], [4; 32; 60]);
    ([24; 30; 24; 20], [9; 4; 16; 16], [4; 24; 44; 64]);
    ([24; 22; 24; 30], [10; 6; 18; 12], [4; 24; 46; 68]);
    ([28; 24; 30; 24], [10; 6; 16; 17], [4; 24; 48; 72]);
    ([28; 28; 28; 28], [11; 6; 19; 16], [4; 28; 52; 76]);
    ([26; 30; 28; 28], [13; 6; 21; 18], [4; 28; 54; 80]);
    ([26; 28; 26; 26], [14; 7; 25; 21], [4; 28; 56; 84]);
    ([26; 28; 28; 30], [16; 8; 25; 20], [4; 32; 60; 88]);
    ([26; 28; 30; 28], [17; 8; 25; 23], [4; 26; 48; 70; 92]);
    ([28; 28; 24; 30], [17; 9; 34; 23], [4; 24; 48; 72; 96]);
    ([28; 30; 30; 30], [18; 9; 30; 25], [4; 28; 52; 76; 100]);
    ([28; 30; 30; 30], [20; 10; 32; 27], [4; 26; 52; 78; 104]);
    ([28; 26; 30; 30], [21; 12; 35; 29], [4; 30; 56; 82; 108]);
    ([28; 28; 30; 28], [23; 12; 37; 34], [4; 28; 56; 84; 112]);
    ([28; 30; 30; 30], [25; 12; 40; 34], [4; 32; 60; 88; 116]);
    ([28; 30; 30; 30], [26; 13; 42; 35], [4; 24; 48; 72; 96; 120]);
    ([28; 30; 30; 30], [28; 14; 45; 38], [4; 28; 52; 76; 100; 124]);
    ([28; 30; 30; 30], [29; 15; 48; 40], [4; 24; 50; 76; 102; 128]);
    ([28; 30; 30; 30], [31; 16; 51; 43], [4; 28; 54; 80; 106; 132]);
    ([28; 30; 30; 30], [33; 17; 54; 45], [4; 32; 58; 84; 110; 136]);
    ([28; 30; 30; 30], [35; 18; 57; 48], [4; 28; 56; 84; 112; 140]);
    ([28; 30; 30; 30], [37; 19; 60; 51], [4; 32; 60; 88; 116; 144]);
    ([28; 30; 30; 30], [38; 19; 63; 53], [4; 28; 52; 76; 100; 124; 148]);
    ([28; 30; 30; 30], [40; 20; 66; 56], [4; 22; 48; 74; 100; 126; 152]);
    ([28; 30; 30; 30], [43; 21; 70; 59], [4; 26; 52; 78; 104; 130; 156]);
    ([28; 30; 30; 30], [45; 22; 74; 62], [4; 30; 56; 82; 108; 134; 160]);
    ([28; 30; 30; 30], [47; 24; 77; 65], [4; 24; 52; 80; 108; 136; 164]);
    ([28; 30; 30; 30], [49; 25; 81; 68], [4; 28; 56; 84; 112; 140; 168])
  ].

Definition VERSIONS (ver : Z) : option (list Z * list Z * list Z) :=
  if 1 <=? ver then VERSIONS_TABLE !! Z.to_nat (ver - 1) else None.


(** ** The payload and the options of the constructor *)

(** [data: any]. A text is the list of its UTF-16 code units, as
    [charCodeAt] and [length] see it; a byte sequence is an array of
    numbers. *)
Inductive Data : Type :=
  | DNull
  | DString (s : list Z)
  | DArray (a : list Z).

(** [QrCodeOptions]; [None] is an absent key. Option strings are ASCII. *)
Record QrCodeOptions : Type := {
  opt_ecclevel : option string;
  opt_version : option Z;
  opt_mode : option string;
  opt_mask : option Z
}.

(** The code units of an ASCII text. *)
Fixpoint units (s : string) : list Z :=
  match s with
  | EmptyString => []
  | String c s' => Z.of_nat (Ascii.nat_of_ascii c) :: units s'
  end.

Definition upper_ascii (c : Ascii.ascii) : Ascii.ascii :=
  let n := Ascii.nat_of_ascii c in
  if (97 <=? n)%nat && (n <=? 122)%nat then Ascii.ascii_of_nat (n - 32) else c.

Definition lower_ascii (c : Ascii.ascii) : Ascii.ascii :=
  let n := Ascii.nat_of_ascii c in
  if (65 <=? n)%nat && (n <=? 90)%nat then Ascii.ascii_of_nat (n + 32) else c.

Fixpoint toUpperCase (s : string) : string :=
  match s with
  | EmptyString => EmptyString
  | String c s' => String (upper_ascii c) (toUpperCase s')
  end.

Fixpoint toLowerCase (s : string) : string :=
  match s with
  | EmptyString => EmptyString
  | String c s' => String (lower_ascii c) (toLowerCase s')
  end.

(** ** The class [QrCode] *)

Module QrCode.

(** [QrCode.MODE] *)
Definition TERMINATOR : Z := 0.
Definition NUMERIC : Z := 1.
Definition ALPHANUMERIC : Z := 2.
Definition OCTET : Z := 4.
Definition KANJI : Z := 8.

(** [QrCode.ERROR_CORRECTION] *)
Definition L : Z := 1.
Definition M : Z := 0.
Definition Q : Z := 3.
Definition H : Z := 2.

(** The fields the constructor sets. [ecclevel] is [None] when the
    lookup in [ECCLEVELS] gave [undefined]. *)
Record t : Type := {
  mode : Z;
  ecclevel : option Z;
  mask : Z;
  data : Data;
  ver : Z
}.

(** The local tables of the constructor. *)
Definition MODES (key : string) : option Z :=
  if decide (key = "numeric"%string) then Some NUMERIC
  else if decide (key = "alphanumeric"%string) then Some ALPHANUMERIC
  else if decide (key = "octet"%string) then Some OCTET
  else None.

Definition ECCLEVELS (key : string) : option Z :=
  if decide (key = "L"%string) then Some L
  else if decide (key = "M"%string) then Some M
  else if decide (key = "Q"%string) then Some Q
  else if decide (key = "H"%string) then Some H
  else None.

(** [QrCode.REGEXP]: each pattern is anchored at both ends, so it matches
    when every code unit is in the class. *)
Definition is_digit (c : Z) : bool := (48 <=? c) && (c <=? 57).
Definition is_upper (c : Z) : bool := (65 <=? c) && (c <=? 90).
Definition is_lower (c : Z) : bool := (97 <=? c) && (c <=? 122).
(** One of [ $%*+-./:]. *)
Definition is_symbol (c : Z) : bool :=
  bool_decide (c ∈ [32; 36; 37; 42; 43; 45; 46; 47; 58]).

Definition REGEXP_NUMERIC (s : list Z) : bool := forallb is_digit s.
Definition REGEXP_ALPHANUMERIC (s : list Z) : bool :=
  forallb (fun c => is_upper c || is_lower c || is_digit c || is_symbol c) s.
Definition REGEXP_ALPHANUMERIC_OUT (s : list Z) : bool :=
  forallb (fun c => is_upper c || is_digit c || is_symbol c) s.

(** [data.length] *)
Definition data_length (d : Data) : result Z :=
  match d with
  | DNull => Throw TypeError
  | DString s => Ok (Z.of_nat (length s))
  | DArray a => Ok (Z.of_nat (length a))
  end.

Definition needsVerInfo (q : t) : bool := 6 <? ver q.

Definition getSizeByVer (q : t) : Z := 4 * ver q + 17.

(** [VERSIONS[ver]] is [undefined] (or [null]) outside 1..40, and the
    property access on it throws. *)
Definition nFullBits (q : t) : result Z :=
  match VERSIONS (ver q) with
  | None => Throw TypeError
  | Some (_, _, aligns) =>
      let nbits := 16 * ver q * ver q + 128 * ver q + 64 in
      let nbits := if needsVerInfo q then nbits - 36 else nbits in
      let m := Z.of_nat (length aligns) in
      Ok (if negb (m =? 0) then nbits - (25 * m * m - 10 * m - 55) else nbits)
  end.

(** [a[e]] for a level that may be [undefined]. *)
Definition by_level (a : list Z) (e : option Z) : option Z :=
  e' ← e; if 0 <=? e' then a !! Z.to_nat e' else None.

(** [None] is NaN: the level was [undefined]. *)
Definition nDataBits (q : t) : result (option Z) :=
  full <- nFullBits q ;;;
  match VERSIONS (ver q) with
  | None => Throw TypeError
  | Some (degrees, blocks, _) =>
      Ok (d ← by_level degrees (ecclevel q);
          b ← by_level blocks (ecclevel q);
          Some (Z.land full (Z.lnot 7) - 8 * d * b))
  end.

(** [None] is [undefined]: the mode is no key of the object. *)
Definition nDataLenBits (q : t) : option Z :=
  let v := ver q in
  if mode q =? NUMERIC then Some (if v <? 10 then 10 else if v <? 27 then 12 else 14)
  else if mode q =? ALPHANUMERIC then Some (if v <? 10 then 9 else if v <? 27 then 11 else 13)
  else if mode q =? OCTET then Some (if v <? 10 then 8 else 16)
  else if mode q =? KANJI then Some (if v <? 10 then 8 else if v <? 27 then 10 else 12)
  else None.

(** [nbits] is [None] when it is NaN; [(x / d) | 0] is then 0 and every
    comparison with [x % d] is false. The result is [None] when the mode
    is no key of the object. *)
Definition getMaxDataLen (q : t) : result (option Z) :=
  bits <- nDataBits q ;;;
  let nbits := (b ← bits; l ← nDataLenBits q; Some (b - 4 - l)) in
  let quot d := match nbits with Some x => x `quot` d | None => 0 end in
  let rem_lt d k := match nbits with Some x => x `rem` d <? k | None => false end in
  Ok (if mode q =? NUMERIC
      then Some (quot 10 * 3 + (if rem_lt 10 4 then 0 else if rem_lt 10 7 then 1 else 2))
      else if mode q =? ALPHANUMERIC
      then Some (quot 11 * 2 + (if rem_lt 11 6 then 0 else 1))
      else if mode q =? OCTET then Some (quot 8)
      else if mode q =? KANJI then Some (quot 13)
      else None).

(** What [validateData] returns: [null], the data as it is, the method
    [this.data.toUpperCase] itself (it is not called), or the array of
    UTF-8 bytes. *)
Inductive validated : Type :=
  | VNull
  | VUndefined
  | VData (d : Data)
  | VToUpperCase
  | VBytes (bytes : list Z).

(** The bytes pushed for one code unit. [charCodeAt] is below 0x10000, so
    the last branch is never taken. *)
Definition utf8_unit (ch : Z) : list Z :=
  if ch <? 0x80 then [ch]
  else if ch <? 0x800 then
    [Z.lor 0xc0 (Z.shiftr ch 6); Z.lor 0x80 (Z.land ch 0x3f)]
  else if ch <? 0x10000 then
    [Z.lor 0xe0 (Z.shiftr ch 12); Z.lor 0x80 (Z.land (Z.shiftr ch 6) 0x3f);
     Z.lor 0x80 (Z.land ch 0x3f)]
  else
    [Z.lor 0xf0 (Z.shiftr ch 18); Z.lor 0x80 (Z.land (Z.shiftr ch 12) 0x3f);
     Z.lor 0x80 (Z.land (Z.shiftr ch 6) 0x3f); Z.lor 0x80 (Z.land ch 0x3f)].

Definition utf8 (s : list Z) : list Z := concat (map utf8_unit s).

(** [x || d] for a value of [validateData]'s object. *)
Definition or_data (x : validated) (d : Data) : validated :=
  match x with
  | VNull | VUndefined | VData DNull | VData (DString []) => VData d
  | _ => x
  end.

(** The object literal calls its three functions whatever the mode is;
    [this.data.match] exists on a text only. *)
Definition validateData (q : t) : result validated :=
  match data q with
  | DNull | DArray _ => Throw TypeError
  | DString s =>
      let numeric := if REGEXP_NUMERIC s then VData (data q) else VNull in
      let alphanumeric := if REGEXP_ALPHANUMERIC s then VToUpperCase else VNull in
      let octet := VBytes (utf8 s) in
      let entry :=
        if mode q =? NUMERIC then numeric
        else if mode q =? ALPHANUMERIC then alphanumeric
        else if mode q =? OCTET then octet
        else VUndefined in
      Ok (or_data entry (data q))
  end.

(** The loop [for (this.ver = 1; this.ver <= 40; ++this.ver)] of the
    constructor, from [this.ver = v] with [fuel] rounds left; it returns
    the value of [this.ver] when the loop is left. *)
Fixpoint pick_version (fuel : nat) (q : t) (v : Z) : result Z :=
  match fuel with
  | O => Ok v
  | S fuel' =>
      let q' := {| mode := mode q; ecclevel := ecclevel q; mask := mask q;
                   data := data q; ver := v |} in
      len <- data_length (data q) ;;;
      max <- getMaxDataLen q' ;;;
      if match max with Some m => len <=? m | None => false end
      then Ok v
      else pick_version fuel' q (v + 1)
  end.

(** [new QrCode(data, options)]. The call of [console.log] is left out. *)
Definition constructor (d : Data) (options : QrCodeOptions) : result t :=
  let ecclevel0 :=
    ECCLEVELS (match opt_ecclevel options with
               | Some s => if decide (toUpperCase s = ""%string) then "L"%string
                           else toUpperCase s
               | None => "L"%string
               end) in
  let ver0 := match opt_version options with
              | Some v => if v =? 0 then -1 else v
              | None => -1
              end in
  let mode0 := match opt_mode options with
               | Some s => if decide (s = ""%string) then Some (-1)
                           else MODES (toLowerCase s)
               | None => Some (-1)
               end in
  let mask0 := default (-1) (opt_mask options) in
  mode1 <-
    match mode0 with
    | Some m =>
        if m <? 0 then
          let m1 :=
            match d with
            | DString s =>
                if REGEXP_NUMERIC s then NUMERIC
                else if REGEXP_ALPHANUMERIC_OUT s then ALPHANUMERIC
                else m
            | _ => m
            end in
          Ok (if m1 =? 0 then OCTET else m1)
        else if bool_decide (m ∈ [NUMERIC; ALPHANUMERIC; OCTET]) then Ok m
        else Throw InvalidMode
    | None => Throw InvalidMode
    end ;;;
  let q := {| mode := mode1; ecclevel := ecclevel0; mask := mask0;
              data := d; ver := ver0 |} in
  _ <- validateData q ;;;
  if match d with DNull => true | _ => false end then Throw InvalidDataFormat
  else if match ecclevel0 with Some e => (e <? 0) || (3 <? e) | None => false end
  then Throw InvalidEccLevel
  else
    ver1 <-
      (if ver0 <? 0 then
         v <- pick_version 40 q 1 ;;;
         if 40 <? v then Throw TooLargeData else Ok v
       else if (ver0 <? 1) || (40 <? ver0) then Throw InvalidVersion
       else Ok ver0) ;;;
    if negb (mask0 =? -1) && ((mask0 <? 0) || (8 <? mask0)) then Throw InvalidMask
    else Ok {| mode := mode1; ecclevel := ecclevel0; mask := mask0;
               data := d; ver := ver1 |}.

(** *** The data encoder *)

(** [parseInt(s, 10)]: white space is skipped, a sign is read, then the
    longest run of decimal digits; [None] is NaN. *)
Definition is_space (c : Z) : bool :=
  bool_decide (c ∈ [9; 10; 11; 12; 13; 32; 0xa0; 0x1680; 0x2028; 0x2029;
                    0x202f; 0x205f; 0x3000; 0xfeff])
  || ((0x2000 <=? c) && (c <=? 0x200a)).

Fixpoint skip_space (s : list Z) : list Z :=
  match s with
  | c :: s' => if is_space c then skip_space s' else s
  | [] => []
  end.

Fixpoint digits_value (acc : option Z) (s : list Z) : option Z :=
  match s with
  | c :: s' =>
      if is_digit c then digits_value (Some (default 0 acc * 10 + (c - 48))) s'
      else acc
  | [] => acc
  end.

Definition parseInt (s : list Z) : option Z :=
  match skip_space s with
  | 45 :: s' => Z.opp <$> digits_value None s'
  | 43 :: s' => digits_value None s'
  | s' => digits_value None s'
  end.

(** [s.substring(a, b)] and [s.substring(a)] for [a <= b]. *)
Definition substring (s : list Z) (a b : nat) : list Z := take (b - a) (drop a s).
Definition substring_from (s : list Z) (a : nat) : list Z := drop a s.

(** [QrCode.ALPHANUMERIC_MAP[c]] for a text [c] of one code unit. *)
Definition ALPHANUMERIC_CHARS : list Z :=
  units "0123456789ABCDEFGHIJKLMNOPQRSTUVWXYZ $%*+-./:".

Definition ALPHANUMERIC_MAP (c : Z) : option Z :=
  (fun p => Z.of_nat (fst p)) <$> list_find (fun x => x = c) ALPHANUMERIC_CHARS.

(** The variables of [encode] that [pack] assigns to. *)
Record packer : Type := {
  buf : list Z;
  bits : Z;
  remaining : Z
}.

(** [while (n >= 8) buf.push((x >> (n -= 8)) & 255)] *)
Fixpoint pack_bytes (fuel : nat) (x n : Z) (b : list Z) : Z * list Z :=
  match fuel with
  | O => (n, b)
  | S fuel' =>
      if 8 <=? n
      then pack_bytes fuel' x (n - 8) (b ++ [Z.land (Z.shiftr x (n - 8)) 255])
      else (n, b)
  end.

(** [pack(x, n)], for [x] already converted by ToInt32 and [0 <= n < 32]. *)
Definition pack (x n : Z) (p : packer) : packer :=
  let '(n, p) :=
    if remaining p <=? n then
      let n := n - remaining p in
      let b := buf p ++ [Z.lor (bits p) (Z.shiftr x n)] in
      let '(n, b) := pack_bytes (Z.to_nat n) x n b in
      (n, {| buf := b; bits := 0; remaining := 8 |})
    else (n, p) in
  if 0 <? n then
    let r := remaining p - n in
    {| buf := buf p;
       bits := Z.lor (bits p) (Z.shiftl (Z.land x (Z.shiftl 1 n - 1)) r);
       remaining := r |}
  else p.

(** [for (i = 2; i < this.data.length; i += 3)] of the numeric packer;
    the counter is returned with the variables. *)
Fixpoint numeric_loop (fuel : nat) (s : list Z) (i : nat) (p : packer)
  : nat * packer :=
  match fuel with
  | O => (i, p)
  | S fuel' =>
      if decide (i < length s)%nat
      then numeric_loop fuel' s (i + 3)
             (pack (Js.int32_of (parseInt (substring s (i - 2) (i + 1)))) 10 p)
      else (i, p)
  end.

(** [for (i = 1; i < this.data.length; i += 2)] of the alphanumeric
    packer. *)
Fixpoint alphanumeric_loop (fuel : nat) (s : list Z) (i : nat) (p : packer)
  : nat * packer :=
  match fuel with
  | O => (i, p)
  | S fuel' =>
      if decide (i < length s)%nat
      then
        let x := (a ← (c ← s !! (i - 1)%nat; ALPHANUMERIC_MAP c);
                  b ← (c ← s !! i; ALPHANUMERIC_MAP c);
                  Some (a * 45 + b)) in
        alphanumeric_loop fuel' s (i + 2) (pack (Js.int32_of x) 11 p)
      else (i, p)
  end.

(** ToInt32 of a text of one code unit: a decimal digit is its value,
    white space is 0 and anything else is NaN. *)
Definition unit_to_int32 (c : Z) : Z := if is_digit c then c - 48 else 0.

(** The three functions of [_packer]. On an array, [substring] and
    [charAt] are [undefined] and calling them throws. *)
Definition pack_numeric (d : Data) (p : packer) : result packer :=
  match d with
  | DString s =>
      let '(i, p) := numeric_loop (length s) s 2 p in
      Ok (pack (Js.int32_of (parseInt (substring_from s (i - 2))))
            (default 0 ([0; 4; 7] !! (length s mod 3)%nat)) p)
  | _ => Throw TypeError
  end.

Definition pack_alphanumeric (d : Data) (p : packer) : result packer :=
  match d with
  | DString s =>
      let '(i, p) := alphanumeric_loop (length s) s 1 p in
      Ok (if decide (length s mod 2 = 1)%nat
          then pack (Js.int32_of (c ← s !! (i - 1)%nat; ALPHANUMERIC_MAP c)) 6 p
          else p)
  | DArray [] => Ok p
  | _ => Throw TypeError
  end.

Definition pack_octet (d : Data) (p : packer) : result packer :=
  match d with
  | DString s => Ok (foldl (fun p c => pack (unit_to_int32 c) 8 p) p s)
  | DArray a => Ok (foldl (fun p x => pack (Js.wrap32 x) 8 p) p a)
  | DNull => Throw TypeError
  end.

(** The two padding statements at the end of [encode]. *)
Fixpoint pad (fuel : nat) (b : list Z) (maxbuflen : Z) : list Z :=
  match fuel with
  | O => b
  | S fuel' =>
      if Z.of_nat (length b) + 1 <? maxbuflen
      then pad fuel' (b ++ [0xec; 0x11]) maxbuflen
      else b
  end.

Definition encode (q : t) (maxbuflen : Z) : result (list Z) :=
  let p := {| buf := []; bits := 0; remaining := 8 |} in
  let p := pack (Js.wrap32 (mode q)) 4 p in
  len <- data_length (data q) ;;;
  let p := match nDataLenBits q with
           | Some nlenbits => pack (Js.wrap32 len) nlenbits p
           | None => p
           end in
  p <- (if mode q =? NUMERIC then pack_numeric (data q) p
        else if mode q =? ALPHANUMERIC then pack_alphanumeric (data q) p
        else if mode q =? OCTET then pack_octet (data q) p
        else Throw TypeError) ;;;
  let p := pack TERMINATOR 4 p in
  let b := if remaining p <? 8 then buf p ++ [bits p] else buf p in
  let b := pad (Z.to_nat maxbuflen) b maxbuflen in
  Ok (if Z.of_nat (length b) <? maxbuflen then b ++ [0xec] else b).

(** *** Reed-Solomon code words *)

(** [calculateEcc(poly, genpoly)]. [modulus.push(...)] appends one
    element, the array of zeros. *)
Definition calculateEcc (poly genpoly : list Z) : list Js.val :=
  let modulus := (Js.Num <$> poly) ++ [Js.Zeros (length genpoly)] in
  let modulus :=
    for_ 0 (length poly) (fun i modulus =>
      let quotient := match Js.get modulus i with
                      | Js.Num z => GF256.invmap_at z
                      | _ => None
                      end in
      let i := S i in
      if match quotient with Some x => 0 <=? x | None => false end then
        for_ 0 (length genpoly) (fun j modulus =>
          Js.set modulus (i + j)
            (Js.Num (Z.lxor (Js.to_int32 (Js.get modulus (i + j)))
                       (Js.int32_of
                          (GF256.map_at
                             ((default 0 quotient + default 0 (genpoly !! j))
                              `rem` 255))))))
          modulus
      else modulus) modulus in
  drop (length poly) modulus.

(** [poly[i]] as a value. *)
Definition word (poly : list Z) (i : nat) : Js.val :=
  match poly !! i with
  | Some z => Js.Num z
  | None => Js.Undef
  end.

(** [augumentEccs(poly, nblocks, genpoly)] for a block count of at least
    one, as every entry of [VERSIONS] is. *)
Definition augumentEccs (poly : list Z) (nblocks : nat) (genpoly : list Z)
  : list Js.val :=
  let subsize := (length poly / nblocks)%nat in
  let pivot := (nblocks - length poly mod nblocks)%nat in
  let '(subsizes, subsize0) :=
    for_ 0 pivot (fun _ '(subsizes, subsize0) =>
      (subsizes ++ [subsize0], (subsize0 + subsize)%nat)) ([], 0%nat) in
  let '(subsizes, subsize0) :=
    for_ pivot nblocks (fun _ '(subsizes, subsize0) =>
      (subsizes ++ [subsize0], (subsize0 + (subsize + 1))%nat))
      (subsizes, subsize0) in
  let subsizes := subsizes ++ [subsize0] in
  let at_ i := default 0%nat (subsizes !! i) in
  let eccs :=
    for_ 0 nblocks (fun i eccs =>
      eccs ++ [calculateEcc
                 (take (at_ (S i) - at_ i) (drop (at_ i) poly)) genpoly]) [] in
  let nitemsperblock := (length poly / nblocks)%nat in
  let result :=
    for_ 0 nitemsperblock (fun i result =>
      for_ 0 nblocks (fun j result =>
        result ++ [word poly (at_ j + i)]) result) [] in
  let result :=
    for_ pivot nblocks (fun j result =>
      result ++ [word poly (at_ (S j) - 1)]) result in
  for_ 0 (length genpoly) (fun i result =>
    for_ 0 nblocks (fun j result =>
      result ++ [Js.get (default [] (eccs !! j)) i]) result) result.

(** *** The matrix *)

(** [this.matrix] and [this.reserved]: an array of rows, each a sparse
    array. *)
Abbreviation matrix := (list Js.cells).

(** [m[r][c]]; [m[r]] is [undefined] past the last row. *)
Definition mget (m : matrix) (r c : nat) : result (option Z) :=
  match m !! r with
  | Some row => Ok (Js.cget row c)
  | None => Throw TypeError
  end.

(** [m[r][c] = v] *)
Definition mset (m : matrix) (r c : nat) (v : Z) : result matrix :=
  match m !! r with
  | Some row => Ok (<[r := Js.cset row c v]> m)
  | None => Throw TypeError
  end.

(** The same with positions that may be negative: a negative row is
    [undefined]; a negative column reads [undefined], and writing it
    leaves the elements of the row as they are. *)
Definition mgetz (m : matrix) (r c : Z) : result (option Z) :=
  if r <? 0 then Throw TypeError
  else if c <? 0 then (_ <- mget m (Z.to_nat r) 0 ;;; Ok None)
  else mget m (Z.to_nat r) (Z.to_nat c).

Definition msetz (m : matrix) (r c : Z) (v : Z) : result matrix :=
  if r <? 0 then Throw TypeError
  else if c <? 0 then (_ <- mget m (Z.to_nat r) 0 ;;; Ok m)
  else mset m (Z.to_nat r) (Z.to_nat c) v.

(** [augumentbch(poly, p, genpoly, q)]; the loop runs [i] from [p - 1]
    down to 0. *)
Fixpoint bch_loop (i : nat) (genpoly q modulus : Z) : Z :=
  match i with
  | O => modulus
  | S i' =>
      bch_loop i' genpoly q
        (if Z.land (Z.shiftr modulus (q + Z.of_nat i')) 1 =? 1
         then Z.lxor modulus (Z.shiftl genpoly (Z.of_nat i'))
         else modulus)
  end.

Definition augumentbch (poly : Z) (p : nat) (genpoly q : Z) : Z :=
  Z.lor (Z.shiftl poly q) (bch_loop p genpoly q (Z.shiftl poly q)).

(** [blit(y, x, h, w, bits)] of [makeBaseMatrix], on the pair of
    [matrix] and [reserved]. *)
Definition blit (y x h w : nat) (bits : list Z) (mr : matrix * matrix)
  : result (matrix * matrix) :=
  rfor 0 h (fun i =>
    rfor 0 w (fun j '(m, r) =>
      m <- mset m (y + i) (x + j)
             (Z.land (Z.shiftr (default 0 (bits !! i)) (Z.of_nat j)) 1) ;;;
      r <- mset r (y + i) (x + j) 1 ;;;
      Ok (m, r))) mr.

(** [makeBaseMatrix()] returns the new [matrix] and [reserved]. *)
Definition makeBaseMatrix (q : t) : result (matrix * matrix) :=
  match VERSIONS (ver q) with
  | None => Throw TypeError
  | Some (_, _, aligns) =>
      let n := Z.to_nat (getSizeByVer q) in
      let mr := for_ 0 n (fun _ '(m, r) => (m ++ [[]], r ++ [[]])) ([], []) in
      mr <- blit 0 0 9 9 [0x7f; 0x41; 0x5d; 0x5d; 0x5d; 0x41; 0x17f; 0x00; 0x40] mr ;;;
      mr <- blit (n - 8) 0 8 9 [0x100; 0x7f; 0x41; 0x5d; 0x5d; 0x5d; 0x41; 0x7f] mr ;;;
      mr <- blit 0 (n - 8) 9 8 [0xfe; 0x82; 0xba; 0xba; 0xba; 0x82; 0xfe; 0x00; 0x00] mr ;;;
      mr <- rfor 9 (n - 8) (fun i '(m, r) =>
              let v := Z.land (Z.lnot (Z.of_nat i)) 1 in
              m <- mset m i 6 v ;;;
              m <- mset m 6 i v ;;;
              r <- mset r i 6 1 ;;;
              r <- mset r 6 i 1 ;;;
              Ok (m, r)) mr ;;;
      let m_ := length aligns in
      let align i := Z.to_nat (default 0 (aligns !! i)) in
      mr <- rfor 0 m_ (fun i =>
              let minj := if decide (i = 0 \/ i = m_ - 1)%nat then 1%nat else 0%nat in
              let maxj := if decide (i = 0)%nat then (m_ - 1)%nat else m_ in
              rfor minj maxj (fun j =>
                blit (align i) (align j) 5 5 [0x1f; 0x11; 0x15; 0x11; 0x1f])) mr ;;;
      if needsVerInfo q then
        let code := augumentbch (ver q) 6 0x1f25 12 in
        rfor 0 6 (fun i =>
          rfor 0 3 (fun j '(m, r) =>
            let v := Z.land (Z.shiftr code (Z.of_nat (3 * i + j))) 1 in
            m <- mset m (n - 11 + j) i v ;;;
            m <- mset m i (n - 11 + j) v ;;;
            r <- mset r (n - 11 + j) i 1 ;;;
            r <- mset r i (n - 11 + j) 1 ;;;
            Ok (m, r))) mr
      else Ok mr
  end.

(** [(buf[k >> 3] >> (~k & 7)) & 1] *)
Definition data_bit (b : list Js.val) (k : Z) : Z :=
  Z.land (Z.shiftr (Js.to_int32 (Js.get b (Z.to_nat (Z.shiftr k 3))))
            (Z.land (Z.lnot k) 7)) 1.

(** The two cells of one row of a column pair: the loop over [ii]. *)
Definition putData_cell (b : list Js.val) (reserved : matrix) (jj ii : Z)
  (mk : matrix * Z) : result (matrix * Z) :=
  let '(m, k) := mk in
  res <- mgetz reserved jj ii ;;;
  if negb (Js.truthy res) then
    m <- msetz m jj ii (data_bit b k) ;;;
    Ok (m, k + 1)
  else Ok (m, k).

(** One column pair: the loop over [j], with [jj] moving by [dir]. *)
Definition putData_pair (b : list Js.val) (reserved : matrix) (n : nat)
  (i dir : Z) (mk : matrix * Z) : result (matrix * Z) :=
  let jj0 := if dir <? 0 then Z.of_nat n - 1 else 0 in
  rfor 0 n (fun j mk =>
    let jj := jj0 + Z.of_nat j * dir in
    mk <- putData_cell b reserved jj i mk ;;;
    putData_cell b reserved jj (i - 1) mk) mk.

(** The loop [for (i = n - 1; i >= 0; i -= 2)]. *)
Fixpoint putData_loop (fuel : nat) (b : list Js.val) (reserved : matrix)
  (n : nat) (i dir : Z) (mk : matrix * Z) : result (matrix * Z) :=
  match fuel with
  | O => Ok mk
  | S fuel' =>
      if 0 <=? i then
        let i := if i =? 6 then i - 1 else i in
        mk <- putData_pair b reserved n i dir mk ;;;
        putData_loop fuel' b reserved n (i - 2) (- dir) mk
      else Ok mk
  end.

Definition putData (b : list Js.val) (mr : matrix * matrix) : result matrix :=
  let '(m, reserved) := mr in
  let n := length m in
  mk <- putData_loop n b reserved n (Z.of_nat n - 1) (-1) (m, 0) ;;;
  Ok (fst mk).

(** [QrCode.MASKFUNCS] *)
Definition MASKFUNCS : list (Z -> Z -> bool) :=
  [ (fun i j => (i + j) `rem` 2 =? 0);
    (fun i j => i `rem` 2 =? 0);
    (fun i j => j `rem` 3 =? 0);
    (fun i j => (i + j) `rem` 3 =? 0);
    (fun i j => (i `quot` 2 + j `quot` 3) `rem` 2 =? 0);
    (fun i j => (i * j) `rem` 2 + (i * j) `rem` 3 =? 0);
    (fun i j => ((i * j) `rem` 2 + (i * j) `rem` 3) `rem` 2 =? 0);
    (fun i j => ((i + j) `rem` 2 + (i * j) `rem` 3) `rem` 2 =? 0) ].

(** [MASKFUNCS[mask]]; calling it when it is [undefined] throws. *)
Definition maskfunc (mask : Z) : option (Z -> Z -> bool) :=
  if 0 <=? mask then MASKFUNCS !! Z.to_nat mask else None.

(** [if (!this.reserved[i][j]) this.matrix[i][j] ^= Number(f(i, j))] *)
Definition maskData_cell (mask : Z) (reserved : matrix) (i j : nat) (m : matrix)
  : result matrix :=
  res <- mget reserved i j ;;;
  if negb (Js.truthy res) then
    match maskfunc mask with
    | None => Throw TypeError
    | Some f =>
        old <- mget m i j ;;;
        mset m i j (Z.lxor (Js.int32_of old)
                      (if f (Z.of_nat i) (Z.of_nat j) then 1 else 0))
    end
  else Ok m.

Definition maskData (mask : Z) (mr : matrix * matrix) : result matrix :=
  let '(m, reserved) := mr in
  let n := length m in
  rfor 0 n (fun i => rfor 0 n (fun j => maskData_cell mask reserved i j)) m.

(** [putFormatInfo(mask)] *)
Definition putFormatInfo (q : t) (mask : Z) (m : matrix) : result matrix :=
  let n := Z.of_nat (length m) in
  let code :=
    Z.lxor (augumentbch (Z.lor (Z.shiftl (Js.int32_of (ecclevel q)) 3) mask)
              5 0x537 10) 0x5412 in
  rfor 0 15 (fun i m =>
    let r := default 0 ([0; 1; 2; 3; 4; 5; 7; 8; n - 7; n - 6; n - 5; n - 4;
                         n - 3; n - 2; n - 1] !! i) in
    let c := default 0 ([n - 1; n - 2; n - 3; n - 4; n - 5; n - 6; n - 7;
                         n - 8; 7; 5; 4; 3; 2; 1; 0] !! i) in
    let v := Z.land (Z.shiftr code (Z.of_nat i)) 1 in
    m <- msetz m 8 c v ;;;
    msetz m r 8 v) m.

(** *** The penalty score *)

Definition PENALTY_CONSECUTIVE : Z := 3.
Definition PENALTY_TWOBYTWO : Z := 3.
Definition PENALTY_FINDERLIKE : Z := 40.
Definition PENALTY_DENSITY : Z := 10.

(** [groups[i]]; [None] is [undefined]. *)
Definition group (groups : list (option Z)) (i : nat) : option Z :=
  mjoin (groups !! i).

(** [a >= b] where [a] may be [undefined]. *)
Definition ge_num (a : option Z) (b : Z) : bool :=
  match a with
  | Some x => b <=? x
  | None => false
  end.

(** The second loop of [evaluategroup]: [for (i = 5; i < groups.length;
    i += 2)]. When [p] is [undefined], [3 * p] is NaN and the test
    fails. *)
Fixpoint finder_loop (fuel : nat) (groups : list (option Z)) (i : nat)
  (score : Z) : Z :=
  match fuel with
  | O => score
  | S fuel' =>
      if decide (i < length groups)%nat then
        let found :=
          match group groups i with
          | Some p =>
              bool_decide (group groups (i - 1) = Some p)
              && bool_decide (group groups (i - 2) = Some (3 * p))
              && bool_decide (group groups (i - 3) = Some p)
              && bool_decide (group groups (i - 4) = Some p)
              && (ge_num (group groups (i - 5)) (4 * p)
                  || ge_num (group groups (i + 1)) (4 * p))
          | None => false
          end in
        finder_loop fuel' groups (i + 2)
          (if found then score + PENALTY_FINDERLIKE else score)
      else score
  end.

(** The first loop of [evaluategroup]. *)
Definition consecutive_score (groups : list (option Z)) : Z :=
  foldl (fun score g =>
           match g with
           | Some x => if 5 <=? x then score + (PENALTY_CONSECUTIVE + (x - 5))
                       else score
           | None => score
           end) 0 groups.

Definition evaluategroup (groups : list (option Z)) : Z :=
  finder_loop (length groups) groups 5 (consecutive_score groups).

(** [for (k = 0; j < n && cell(j) is dark; ++k) ++j], or with [!cell(j)]
    when [dark] is [false]; it returns [j] and [k]. *)
Fixpoint run (fuel : nat) (cell : nat -> option Z) (dark : bool) (n j : nat)
  (k : Z) : nat * Z :=
  match fuel with
  | O => (j, k)
  | S fuel' =>
      if bool_decide (j < n)%nat && Bool.eqb (Js.truthy (cell j)) dark
      then run fuel' cell dark n (S j) (k + 1)
      else (j, k)
  end.

(** The groups of a row. The first inner loop declares a [k] of its own,
    so the [k] that is pushed after it is the one of [let k;], still
    [undefined]. *)
Fixpoint row_groups_loop (fuel : nat) (row : Js.cells) (n j : nat)
  (groups : list (option Z)) : list (option Z) :=
  match fuel with
  | O => groups
  | S fuel' =>
      if decide (j < n)%nat then
        let '(j, _) := run n (Js.cget row) true n j 0 in
        let groups := groups ++ [None] in
        let '(j, k) := run n (Js.cget row) false n j 0 in
        row_groups_loop fuel' row n j (groups ++ [Some k])
      else groups
  end.

Definition row_groups (n : nat) (row : Js.cells) : list (option Z) :=
  row_groups_loop n row n 0 [Some 0].

(** The groups of a column [i]: here both inner loops assign the [k] that
    is pushed. *)
Fixpoint column_groups_loop (fuel : nat) (cell : nat -> option Z) (n j : nat)
  (groups : list (option Z)) : list (option Z) :=
  match fuel with
  | O => groups
  | S fuel' =>
      if decide (j < n)%nat then
        let '(j, k) := run n cell true n j 0 in
        let groups := groups ++ [Some k] in
        let '(j, k) := run n cell false n j 0 in
        column_groups_loop fuel' cell n j (groups ++ [Some k])
      else groups
  end.

Definition column_groups (n : nat) (m : matrix) (i : nat) : list (option Z) :=
  column_groups_loop n (fun j => Js.cget (default [] (m !! j)) i) n 0 [Some 0].

(** [x + c] where both may be NaN, and [c] may be [undefined]. *)
Definition add_cell (x c : option Z) : option Z :=
  x' ← x; c' ← c; Some (x' + c').

(** A JavaScript integer as a double (exact below 2^53). *)
Definition float_of_Z (z : Z) : float :=
  if z <? 0 then (- of_uint63 (Uint63.of_Z (- z)))%float
  else of_uint63 (Uint63.of_Z z).

(** [f | 0]: the double is cut to an integer and wrapped; NaN and the
    infinities give 0. *)
Definition float_or_0 (f : float) : Z :=
  match Prim2SF f with
  | S754_finite s m e =>
      let a := if 0 <=? e then Z.pos m * 2 ^ e else Z.pos m `quot` 2 ^ (- e) in
      Js.wrap32 (if s then - a else a)
  | _ => 0
  end.

(** [(Math.abs(nblacks / n / n - 0.5) / 0.05) | 0]; [nblacks] is [None]
    when it is NaN. The double nearest to 0.05 is written in full. *)
Definition density (nblacks : option Z) (n : nat) : Z :=
  match nblacks with
  | Some d =>
      let fn := float_of_Z (Z.of_nat n) in
      float_or_0 (PrimFloat.abs (float_of_Z d / fn / fn - 0.5) / 0x1.999999999999ap-5)%float
  | None => 0
  end.

(** [evaluateMatrix()] *)
Definition evaluateMatrix (m : matrix) : Z :=
  let n := length m in
  let '(score, nblacks) :=
    for_ 0 n (fun i '(score, nblacks) =>
      let row := default [] (m !! i) in
      let score := score + evaluategroup (row_groups n row) in
      let score := score + evaluategroup (column_groups n m i) in
      let nextrow := default [] (m !! S i) in
      let nblacks := add_cell nblacks (Js.cget row 0) in
      for_ 1 n (fun j '(score, nblacks) =>
        let p := Js.cget row j in
        let nblacks := add_cell nblacks p in
        (if bool_decide (Js.cget row (j - 1) = p)
            && bool_decide (Js.cget nextrow j = p)
            && bool_decide (Js.cget nextrow (j - 1) = p)
         then score + PENALTY_TWOBYTWO else score, nblacks))
        (score, nblacks)) (0, Some 0) in
  score + PENALTY_DENSITY * density nblacks n.

(** [findBestMask()] returns the matrix and the value of [this.mask]. *)
Definition findBestMask (q : t) (mr : matrix * matrix) : result (matrix * Z) :=
  let '(m, reserved) := mr in
  if mask q <? 0 then
    m <- maskData 0 (m, reserved) ;;;
    m <- putFormatInfo q 0 m ;;;
    let bestscore := evaluateMatrix m in
    m <- maskData 0 (m, reserved) ;;;
    st <- rfor 1 8 (fun mask '(m, bestmask, bestscore) =>
            m <- maskData (Z.of_nat mask) (m, reserved) ;;;
            m <- putFormatInfo q (Z.of_nat mask) m ;;;
            let score := evaluateMatrix m in
            let '(bestmask, bestscore) :=
              if score <? bestscore then (Z.of_nat mask, score)
              else (bestmask, bestscore) in
            m <- maskData (Z.of_nat mask) (m, reserved) ;;;
            Ok (m, bestmask, bestscore)) (m, 0, bestscore) ;;;
    Ok (fst (fst st), snd (fst st))
  else Ok (m, mask q).

(** [generate()]. When the level is [undefined], so are the block count
    and the generator polynomial, and reading [genpoly.length] throws. *)
Definition generate (q : t) : result matrix :=
  bits <- nDataBits q ;;;
  b <- encode q (Z.shiftr (Js.int32_of bits) 3) ;;;
  match VERSIONS (ver q) with
  | None => Throw TypeError
  | Some (degrees, blocks, _) =>
      let genpoly :=
        d ← by_level degrees (ecclevel q);
        if 0 <=? d then GF256.GENPOLY !! Z.to_nat d else None in
      b <- match by_level blocks (ecclevel q), genpoly with
           | Some nblocks, Some genpoly =>
               Ok (augumentEccs b (Z.to_nat nblocks) genpoly)
           | None, Some _ => Ok []
           | _, None => Throw TypeError
           end ;;;
      mr <- makeBaseMatrix q ;;;
      m <- putData b mr ;;;
      best <- findBestMask q (m, snd mr) ;;;
      let '(m, mask) := best in
      m <- maskData mask (m, snd mr) ;;;
      putFormatInfo q mask m
  end.

End QrCode.

(** * Properties *)

(** ** Loops *)

Section loops.
Context {S : Type}.

Lemma rfor_done (lo hi : nat) (body : nat -> S -> result S) (s : S) :
  (hi <= lo)%nat -> rfor lo hi body s = Ok s.
Proof.
  intros H. unfold rfor. replace (hi - lo)%nat with 0%nat by lia. reflexivity.
Qed.

Lemma rfor_step (lo hi : nat) (body : nat -> S -> result S) (s : S) :
  (lo <= hi)%nat ->
  rfor lo (Datatypes.S hi) body s = rbind (rfor lo hi body s) (body hi).
Proof.
  intros H. unfold rfor.
  replace (Datatypes.S hi - lo)%nat with (Datatypes.S (hi - lo)) by lia.
  rewrite seq_S, foldl_app. simpl.
  replace (lo + (hi - lo))%nat with hi by lia. reflexivity.
Qed.

(** The loop rule: an invariant that every round keeps, and no round
    throws. *)
Lemma rfor_invariant (P : nat -> S -> Prop) (lo hi : nat)
    (body : nat -> S -> result S) (s : S) :
  (lo <= hi)%nat ->
  P lo s ->
  (forall i x, (lo <= i < hi)%nat -> P i x ->
               exists x', body i x = Ok x' /\ P (Datatypes.S i) x') ->
  exists s', rfor lo hi body s = Ok s' /\ P hi s'.
Proof.
  intros Hle H0 Hstep. induction hi as [|hi IH].
  - assert (lo = 0%nat) as -> by lia. exists s. split; [apply rfor_done; lia | done].
  - destruct (decide (lo = Datatypes.S hi)) as [->|Hne].
    + exists s. split; [apply rfor_done; lia | done].
    + destruct IH as (x & Hx & HP); [lia | intros; apply Hstep; [lia | done] |].
      destruct (Hstep hi x) as (x' & Hb & HP'); [lia | done |].
      exists x'. split; [| done].
      rewrite rfor_step by lia. rewrite Hx. simpl. exact Hb.
Qed.

Lemma for_done (lo hi : nat) (body : nat -> S -> S) (s : S) :
  (hi <= lo)%nat -> for_ lo hi body s = s.
Proof.
  intros H. unfold for_. replace (hi - lo)%nat with 0%nat by lia. reflexivity.
Qed.

Lemma for_step (lo hi : nat) (body : nat -> S -> S) (s : S) :
  (lo <= hi)%nat ->
  for_ lo (Datatypes.S hi) body s = body hi (for_ lo hi body s).
Proof.
  intros H. unfold for_.
  replace (Datatypes.S hi - lo)%nat with (Datatypes.S (hi - lo)) by lia.
  rewrite seq_S, foldl_app. simpl.
  replace (lo + (hi - lo))%nat with hi by lia. reflexivity.
Qed.

Lemma for_invariant (P : nat -> S -> Prop) (lo hi : nat)
    (body : nat -> S -> S) (s : S) :
  (lo <= hi)%nat ->
  P lo s ->
  (forall i x, (lo <= i < hi)%nat -> P i x -> P (Datatypes.S i) (body i x)) ->
  P hi (for_ lo hi body s).
Proof.
  intros Hle H0 Hstep. induction hi as [|hi IH].
  - assert (lo = 0%nat) as -> by lia. rewrite for_done by lia. done.
  - destruct (decide (lo = Datatypes.S hi)) as [->|Hne].
    + rewrite for_done by lia. done.
    + rewrite for_step by lia. apply Hstep; [lia |].
      apply IH; [lia | intros; apply Hstep; [lia | done]].
Qed.
End loops.

(** ** Lists written cell by cell *)

Lemma insert_take_drop {A : Type} (a b : list A) (j : nat) (x : A) :
  a !! j = Some x -> (j < length b)%nat ->
  <[j := x]> (take j a ++ drop j b) = take (S j) a ++ drop (S j) b.
Proof.
  revert a b. induction j as [|j IH]; intros [|a0 a] [|b0 b] Ha Hb;
    simpl in *; try done; try lia.
  - by inversion Ha.
  - f_equal. apply IH; [done | lia].
Qed.

Lemma lookup_take_drop {A : Type} (a b : list A) (j : nat) :
  (j <= length a)%nat -> (take j a ++ drop j b) !! j = b !! j.
Proof.
  intros H. rewrite lookup_app_r by (rewrite length_take; lia).
  rewrite length_take, lookup_drop. f_equal. lia.
Qed.

Lemma length_take_drop {A : Type} (a b : list A) (j : nat) :
  length a = length b -> length (take j a ++ drop j b) = length b.
Proof.
  intros H. rewrite length_app, length_take, length_drop. lia.
Qed.

(** ** Masking *)

Section masking.
Import QrCode.

(** A cell that holds 0 or 1. *)
Definition is_bit (c : option Z) : bool :=
  match c with
  | Some 0 | Some 1 => true
  | _ => false
  end.

(** A matrix of [n] rows of [n] cells, each 0 or 1. *)
Definition square_bits (m : matrix) : bool :=
  forallb (fun row => bool_decide (length row = length m) && forallb is_bit row) m.

Lemma square_bits_row (m : matrix) (i : nat) (row : Js.cells) :
  square_bits m = true -> m !! i = Some row ->
  length row = length m /\ forall j c, row !! j = Some c -> is_bit c = true.
Proof.
  intros H Hi. unfold square_bits in H. rewrite forallb_forall in H.
  specialize (H row). rewrite <- list_elem_of_In in H.
  destruct (andb_prop _ _ (H (list_elem_of_lookup_2 _ _ _ Hi))) as [H1 H2].
  split; [by apply bool_decide_eq_true in H1 |].
  intros j c Hj. rewrite forallb_forall in H2. apply H2.
  rewrite <- list_elem_of_In. by eapply list_elem_of_lookup_2.
Qed.

(** What [maskData] leaves in cell [(i, j)] that held [c]. *)
Definition mask_cell (f : Z -> Z -> bool) (reserved : matrix) (i j : nat)
  (c : option Z) : option Z :=
  if Js.truthy (Js.cget (default [] (reserved !! i)) j) then c
  else Some (Z.lxor (Js.int32_of c) (if f (Z.of_nat i) (Z.of_nat j) then 1 else 0)).

Definition masked (f : Z -> Z -> bool) (reserved m : matrix) : matrix :=
  imap (fun i row => imap (mask_cell f reserved i) row) m.

Lemma masked_lookup f reserved m i row :
  m !! i = Some row ->
  masked f reserved m !! i = Some (imap (mask_cell f reserved i) row).
Proof. intros H. unfold masked. by rewrite list_lookup_imap, H. Qed.

(** One row: the loop over [j]. *)
Lemma maskData_row mask f (reserved x : matrix) (i n : nat) (row rrow : Js.cells) :
  maskfunc mask = Some f ->
  x !! i = Some row -> length row = n ->
  reserved !! i = Some rrow ->
  rfor 0 n (fun j => maskData_cell mask reserved i j) x
  = Ok (<[i := imap (mask_cell f reserved i) row]> x).
Proof.
  intros Hf Hx Hn Hr.
  set (mrow := imap (mask_cell f reserved i) row).
  assert (length mrow = length row) as Hlen by apply length_imap.
  destruct (rfor_invariant
              (fun j x' => x' = <[i := take j mrow ++ drop j row]> x)
              0 n (fun j => maskData_cell mask reserved i j) x) as (x' & Hx' & ->).
  - lia.
  - simpl. by rewrite list_insert_id.
  - intros j y [_ Hj] ->.
    assert (i < length x)%nat as Hi by (by eapply lookup_lt_Some).
    destruct (lookup_lt_is_Some_2 row j) as [c Hc]; [lia |].
    assert (mrow !! j = Some (mask_cell f reserved i j c)) as Hm
      by (unfold mrow; by rewrite list_lookup_imap, Hc).
    assert ((take j mrow ++ drop j row) !! j = Some c) as Hj'
      by (rewrite lookup_take_drop by lia; done).
    unfold maskData_cell, mget, mset. rewrite Hr. simpl.
    unfold mask_cell in Hm. rewrite Hr in Hm. simpl in Hm.
    destruct (Js.truthy (Js.cget rrow j)); simpl.
    + eexists. split; [done |]. f_equal.
      rewrite <- (insert_take_drop mrow row j c) by (done || lia).
      by rewrite list_insert_id.
    + rewrite Hf. rewrite (list_lookup_insert_eq x i _ Hi). simpl.
      eexists. split; [done |]. rewrite list_insert_insert_eq. f_equal.
      unfold Js.cset, Js.cget. rewrite Hj'. simpl.
      rewrite decide_True by (rewrite length_take_drop; lia).
      by apply insert_take_drop; [| lia].
  - rewrite Hx'. f_equal. f_equal.
    rewrite take_ge, drop_ge by lia. apply app_nil_r.
Qed.

(** The whole matrix: the loop over [i]. *)
Lemma maskData_masked mask f (m reserved : matrix) :
  maskfunc mask = Some f ->
  (forall i row, m !! i = Some row -> length row = length m) ->
  (length m <= length reserved)%nat ->
  maskData mask (m, reserved) = Ok (masked f reserved m).
Proof.
  intros Hf Hrows Hres. unfold maskData.
  set (M := masked f reserved m).
  assert (length M = length m) as Hlen by apply length_imap.
  destruct (rfor_invariant
              (fun i x => x = take i M ++ drop i m) 0 (length m)
              (fun i => rfor 0 (length m)
                          (fun j => maskData_cell mask reserved i j)) m)
    as (x' & Hx' & ->).
  - lia.
  - done.
  - intros i x [_ Hi] ->.
    destruct (lookup_lt_is_Some_2 m i) as [row Hrow]; [lia |].
    destruct (lookup_lt_is_Some_2 reserved i) as [rrow Hrrow]; [lia |].
    eexists. split.
    + eapply maskData_row; [done | | by eapply Hrows | done].
      rewrite lookup_take_drop by lia. done.
    + apply insert_take_drop; [| lia]. by apply masked_lookup.
  - rewrite Hx'. f_equal.
    rewrite take_ge, drop_ge by lia. apply app_nil_r.
Qed.

Lemma maskfunc_defined (mask : Z) :
  0 <= mask <= 7 -> exists f, maskfunc mask = Some f.
Proof.
  intros H. unfold maskfunc. rewrite (proj2 (Z.leb_le 0 mask)) by lia.
  apply lookup_lt_is_Some_2. simpl. lia.
Qed.

Lemma mask_cell_twice f reserved i j c :
  is_bit c = true ->
  mask_cell f reserved i j (mask_cell f reserved i j c) = c.
Proof.
  intros Hc. unfold mask_cell.
  destruct (Js.truthy _); [done |].
  destruct c as [[|[| |]|]|]; try done; by destruct (f _ _).
Qed.

Lemma masked_twice f (reserved m : matrix) :
  square_bits m = true -> masked f reserved (masked f reserved m) = m.
Proof.
  intros Hm. apply list_eq. intros i.
  destruct (m !! i) as [row|] eqn:Hrow.
  - rewrite (masked_lookup _ _ _ _ _ (masked_lookup _ _ _ _ _ Hrow)). f_equal.
    apply list_eq. intros j. rewrite !list_lookup_imap.
    destruct (row !! j) as [c|] eqn:Hc; [| done]. simpl. f_equal.
    apply mask_cell_twice.
    by eapply (proj2 (square_bits_row _ _ _ Hm Hrow)).
  - unfold masked. by rewrite !list_lookup_imap, Hrow.
Qed.

(** C9: for a mask in 0..7 and a square matrix of cells 0 or 1 with its
    [reserved] companion, [maskData] returns, a second call with the same
    mask gives the first matrix back, and one call changes no cell whose
    reserved flag is set. *)
Theorem maskData_twice_restores (mask : Z) (m reserved : matrix) :
  0 <= mask <= 7 ->
  square_bits m = true ->
  length reserved = length m ->
  exists m',
    maskData mask (m, reserved) = Ok m'
    /\ maskData mask (m', reserved) = Ok m
    /\ forall i j flag,
         mget reserved i j = Ok flag -> Js.truthy flag = true ->
         mget m' i j = mget m i j.
Proof.
  intros Hmask Hm Hres.
  destruct (maskfunc_defined mask Hmask) as [f Hf].
  assert (forall i row, m !! i = Some row -> length row = length m) as Hrows
    by (intros i row Hi; apply (square_bits_row _ _ _ Hm Hi)).
  exists (masked f reserved m). split; [| split].
  - apply maskData_masked; [done | done | lia].
  - rewrite <- (masked_twice f reserved m Hm) at 2.
    apply maskData_masked; [done | | unfold masked; rewrite length_imap; lia].
    intros i row Hi. unfold masked in *. rewrite list_lookup_imap in Hi.
    destruct (m !! i) as [row0|] eqn:Hrow0; [| done].
    inversion Hi; subst. rewrite !length_imap. by eapply Hrows.
  - intros i j flag Hflag Htrue. unfold mget in *.
    destruct (reserved !! i) as [rrow|] eqn:Hrrow; [| done].
    inversion Hflag; subst flag.
    destruct (m !! i) as [row|] eqn:Hrow.
    + rewrite (masked_lookup _ _ _ _ _ Hrow). f_equal.
      unfold Js.cget. rewrite list_lookup_imap.
      destruct (row !! j) as [c|]; [| done]. simpl.
      unfold mask_cell. rewrite Hrrow. simpl. by rewrite Htrue.
    + unfold masked. by rewrite list_lookup_imap, Hrow.
Qed.

Lemma maskData_twice_restores_witness :
  exists m',
    maskData 3 ([[Some 0; Some 1]; [Some 1; Some 1]], [[Some 1]; []]) = Ok m'
    /\ maskData 3 (m', [[Some 1]; []]) = Ok [[Some 0; Some 1]; [Some 1; Some 1]]
    /\ forall i j flag,
         mget [[Some 1]; []] i j = Ok flag -> Js.truthy flag = true ->
         mget m' i j = mget [[Some 0; Some 1]; [Some 1; Some 1]] i j.
Proof.
  apply (maskData_twice_restores 3 [[Some 0; Some 1]; [Some 1; Some 1]]
           [[Some 1]; []]); [lia | reflexivity | reflexivity].
Defined.
End masking.


(** ** The constructor *)

Section construction.
Import QrCode.
Local Arguments pick_version : simpl never.

Definition options (ecclevel : option string) (version : option Z)
  (mode : option string) (mask : option Z) : QrCodeOptions :=
  {| opt_ecclevel := ecclevel; opt_version := version; opt_mode := mode;
     opt_mask := mask |}.

(** The mode option is absent, empty, or names one of the three modes. *)
Definition mode_supported (o : QrCodeOptions) : bool :=
  match opt_mode o with
  | None => true
  | Some s =>
      bool_decide (s = ""%string)
      || match MODES (toLowerCase s) with Some _ => true | None => false end
  end.

Definition without_version (o : QrCodeOptions) : QrCodeOptions :=
  options (opt_ecclevel o) None (opt_mode o) (opt_mask o).

Lemma MODES_values key m : MODES key = Some m -> m = 1 \/ m = 2 \/ m = 4.
Proof.
  unfold MODES. repeat case_decide; intros H; inversion H; auto.
Qed.

Lemma ECCLEVELS_values key e : ECCLEVELS key = Some e -> 0 <= e <= 3.
Proof.
  unfold ECCLEVELS. repeat case_decide; intros Heq; inversion Heq;
    unfold L, M, Q, H; lia.
Qed.

(** C5, evaluated: the text 12a with the numeric mode is accepted.
    [validateData] does not even return [null] for it, and what it returns
    is dropped. *)
Lemma constructor_accepts_mismatch :
  constructor (DString (units "12a")) (options None None (Some "numeric"%string) None)
  = Ok {| mode := NUMERIC; ecclevel := Some L; mask := -1;
          data := DString (units "12a"); ver := 1 |}
  /\ validateData {| mode := NUMERIC; ecclevel := Some L; mask := -1;
                     data := DString (units "12a"); ver := -1 |}
     = Ok (VData (DString (units "12a")))
  /\ constructor (DString (units "A_B")) (options None None (Some "alphanumeric"%string) None)
     = Ok {| mode := ALPHANUMERIC; ecclevel := Some L; mask := -1;
             data := DString (units "A_B"); ver := 1 |}.
Proof. repeat split. Qed.

(** C6, evaluated: the mask 8 is accepted, and [generate] then calls
    [MASKFUNCS[8]], which is [undefined]. *)
Lemma constructor_accepts_mask_8 :
  constructor (DString (units "1")) (options None None None (Some 8))
  = Ok {| mode := NUMERIC; ecclevel := Some L; mask := 8;
          data := DString (units "1"); ver := 1 |}
  /\ generate {| mode := NUMERIC; ecclevel := Some L; mask := 8;
                 data := DString (units "1"); ver := 1 |} = Throw TypeError.
Proof. split; vm_compute; reflexivity. Qed.

(** C7, evaluated: the level X is accepted with [this.ecclevel] left
    [undefined], and [generate] then throws a [TypeError]. *)
Lemma constructor_accepts_unknown_ecclevel :
  constructor (DString (units "1")) (options (Some "X"%string) None None None)
  = Ok {| mode := NUMERIC; ecclevel := None; mask := -1;
          data := DString (units "1"); ver := 1 |}
  /\ generate {| mode := NUMERIC; ecclevel := None; mask := -1;
                 data := DString (units "1"); ver := 1 |} = Throw TypeError.
Proof. split; vm_compute; reflexivity. Qed.

(** The constructor on a text, up to the choice of the version. *)
Lemma constructor_text (s : list Z) (o : QrCodeOptions) :
  mode_supported o = true ->
  exists m e,
    (m = -1 \/ m = 1 \/ m = 2 \/ m = 4) /\
    forall v0,
      constructor (DString s)
        (options (opt_ecclevel o) v0 (opt_mode o) (opt_mask o))
      = let ver0 := match v0 with
                    | Some v => if v =? 0 then -1 else v
                    | None => -1
                    end in
        let mask0 := default (-1) (opt_mask o) in
        let q := {| mode := m; ecclevel := e; mask := mask0;
                    data := DString s; ver := ver0 |} in
        ver1 <-
          (if ver0 <? 0 then
             v <- pick_version 40 q 1 ;;;
             if 40 <? v then Throw TooLargeData else Ok v
           else if (ver0 <? 1) || (40 <? ver0) then Throw InvalidVersion
           else Ok ver0) ;;;
        if negb (mask0 =? -1) && ((mask0 <? 0) || (8 <? mask0))
        then Throw InvalidMask
        else Ok {| mode := m; ecclevel := e; mask := mask0;
                   data := DString s; ver := ver1 |}.
Proof.
  intros Hmode. unfold mode_supported in Hmode.
  set (e := ECCLEVELS (match opt_ecclevel o with
                       | Some s0 => if decide (toUpperCase s0 = ""%string)
                                    then "L"%string else toUpperCase s0
                       | None => "L"%string
                       end)).
  assert (match e with Some e' => (e' <? 0) || (3 <? e') | None => false end = false)
    as He.
  { destruct e as [e'|] eqn:E; [| done].
    apply ECCLEVELS_values in E. apply orb_false_intro; lia. }
  set (auto := if REGEXP_NUMERIC s then NUMERIC
               else if REGEXP_ALPHANUMERIC_OUT s then ALPHANUMERIC else -1).
  assert (auto = -1 \/ auto = 1 \/ auto = 2 \/ auto = 4) as Hauto.
  { unfold auto, NUMERIC, ALPHANUMERIC.
    destruct (REGEXP_NUMERIC s), (REGEXP_ALPHANUMERIC_OUT s); auto. }
  assert ((if auto =? 0 then OCTET else auto) = auto) as Hauto0.
  { destruct Hauto as [->|[->|[->| ->]]]; reflexivity. }
  destruct (opt_mode o) as [ms|] eqn:Hms.
  - destruct (decide (ms = ""%string)) as [->|Hne].
    + exists auto, e. split; [done |]. intros v0.
      unfold constructor, options; simpl. fold e. fold auto. rewrite Hauto0.
      simpl. rewrite He. reflexivity.
    + rewrite bool_decide_eq_false_2 in Hmode by done. simpl in Hmode.
      destruct (MODES (toLowerCase ms)) as [m|] eqn:Hm; [| done].
      exists m, e. split; [right; by eapply MODES_values |]. intros v0.
      unfold constructor, options; simpl. fold e.
      rewrite decide_False by done. rewrite Hm.
      destruct (MODES_values _ _ Hm) as [->|[->| ->]]; simpl; rewrite He;
        reflexivity.
  - exists auto, e. split; [done |]. intros v0.
    unfold constructor, options; simpl. fold e. fold auto. rewrite Hauto0.
    simpl. rewrite He. reflexivity.
Qed.

(** C8 as stated fails: a version of -1 is outside 1..40 and is not
    refused; the test [this.ver < 0] sends it to the choice of the
    version. *)
Lemma constructor_version_counterexample :
  constructor (DString (units "1")) (options None (Some (-1)) None None)
  = Ok {| mode := NUMERIC; ecclevel := Some L; mask := -1;
          data := DString (units "1"); ver := 1 |}.
Proof. vm_compute; reflexivity. Qed.

(** C8, amended: for a text and a supported mode, a version above 40 makes
    the constructor throw "invalid version"; a version in 1..40 is kept as
    it is (the only throw left is "invalid mask"); a negative version is
    taken as unset: the constructor does what it does with no version
    option. *)
Theorem constructor_version (s : list Z) (o : QrCodeOptions) (v : Z) :
  opt_version o = Some v ->
  mode_supported o = true ->
  (40 < v -> constructor (DString s) o = Throw InvalidVersion)
  /\ (1 <= v <= 40 ->
      (exists q, constructor (DString s) o = Ok q /\ ver q = v)
      \/ constructor (DString s) o = Throw InvalidMask)
  /\ (v < 0 ->
      constructor (DString s) o = constructor (DString s) (without_version o)).
Proof.
  intros Hv Hmode.
  destruct (constructor_text s o Hmode) as (m & e & _ & Hc).
  assert (o = options (opt_ecclevel o) (Some v) (opt_mode o) (opt_mask o)) as Ho
    by (destruct o; simpl in *; by subst).
  split; [| split].
  - intros H. rewrite Ho, Hc. simpl.
    rewrite (proj2 (Z.eqb_neq v 0)) by lia.
    rewrite (proj2 (Z.ltb_ge v 0)) by lia.
    rewrite (proj2 (Z.ltb_lt 40 v)) by lia.
    by rewrite orb_true_r.
  - intros H. rewrite Ho, Hc. simpl.
    rewrite (proj2 (Z.eqb_neq v 0)) by lia.
    rewrite (proj2 (Z.ltb_ge v 0)) by lia.
    rewrite (proj2 (Z.ltb_ge v 1)) by lia.
    rewrite (proj2 (Z.ltb_ge 40 v)) by lia. simpl.
    destruct (negb _ && _); [by right | left; eexists; split; done].
  - intros H. unfold without_version. rewrite Ho at 1. rewrite !Hc. simpl.
    rewrite (proj2 (Z.eqb_neq v 0)) by lia.
    by rewrite (proj2 (Z.ltb_lt v 0)) by lia.
Qed.

Lemma constructor_version_witness :
  (40 < 41 ->
   constructor (DString (units "1")) (options None (Some 41) None None)
   = Throw InvalidVersion)
  /\ (1 <= 41 <= 40 ->
      (exists q, constructor (DString (units "1"))
                   (options None (Some 41) None None) = Ok q /\ ver q = 41)
      \/ constructor (DString (units "1")) (options None (Some 41) None None)
         = Throw InvalidMask)
  /\ (41 < 0 ->
      constructor (DString (units "1")) (options None (Some 41) None None)
      = constructor (DString (units "1"))
          (without_version (options None (Some 41) None None))).
Proof.
  apply (constructor_version (units "1") (options None (Some 41) None None) 41);
    reflexivity.
Defined.
End construction.

(** ** The data encoder *)

Section encoding.
Import QrCode.
Local Arguments Nat.div : simpl never.
Local Arguments Nat.modulo : simpl never.

(** The packer holds whole bytes and [8 - remaining] bits of the next. *)
Definition packer_ok (p : packer) : Prop := 1 <= remaining p <= 8.

Definition packed_bits (p : packer) : Z :=
  8 * Z.of_nat (length (buf p)) + (8 - remaining p).

Lemma pack_bytes_spec (fuel : nat) (x n : Z) (b : list Z) :
  0 <= n -> n < 8 * (Z.of_nat fuel + 1) ->
  fst (pack_bytes fuel x n b) = n mod 8
  /\ Z.of_nat (length (snd (pack_bytes fuel x n b))) = Z.of_nat (length b) + n / 8.
Proof.
  revert n b. induction fuel as [|fuel IH]; intros n b Hn Hf; simpl.
  - rewrite Z.mod_small, Z.div_small by lia. lia.
  - destruct (8 <=? n) eqn:E.
    + apply Z.leb_le in E.
      destruct (IH (n - 8) (b ++ [Z.land (Z.shiftr x (n - 8)) 255])) as [H1 H2];
        [lia | lia |].
      rewrite H1, H2, length_app. simpl.
      pose proof (Z.mod_add (n - 8) 1 8 ltac:(lia)) as Hm.
      pose proof (Z.div_add (n - 8) 1 8 ltac:(lia)) as Hd.
      replace (n - 8 + 1 * 8) with n in Hm, Hd by lia. lia.
    + apply Z.leb_gt in E. simpl.
      rewrite Z.mod_small, Z.div_small by lia. lia.
Qed.

(** [pack(x, n)] appends exactly [n] bits. *)
Lemma pack_spec (x n : Z) (p : packer) :
  packer_ok p -> 0 <= n ->
  packer_ok (pack x n p) /\ packed_bits (pack x n p) = packed_bits p + n.
Proof.
  unfold packer_ok, packed_bits, pack. intros Hp Hn.
  destruct (remaining p <=? n) eqn:E.
  - apply Z.leb_le in E.
    destruct (pack_bytes (Z.to_nat (n - remaining p)) x (n - remaining p)
                (buf p ++ [Z.lor (bits p) (Z.shiftr x (n - remaining p))]))
      as [n' b'] eqn:Hpb.
    destruct (pack_bytes_spec (Z.to_nat (n - remaining p)) x (n - remaining p)
                (buf p ++ [Z.lor (bits p) (Z.shiftr x (n - remaining p))]))
      as [H1 H2]; [lia | lia |].
    rewrite Hpb in H1, H2. simpl in H1, H2. rewrite length_app in H2. simpl in H2.
    pose proof (Z.mod_pos_bound (n - remaining p) 8 ltac:(lia)) as Hm.
    pose proof (Z.div_mod (n - remaining p) 8 ltac:(lia)) as Hd.
    destruct (0 <? n') eqn:E'; simpl.
    + apply Z.ltb_lt in E'. lia.
    + apply Z.ltb_ge in E'. lia.
  - apply Z.leb_gt in E.
    destruct (0 <? n) eqn:E'; simpl.
    + apply Z.ltb_lt in E'. lia.
    + apply Z.ltb_ge in E'. lia.
Qed.

Lemma numeric_loop_spec (fuel : nat) (s : list Z) (i : nat) (p : packer) :
  packer_ok p -> (length s <= i + 3 * fuel)%nat ->
  packer_ok (snd (numeric_loop fuel s i p))
  /\ packed_bits (snd (numeric_loop fuel s i p))
     = packed_bits p + 10 * Z.of_nat ((length s + 2 - i) / 3).
Proof.
  revert i p. induction fuel as [|fuel IH]; intros i p Hp Hf.
  - assert (((length s + 2 - i) / 3)%nat = 0%nat) as ->
      by (apply Nat.div_small; lia).
    simpl. split; [done | lia].
  - cbn [numeric_loop]. destruct (decide (i < length s)%nat) as [Hi|Hi].
    + destruct (pack_spec (Js.int32_of (parseInt (substring s (i - 2) (i + 1)))) 10 p)
        as [Hp1 Hb1]; [done | lia |].
      destruct (IH (i + 3)%nat _ Hp1) as [Hp2 Hb2]; [lia |].
      split; [done |]. rewrite Hb2, Hb1.
      replace (length s + 2 - i)%nat with ((length s + 2 - (i + 3)) + 1 * 3)%nat by lia.
      rewrite Nat.div_add by lia. lia.
    + assert (((length s + 2 - i) / 3)%nat = 0%nat) as ->
        by (apply Nat.div_small; lia).
      simpl. split; [done | lia].
Qed.

Lemma alphanumeric_loop_spec (fuel : nat) (s : list Z) (i : nat) (p : packer) :
  packer_ok p -> (length s <= i + 2 * fuel)%nat ->
  packer_ok (snd (alphanumeric_loop fuel s i p))
  /\ packed_bits (snd (alphanumeric_loop fuel s i p))
     = packed_bits p + 11 * Z.of_nat ((length s + 1 - i) / 2).
Proof.
  revert i p. induction fuel as [|fuel IH]; intros i p Hp Hf.
  - assert (((length s + 1 - i) / 2)%nat = 0%nat) as ->
      by (apply Nat.div_small; lia).
    simpl. split; [done | lia].
  - cbn [alphanumeric_loop]. destruct (decide (i < length s)%nat) as [Hi|Hi].
    + match goal with
      | |- context [alphanumeric_loop fuel s (i + 2) (pack ?x 11 p)] =>
          destruct (pack_spec x 11 p) as [Hp1 Hb1]; [done | lia |];
          destruct (IH (i + 2)%nat _ Hp1) as [Hp2 Hb2]; [lia |]
      end.
      split; [done |]. rewrite Hb2, Hb1.
      replace (length s + 1 - i)%nat with ((length s + 1 - (i + 2)) + 1 * 2)%nat by lia.
      rewrite Nat.div_add by lia. lia.
    + assert (((length s + 1 - i) / 2)%nat = 0%nat) as ->
        by (apply Nat.div_small; lia).
      simpl. split; [done | lia].
Qed.

Lemma octet_fold_spec {A : Type} (f : A -> Z) (l : list A) (p : packer) :
  packer_ok p ->
  packer_ok (foldl (fun p c => pack (f c) 8 p) p l)
  /\ packed_bits (foldl (fun p c => pack (f c) 8 p) p l)
     = packed_bits p + 8 * Z.of_nat (length l).
Proof.
  revert p. induction l as [|c l IH]; intros p Hp; simpl.
  - split; [done | lia].
  - destruct (pack_spec (f c) 8 p) as [Hp1 Hb1]; [done | lia |].
    destruct (IH _ Hp1) as [Hp2 Hb2]. split; [done | lia].
Qed.

(** The number of payload bits of a text of [len] characters (for the
    octet mode: of [len] elements). *)
Definition payload_bits (mode len : Z) : Z :=
  if mode =? NUMERIC then
    10 * (len / 3) + (if len mod 3 =? 0 then 0 else if len mod 3 =? 1 then 4 else 7)
  else if mode =? ALPHANUMERIC then 11 * (len / 2) + 6 * (len mod 2)
  else 8 * len.

(** Mode indicator, length indicator, payload and terminator. *)
Definition stream_bits (q : t) (len : Z) : option Z :=
  nlenbits ← nDataLenBits q;
  Some (4 + nlenbits + payload_bits (mode q) len + 4).

(** The number of ECC code words of a version and level. *)
Definition ecc_codewords (q : t) : option Z :=
  match VERSIONS (ver q) with
  | Some (degrees, blocks, _) =>
      d ← by_level degrees (ecclevel q);
      b ← by_level blocks (ecclevel q);
      Some (d * b)
  | None => None
  end.

Lemma pack_payload_spec (q : t) (s : list Z) (p : packer) :
  data q = DString s ->
  mode q = NUMERIC \/ mode q = ALPHANUMERIC \/ mode q = OCTET ->
  packer_ok p ->
  exists p',
    (if mode q =? NUMERIC then pack_numeric (data q) p
     else if mode q =? ALPHANUMERIC then pack_alphanumeric (data q) p
     else if mode q =? OCTET then pack_octet (data q) p
     else Throw TypeError) = Ok p'
    /\ packer_ok p'
    /\ packed_bits p'
       = packed_bits p + payload_bits (mode q) (Z.of_nat (length s)).
Proof.
  intros Hd Hmode Hp. rewrite Hd. unfold payload_bits.
  pose proof (Nat.mod_upper_bound (length s) 3 ltac:(lia)) as Hm3.
  pose proof (Nat.mod_upper_bound (length s) 2 ltac:(lia)) as Hm2.
  assert (Z.of_nat (length s) mod 3 = Z.of_nat (length s mod 3)) as Hmod3
    by (rewrite Nat2Z.inj_mod; reflexivity).
  assert (Z.of_nat (length s) / 3 = Z.of_nat (length s / 3)) as Hdiv3
    by (rewrite Nat2Z.inj_div; reflexivity).
  assert (Z.of_nat (length s) mod 2 = Z.of_nat (length s mod 2)) as Hmod2
    by (rewrite Nat2Z.inj_mod; reflexivity).
  assert (Z.of_nat (length s) / 2 = Z.of_nat (length s / 2)) as Hdiv2
    by (rewrite Nat2Z.inj_div; reflexivity).
  destruct Hmode as [->|[->| ->]]; simpl.
  - unfold pack_numeric.
    destruct (numeric_loop_spec (length s) s 2 p Hp) as [Hp1 Hb1]; [lia |].
    destruct (numeric_loop (length s) s 2 p) as [i p1]. simpl in Hp1, Hb1.
    eexists. split; [done |].
    match goal with
    | |- packer_ok (pack ?x ?n p1) /\ _ =>
        assert (0 <= n /\ n = if Z.of_nat (length s) mod 3 =? 0 then 0
                              else if Z.of_nat (length s) mod 3 =? 1 then 4 else 7)
          as [Hn0 Hn];
        [| destruct (pack_spec x n p1 Hp1 Hn0) as [Hp2 Hb2] ]
    end.
    { rewrite Hmod3.
      destruct (length s mod 3)%nat as [|[|[|k]]]; simpl; lia. }
    split; [done |]. rewrite Hb2, Hb1, Hn, Hdiv3.
    replace (length s + 2 - 2)%nat with (length s) by lia. lia.
  - unfold pack_alphanumeric.
    destruct (alphanumeric_loop_spec (length s) s 1 p Hp) as [Hp1 Hb1]; [lia |].
    destruct (alphanumeric_loop (length s) s 1 p) as [i p1]. simpl in Hp1, Hb1.
    replace (length s + 1 - 1)%nat with (length s) in Hb1 by lia.
    rewrite Hmod2, Hdiv2.
    destruct (decide (length s mod 2 = 1)%nat) as [E|E].
    + match goal with
      | |- context [pack ?x 6 p1] =>
          destruct (pack_spec x 6 p1 Hp1) as [Hp2 Hb2]; [lia |]
      end.
      eexists. split; [done |]. split; [done |]. rewrite Hb2, Hb1, E. simpl. lia.
    + eexists. split; [done |]. split; [done |].
      replace (length s mod 2)%nat with 0%nat by lia. simpl. lia.
  - unfold pack_octet.
    destruct (octet_fold_spec unit_to_int32 s p Hp) as [Hp1 Hb1].
    eexists. split; [done |]. split; [done |]. rewrite Hb1. reflexivity.
Qed.

Lemma pad_length (fuel : nat) (b : list Z) (maxbuflen : Z) :
  Z.of_nat (length b) <= maxbuflen ->
  maxbuflen <= Z.of_nat (length b) + 2 * Z.of_nat fuel ->
  maxbuflen - 1 <= Z.of_nat (length (pad fuel b maxbuflen)) <= maxbuflen.
Proof.
  revert b. induction fuel as [|fuel IH]; intros b Hb Hf; simpl.
  - lia.
  - destruct (Z.of_nat (length b) + 1 <? maxbuflen) eqn:E.
    + apply Z.ltb_lt in E. apply IH; rewrite length_app; simpl; lia.
    + apply Z.ltb_ge in E. lia.
Qed.

(** [nDataBits()] is a multiple of 8. *)
Lemma nDataBits_bytes (q : t) (nbits : Z) :
  nDataBits q = Ok (Some nbits) -> nbits = 8 * Z.shiftr nbits 3.
Proof.
  unfold nDataBits. destruct (nFullBits q) as [full|]; [| done]. simpl.
  destruct (VERSIONS (ver q)) as [[[degrees blocks] aligns]|]; [| done].
  destruct (by_level degrees (ecclevel q)) as [d|]; [| done].
  destruct (by_level blocks (ecclevel q)) as [b|]; [| done]. simpl.
  intros Heq. inversion Heq as [Hn]. clear Heq.
  assert (Z.land full (Z.lnot 7) = 8 * Z.shiftr full 3) as ->.
  { change 7 with (Z.ones 3). rewrite <- Z.ldiff_land, Z.ldiff_ones_r by lia.
    rewrite Z.shiftl_mul_pow2 by lia. change (2 ^ 3) with 8. lia. }
  rewrite !Z.shiftr_div_pow2 by lia. change (2 ^ 3) with 8.
  replace (8 * (full / 8) - 8 * d * b) with ((full / 8 - d * b) * 8) by lia.
  rewrite Z.div_mul by lia. lia.
Qed.

(** C10 as stated fails: for the empty text in version 1, level L, the
    buffer has [nDataBits() >> 3 = 19] code words, not 19 minus the 7 ECC
    code words. *)
Lemma encode_length_counterexample :
  let q := {| mode := NUMERIC; ecclevel := Some L; mask := -1;
              data := DString []; ver := 1 |} in
  nDataBits q = Ok (Some 152)
  /\ ecc_codewords q = Some 7
  /\ stream_bits q 0 = Some 18
  /\ exists b, encode q (Z.shiftr 152 3) = Ok b
               /\ Z.of_nat (length b) <> Z.shiftr 152 3 - 7.
Proof.
  repeat split. eexists. split; [vm_compute; reflexivity | vm_compute; discriminate].
Qed.

(** C10, amended: for a text in one of the three modes whose bit stream
    (mode indicator, length indicator, payload, terminator) is at most
    [nDataBits()] bits long, [encode(nDataBits() >> 3)] returns a buffer of
    exactly [nDataBits() >> 3] code words. *)
Theorem encode_length (q : t) (s : list Z) (nbits total : Z) :
  data q = DString s ->
  mode q = NUMERIC \/ mode q = ALPHANUMERIC \/ mode q = OCTET ->
  nDataBits q = Ok (Some nbits) ->
  stream_bits q (Z.of_nat (length s)) = Some total ->
  total <= nbits ->
  exists b, encode q (Z.shiftr nbits 3) = Ok b
            /\ Z.of_nat (length b) = Z.shiftr nbits 3.
Proof.
  intros Hd Hmode Hbits Hstream Hfit.
  pose proof (nDataBits_bytes q nbits Hbits) as H8.
  set (maxbuflen := Z.shiftr nbits 3) in *.
  unfold stream_bits in Hstream.
  destruct (nDataLenBits q) as [nlenbits|] eqn:Hnl; [| done].
  simpl in Hstream. inversion Hstream as [Htotal]. clear Hstream.
  assert (0 <= nlenbits) as Hnl0.
  { unfold nDataLenBits in Hnl. repeat case_match; inversion Hnl; lia. }
  unfold encode.
  assert (data_length (data q) = Ok (Z.of_nat (length s))) as ->
    by (rewrite Hd; reflexivity).
  simpl. rewrite Hnl.
  set (p0 := {| buf := []; bits := 0; remaining := 8 |}).
  assert (packer_ok p0 /\ packed_bits p0 = 0) as [Hp0 Hb0]
    by (unfold packer_ok, packed_bits; simpl; lia).
  destruct (pack_spec (Js.wrap32 (mode q)) 4 p0 Hp0) as [Hp1 Hb1]; [lia |].
  destruct (pack_spec (Js.wrap32 (Z.of_nat (length s))) nlenbits _ Hp1)
    as [Hp2 Hb2]; [lia |].
  destruct (pack_payload_spec q s _ Hd Hmode Hp2) as (p3 & -> & Hp3 & Hb3).
  simpl.
  destruct (pack_spec TERMINATOR 4 p3 Hp3) as [Hp4 Hb4]; [lia |].
  set (p4 := pack TERMINATOR 4 p3) in *.
  assert (packed_bits p4 = total) as Hb by lia.
  set (b0 := if remaining p4 <? 8 then buf p4 ++ [bits p4] else buf p4).
  assert (Z.of_nat (length b0) <= maxbuflen) as Hlen0.
  { unfold b0, packed_bits, packer_ok in *.
    destruct (remaining p4 <? 8) eqn:E.
    - apply Z.ltb_lt in E. rewrite length_app. simpl. lia.
    - apply Z.ltb_ge in E. lia. }
  pose proof (pad_length (Z.to_nat maxbuflen) b0 maxbuflen Hlen0 ltac:(lia)) as Hpad.
  eexists. split; [reflexivity |].
  destruct (Z.of_nat (length (pad (Z.to_nat maxbuflen) b0 maxbuflen)) <? maxbuflen)
    eqn:E.
  - apply Z.ltb_lt in E. rewrite length_app. simpl. lia.
  - apply Z.ltb_ge in E. lia.
Qed.

Lemma encode_length_witness :
  exists b, encode {| mode := ALPHANUMERIC; ecclevel := Some Q; mask := -1;
                      data := DString (units "HELLO WORLD"); ver := 1 |}
              (Z.shiftr 104 3) = Ok b
            /\ Z.of_nat (length b) = Z.shiftr 104 3.
Proof.
  apply (encode_length
           {| mode := ALPHANUMERIC; ecclevel := Some Q; mask := -1;
              data := DString (units "HELLO WORLD"); ver := 1 |}
           (units "HELLO WORLD") 104 78);
    [reflexivity | right; left; reflexivity | reflexivity | reflexivity | lia].
Defined.

(** At the edge the terminator does not fit: 41 digits are within
    [getMaxDataLen()] for version 1, level L, and the buffer that [encode]
    returns is one code word longer than [nDataBits() >> 3]. *)
Lemma encode_overflows_at_capacity :
  let q := {| mode := NUMERIC; ecclevel := Some L; mask := -1;
              data := DString (replicate 41 48); ver := 1 |} in
  getMaxDataLen q = Ok (Some 41)
  /\ nDataBits q = Ok (Some 152)
  /\ stream_bits q 41 = Some 155
  /\ exists b, encode q (Z.shiftr 152 3) = Ok b /\ length b = 20%nat.
Proof.
  repeat split. eexists. split; vm_compute; reflexivity.
Qed.
End encoding.

(** ** Evaluations of the encoder, the ECC code and the penalty score *)

Section evaluations.
Import QrCode.

(** C2, evaluated: in the octet mode [encode] reads the text itself, not
    the UTF-8 bytes that [validateData] computed. For the text of the two
    code units 0x41 0xe9 the length indicator is 2 and the payload code
    words are 0 0; on the array of the UTF-8 bytes the same function gives
    the length 3 and the payload 0x41 0xc3 0xa9. *)
Lemma encode_octet_text_is_not_utf8 :
  let q := {| mode := OCTET; ecclevel := Some L; mask := -1;
              data := DString [0x41; 0xe9]; ver := 1 |} in
  let q' := {| mode := OCTET; ecclevel := Some L; mask := -1;
               data := DArray [0x41; 0xc3; 0xa9]; ver := 1 |} in
  constructor (DString [0x41; 0xe9]) (options None (Some 1) (Some "octet"%string) None)
  = Ok q
  /\ validateData q = Ok (VBytes [0x41; 0xc3; 0xa9])
  /\ encode q 19
     = Ok [0x40; 0x20; 0x00; 0x00; 236; 17; 236; 17; 236; 17; 236; 17; 236;
           17; 236; 17; 236; 17; 236]
  /\ encode q' 19
     = Ok [0x40; 0x34; 0x1c; 0x3a; 0x90; 236; 17; 236; 17; 236; 17; 236; 17;
           236; 17; 236; 17; 236; 17].
Proof. repeat split. Qed.

(** C4, evaluated: for the block [0] and the generator of degree 2 the
    result is one element, the array of two zeros that was pushed onto
    [modulus], and not two bytes. For the block [1; 3] the remainder is
    2 x + 0 and the result is the one byte 2: the last step of the division
    is skipped on a zero coefficient, and the second byte is never
    written. *)
Lemma calculateEcc_short_result :
  GF256.GENPOLY !! 2%nat = Some [25; 1]
  /\ calculateEcc [0] [25; 1] = [Js.Zeros 2]
  /\ calculateEcc [1; 3] [25; 1] = [Js.Num 2]
  /\ calculateEcc [1; 0] [25; 1] = [Js.Num 7; Js.Num 6].
Proof. repeat split. Qed.

(** Where the last step of the division is taken, the result is the
    remainder: the ECC code words of the standard's example. *)
Lemma calculateEcc_example :
  GF256.GENPOLY !! 13%nat
  = Some [74; 152; 176; 100; 86; 100; 106; 104; 130; 218; 206; 140; 78]
  /\ calculateEcc [32; 91; 11; 120; 209; 114; 220; 77; 67; 64; 236; 17; 236]
       [74; 152; 176; 100; 86; 100; 106; 104; 130; 218; 206; 140; 78]
     = Js.Num <$> [168; 72; 22; 82; 217; 54; 156; 0; 46; 15; 180; 122; 16].
Proof. repeat split. Qed.

(** The run-length list of a line as the specification words it: a leading
    white group of length 0, then the lengths of the dark and light runs in
    turn (a run of length 0 where the colour that is due is absent). *)
Fixpoint spec_runs (dark : bool) (k : Z) (line : list (option Z)) : list Z :=
  match line with
  | [] => if dark then [k; 0] else [k]
  | c :: line' =>
      if Bool.eqb (Js.truthy c) dark then spec_runs dark (k + 1) line'
      else k :: spec_runs (negb dark) 1 line'
  end.

Definition spec_groups (line : list (option Z)) : list Z :=
  0 :: match line with
       | [] => []
       | _ => spec_runs true 0 line
       end.

(** C3, evaluated on the symbol of the text 1: its first row starts and
    ends with the seven dark modules of a finder pattern. The groups built
    for the row hold [undefined] in place of every dark run, so the two
    runs add nothing; built for the first column, which shows the same
    finder patterns, they add 3 + (7 - 5) each. *)
Lemma row_groups_miss_dark_runs :
  let q := {| mode := NUMERIC; ecclevel := Some L; mask := -1;
              data := DString (units "1"); ver := 1 |} in
  exists m row,
    generate q = Ok m
    /\ m !! 0%nat = Some row
    /\ row = Some <$> [1; 1; 1; 1; 1; 1; 1; 0; 0; 1; 0; 1; 1; 0; 1; 1; 1; 1; 1; 1; 1]
    /\ spec_groups row = [0; 7; 2; 1; 1; 2; 1; 7; 0]
    /\ consecutive_score (Some <$> spec_groups row) = 10
    /\ row_groups 21 row
       = [Some 0; None; Some 2; None; Some 1; None; Some 1; None; Some 0]
    /\ consecutive_score (row_groups 21 row) = 0
    /\ column_groups 21 m 0 = Some <$> [0; 7; 1; 1; 1; 1; 3; 7; 0]
    /\ consecutive_score (column_groups 21 m 0) = 10.
Proof.
  eexists _, _. split; [vm_compute; reflexivity |].
  repeat split.
Qed.

(** C1, evaluated: a text with a lower-case letter, no mode option and a
    fixed version is accepted with [this.mode] left at -1, and [generate]
    then calls the missing entry of [_packer]. Without the version option
    the same text is refused as too large. *)
Lemma generate_throws_on_lowercase_text :
  let q := {| mode := -1; ecclevel := Some L; mask := -1;
              data := DString (units "a"); ver := 1 |} in
  constructor (DString (units "a")) (options None (Some 1) None None) = Ok q
  /\ generate q = Throw TypeError
  /\ constructor (DString (units "a")) (options None None None None)
     = Throw TooLargeData.
Proof. repeat split. Qed.
End evaluations.

(** ** Matrices of bits *)

Section bit_matrices.
Import QrCode.

(** [n] rows of [n] cells, each 0 or 1. *)
Definition full (n : nat) (m : matrix) : Prop :=
  length m = n
  /\ forall i row, m !! i = Some row ->
       length row = n /\ forall j c, row !! j = Some c -> is_bit c = true.

Lemma full_square_bits (n : nat) (m : matrix) :
  full n m <-> length m = n /\ square_bits m = true.
Proof.
  split.
  - intros [Hn Hrows]. split; [done |].
    unfold square_bits. apply forallb_forall. intros row Hin.
    apply list_elem_of_In, list_elem_of_lookup_1 in Hin as [i Hi].
    destruct (Hrows i row Hi) as [Hlen Hbits].
    apply andb_true_intro. split; [apply bool_decide_eq_true; lia |].
    apply forallb_forall. intros c Hc.
    apply list_elem_of_In, list_elem_of_lookup_1 in Hc as [j Hj]. by eapply Hbits.
  - intros [Hn Hsq]. split; [done |]. intros i row Hi.
    destruct (square_bits_row m i row Hsq Hi) as [Hlen Hbits].
    split; [lia | done].
Qed.

(** Every cell is a hole or a bit. *)
Definition hole_or_bit (c : option Z) : Prop := c = None \/ is_bit c = true.

Definition cells_ok (m : matrix) : Prop := Forall (Forall hole_or_bit) m.

Definition cells_okb (m : matrix) : bool :=
  forallb (forallb (fun c => match c with None => true | Some _ => is_bit c end)) m.

Lemma cells_okb_spec (m : matrix) : cells_okb m = true -> cells_ok m.
Proof.
  unfold cells_okb, cells_ok. rewrite forallb_forall, Forall_forall.
  intros H row Hrow. apply list_elem_of_In in Hrow. specialize (H row Hrow).
  rewrite forallb_forall in H. rewrite Forall_forall. intros c Hc.
  apply list_elem_of_In in Hc. specialize (H c Hc).
  destruct c; [by right | by left].
Qed.

Lemma land_1_bit (x : Z) : is_bit (Some (Z.land x 1)) = true.
Proof.
  change 1 with (Z.ones 1) at 1. rewrite Z.land_ones by lia.
  pose proof (Z.mod_pos_bound x (2 ^ 1) ltac:(lia)) as H.
  change (2 ^ 1) with 2 in *.
  assert (x mod 2 = 0 \/ x mod 2 = 1) as [-> | ->] by lia; reflexivity.
Qed.

Lemma cset_ok (row : Js.cells) (c : nat) (v : Z) :
  Forall hole_or_bit row -> is_bit (Some v) = true ->
  Forall hole_or_bit (Js.cset row c v).
Proof.
  intros Hrow Hv. unfold Js.cset. case_decide.
  - apply Forall_insert; [done | by right].
  - apply Forall_app. split; [done |]. apply Forall_app. split.
    + apply Forall_replicate. by left.
    + apply Forall_singleton. by right.
Qed.

Lemma mset_ok (m m' : matrix) (r c : nat) (v : Z) :
  cells_ok m -> is_bit (Some v) = true -> mset m r c v = Ok m' -> cells_ok m'.
Proof.
  unfold mset, cells_ok. intros Hm Hv.
  destruct (m !! r) as [row|] eqn:Hrow; [| done].
  intros Heq. inversion Heq; subst.
  apply Forall_insert; [done |]. apply cset_ok; [| done].
  by eapply Forall_lookup_1.
Qed.

Lemma msetz_ok (m m' : matrix) (r c : Z) (v : Z) :
  cells_ok m -> is_bit (Some v) = true -> msetz m r c v = Ok m' -> cells_ok m'.
Proof.
  unfold msetz. intros Hm Hv. destruct (r <? 0); [done |].
  destruct (c <? 0).
  - destruct (mget m (Z.to_nat r) 0); simpl; [| done].
    intros Heq. by inversion Heq; subst.
  - by apply mset_ok.
Qed.

(** Writing a bit into a full matrix. *)
Lemma mset_full (n : nat) (m : matrix) (r c : nat) (v : Z) :
  full n m -> (r < n)%nat -> (c < n)%nat -> is_bit (Some v) = true ->
  exists m', mset m r c v = Ok m' /\ full n m'.
Proof.
  intros [Hn Hrows] Hr Hc Hv. unfold mset.
  destruct (lookup_lt_is_Some_2 m r) as [row Hrow]; [lia |].
  rewrite Hrow. eexists. split; [done |].
  destruct (Hrows r row Hrow) as [Hlen Hbits].
  split; [by rewrite length_insert |].
  intros i row' Hi.
  destruct (decide (r = i)) as [<-|Hne].
  - rewrite list_lookup_insert_eq in Hi by lia. inversion Hi; subst.
    unfold Js.cset. rewrite decide_True by lia.
    split; [by rewrite length_insert |].
    intros j c' Hj. destruct (decide (c = j)) as [<-|Hne'].
    + rewrite list_lookup_insert_eq in Hj by lia. by inversion Hj; subst.
    + rewrite list_lookup_insert_ne in Hj by done. by eapply Hbits.
  - rewrite list_lookup_insert_ne in Hi by done. by apply (Hrows i).
Qed.

Lemma msetz_full (n : nat) (m : matrix) (r c : Z) (v : Z) :
  full n m -> 0 <= r < Z.of_nat n -> 0 <= c < Z.of_nat n ->
  is_bit (Some v) = true ->
  exists m', msetz m r c v = Ok m' /\ full n m'.
Proof.
  intros Hm Hr Hc Hv. unfold msetz.
  rewrite (proj2 (Z.ltb_ge r 0)), (proj2 (Z.ltb_ge c 0)) by lia.
  apply mset_full; [done | lia | lia | done].
Qed.

Lemma mask_cell_bit f reserved i j c :
  is_bit c = true -> is_bit (mask_cell f reserved i j c) = true.
Proof.
  intros Hc. unfold mask_cell. destruct (Js.truthy _); [done |].
  destruct c as [[|[| |]|]|]; try done; by destruct (f _ _).
Qed.

Lemma masked_full (n : nat) f (reserved m : matrix) :
  full n m -> full n (masked f reserved m).
Proof.
  intros [Hn Hrows]. split; [unfold masked; by rewrite length_imap |].
  intros i row Hi. unfold masked in Hi. rewrite list_lookup_imap in Hi.
  destruct (m !! i) as [row0|] eqn:Hrow0; [| done]. inversion Hi; subst.
  destruct (Hrows i row0 Hrow0) as [Hlen Hbits].
  split; [by rewrite length_imap |].
  intros j c Hj. rewrite list_lookup_imap in Hj.
  destruct (row0 !! j) as [c0|] eqn:Hc0; [| done]. inversion Hj; subst.
  apply mask_cell_bit. by eapply Hbits.
Qed.

Lemma maskData_full (n : nat) (mask : Z) (m reserved : matrix) :
  0 <= mask <= 7 -> full n m -> length reserved = n ->
  exists m', maskData mask (m, reserved) = Ok m' /\ full n m'.
Proof.
  intros Hmask Hm Hres. destruct (maskfunc_defined mask Hmask) as [f Hf].
  exists (masked f reserved m). split; [| by apply masked_full].
  destruct Hm as [Hn Hrows].
  apply maskData_masked; [done | | lia].
  intros i row Hi. destruct (Hrows i row Hi). lia.
Qed.

Lemma putFormatInfo_full (n : nat) (q : t) (mask : Z) (m : matrix) :
  full n m -> (9 <= n)%nat ->
  exists m', putFormatInfo q mask m = Ok m' /\ full n m'.
Proof.
  intros Hm Hn. unfold putFormatInfo.
  assert (length m = n) as -> by apply Hm.
  apply (rfor_invariant (fun _ m => full n m)); [lia | done |].
  intros i x Hi Hx.
  match goal with
  | |- context [msetz x 8 ?c ?v] =>
      destruct (msetz_full n x 8 c v Hx) as (x1 & -> & Hx1);
        [lia | | apply land_1_bit |]
  end.
  { do 15 (destruct i as [|i]; [simpl; lia |]). lia. }
  simpl.
  match goal with
  | |- context [msetz x1 ?r 8 ?v] =>
      destruct (msetz_full n x1 r 8 v Hx1) as (x2 & -> & Hx2);
        [| lia | apply land_1_bit |]
  end.
  { do 15 (destruct i as [|i]; [simpl; lia |]). lia. }
  by exists x2.
Qed.

Lemma findBestMask_full (n : nat) (q : t) (m reserved : matrix) :
  full n m -> length reserved = n -> (9 <= n)%nat -> mask q <= 7 ->
  exists m' mask',
    findBestMask q (m, reserved) = Ok (m', mask')
    /\ full n m' /\ 0 <= mask' <= 7.
Proof.
  intros Hm Hres Hn Hmask. unfold findBestMask.
  destruct (mask q <? 0) eqn:E.
  - destruct (maskData_full n 0 m reserved) as (m1 & -> & Hm1); [lia | done | done |].
    cbn [rbind].
    destruct (putFormatInfo_full n q 0 m1 Hm1 Hn) as (m2 & -> & Hm2). cbn [rbind].
    destruct (maskData_full n 0 m2 reserved) as (m3 & -> & Hm3); [lia | done | done |].
    cbn [rbind]. cbv zeta.
    match goal with
    | |- context [rfor 1 8 ?body ?init] =>
        destruct (rfor_invariant
                    (fun _ (st : matrix * Z * Z) =>
                       full n (fst (fst st)) /\ 0 <= snd (fst st) <= 7)
                    1 8 body init) as (st & -> & Hst1 & Hst2)
    end.
    + lia.
    + simpl. split; [done | lia].
    + intros i [[x bm] bs] Hi [Hx Hbm]. simpl in Hx, Hbm. cbv beta iota.
      destruct (maskData_full n (Z.of_nat i) x reserved) as (x1 & -> & Hx1);
        [lia | done | done |].
      cbn [rbind].
      destruct (putFormatInfo_full n q (Z.of_nat i) x1 Hx1 Hn) as (x2 & -> & Hx2).
      cbn [rbind].
      destruct (maskData_full n (Z.of_nat i) x2 reserved) as (x3 & Hx3' & Hx3);
        [lia | done | done |].
      destruct (evaluateMatrix x2 <? bs); rewrite Hx3'; cbn [rbind];
        eexists; (split; [done |]); simpl; (split; [done | lia]).
    + cbn [rbind]. by exists (fst (fst st)), (snd (fst st)).
  - apply Z.ltb_ge in E. exists m, (mask q). split; [done |]. split; [done | lia].
Qed.
End bit_matrices.

(** ** The cells that [putData] fills *)

Section putData_fill.
Import QrCode.

Lemma cset_lookup (row : Js.cells) (c : nat) (v : Z) :
  Js.cset row c v !! c = Some (Some v).
Proof.
  unfold Js.cset. case_decide.
  - by apply list_lookup_insert_eq.
  - rewrite lookup_app_r by lia. rewrite lookup_app_r by (rewrite length_replicate; lia).
    rewrite length_replicate. by replace (c - length row - (c - length row))%nat with 0%nat by lia.
Qed.

Lemma cset_lookup_other (row : Js.cells) (c c' : nat) (v x : Z) :
  row !! c' = Some (Some x) -> exists y, Js.cset row c v !! c' = Some (Some y).
Proof.
  intros H. destruct (decide (c = c')) as [->|Hne].
  - exists v. apply cset_lookup.
  - exists x. unfold Js.cset. case_decide.
    + by rewrite list_lookup_insert_ne.
    + rewrite lookup_app_l; [done | by eapply lookup_lt_Some].
Qed.

Lemma cset_length (row : Js.cells) (c : nat) (v : Z) :
  length (Js.cset row c v) = (length row `max` S c)%nat.
Proof.
  unfold Js.cset. case_decide.
  - rewrite length_insert. lia.
  - rewrite !length_app, length_replicate. simpl. lia.
Qed.

(** The size of the symbol and its [reserved] matrix. *)
Variable n : nat.
Variable reserved : matrix.
Hypothesis reserved_rows : length reserved = n.

(** Cell [(r, c)] holds a number. *)
Definition defined_at (m : matrix) (r c : nat) : Prop :=
  exists row v, m !! r = Some row /\ row !! c = Some (Some v).

(** [n] rows of at most [n] cells, each a hole or a bit, and every
    reserved cell is defined. *)
Definition covered (m : matrix) : Prop :=
  length m = n
  /\ cells_ok m
  /\ (forall r row, m !! r = Some row -> (length row <= n)%nat)
  /\ (forall r c flag, (r < n)%nat -> (c < n)%nat ->
        mget reserved r c = Ok flag -> Js.truthy flag = true ->
        defined_at m r c).

(** Every cell that is defined in [m] is defined in [m']. *)
Definition grows (m m' : matrix) : Prop :=
  forall r c, defined_at m r c -> defined_at m' r c.

Lemma mset_covered (m : matrix) (r c : nat) (v : Z) :
  covered m -> (r < n)%nat -> (c < n)%nat -> is_bit (Some v) = true ->
  exists m', mset m r c v = Ok m' /\ covered m' /\ defined_at m' r c /\ grows m m'.
Proof.
  intros (Hlen & Hok & Hrows & Hres) Hr Hc Hv.
  destruct (lookup_lt_is_Some_2 m r) as [row Hrow]; [lia |].
  assert (mset m r c v = Ok (<[r := Js.cset row c v]> m)) as Hset
    by (unfold mset; by rewrite Hrow).
  assert (grows m (<[r := Js.cset row c v]> m)) as Hgrow.
  { intros r' c' (row' & x & Hrow' & Hx).
    destruct (decide (r = r')) as [<-|Hne].
    - rewrite Hrow in Hrow'. inversion Hrow'; subst row'.
      destruct (cset_lookup_other row c c' v x Hx) as [y Hy].
      exists (Js.cset row c v), y. split; [| done].
      apply list_lookup_insert_eq. lia.
    - exists row', x. split; [| done]. by rewrite list_lookup_insert_ne. }
  eexists. split; [exact Hset |]. split; [| split; [| done]].
  - split; [by rewrite length_insert |]. split; [by eapply mset_ok |]. split.
    + intros r' row' Hrow'. destruct (decide (r = r')) as [<-|Hne].
      * rewrite list_lookup_insert_eq in Hrow' by lia. inversion Hrow'; subst.
        rewrite cset_length. specialize (Hrows r row Hrow). lia.
      * rewrite list_lookup_insert_ne in Hrow' by done. by eapply Hrows.
    + intros r' c' flag Hr' Hc' Hflag Htrue. apply Hgrow. by eapply Hres.
  - exists (Js.cset row c v), v. split; [| apply cset_lookup].
    apply list_lookup_insert_eq. lia.
Qed.

Lemma grows_refl (m : matrix) : grows m m.
Proof. by intros r c H. Qed.

Lemma grows_trans (m1 m2 m3 : matrix) : grows m1 m2 -> grows m2 m3 -> grows m1 m3.
Proof. intros H1 H2 r c H. by apply H2, H1. Qed.

(** One cell: it is defined afterwards, written or reserved. *)
Lemma putData_cell_covered b (jj ii : Z) (m : matrix) (k : Z) :
  covered m -> 0 <= jj < Z.of_nat n -> 0 <= ii < Z.of_nat n ->
  exists m' k',
    putData_cell b reserved jj ii (m, k) = Ok (m', k')
    /\ covered m' /\ defined_at m' (Z.to_nat jj) (Z.to_nat ii) /\ grows m m'.
Proof.
  intros Hm Hjj Hii. unfold putData_cell, mgetz, msetz.
  rewrite (proj2 (Z.ltb_ge jj 0)), (proj2 (Z.ltb_ge ii 0)) by lia.
  destruct (lookup_lt_is_Some_2 reserved (Z.to_nat jj)) as [rrow Hrrow]; [lia |].
  assert (mget reserved (Z.to_nat jj) (Z.to_nat ii) = Ok (Js.cget rrow (Z.to_nat ii)))
    as Hget by (unfold mget; by rewrite Hrrow).
  rewrite Hget. cbn [rbind].
  destruct (Js.truthy (Js.cget rrow (Z.to_nat ii))) eqn:Hflag; cbn [negb].
  - exists m, k. split; [done |]. split; [done |]. split; [| apply grows_refl].
    destruct Hm as (_ & _ & _ & Hres). eapply Hres; [lia | lia | exact Hget | done].
  - destruct (mset_covered m (Z.to_nat jj) (Z.to_nat ii) (data_bit b k) Hm)
      as (m' & -> & Hm' & Hdef & Hgrow); [lia | lia | apply land_1_bit |].
    cbn [rbind]. by exists m', (k + 1).
Qed.

(** One column pair: both columns are defined in every row afterwards. *)
Lemma putData_pair_covered b (i dir : Z) (m : matrix) (k : Z) :
  covered m -> 1 <= i < Z.of_nat n -> dir = 1 \/ dir = -1 ->
  exists m' k',
    putData_pair b reserved n i dir (m, k) = Ok (m', k')
    /\ covered m' /\ grows m m'
    /\ forall r, (r < n)%nat ->
         defined_at m' r (Z.to_nat i) /\ defined_at m' r (Z.to_nat (i - 1)).
Proof.
  intros Hm Hi Hdir. unfold putData_pair.
  set (jj0 := if dir <? 0 then Z.of_nat n - 1 else 0).
  destruct (rfor_invariant
              (fun j (mk : matrix * Z) =>
                 covered (fst mk) /\ grows m (fst mk)
                 /\ forall j', (j' < j)%nat ->
                      defined_at (fst mk) (Z.to_nat (jj0 + Z.of_nat j' * dir)) (Z.to_nat i)
                      /\ defined_at (fst mk) (Z.to_nat (jj0 + Z.of_nat j' * dir))
                           (Z.to_nat (i - 1)))
              0 n
              (fun j mk =>
                 mk <- putData_cell b reserved (jj0 + Z.of_nat j * dir) i mk ;;;
                 putData_cell b reserved (jj0 + Z.of_nat j * dir) (i - 1) mk)
              (m, k)) as ([m' k'] & Hrun & Hm' & Hgrow & Hdone).
  - lia.
  - simpl. split; [done |]. split; [apply grows_refl |]. intros j' Hj'. lia.
  - intros j [x kx] Hj (Hx & Hgx & Hdx). simpl in Hx, Hgx, Hdx.
    assert (0 <= jj0 + Z.of_nat j * dir < Z.of_nat n) as Hjj.
    { unfold jj0. destruct Hdir as [-> | ->]; simpl; lia. }
    destruct (putData_cell_covered b _ i x kx Hx Hjj) as (x1 & k1 & -> & Hx1 & Hd1 & Hg1);
      [lia |].
    cbn [rbind].
    destruct (putData_cell_covered b _ (i - 1) x1 k1 Hx1 Hjj)
      as (x2 & k2 & -> & Hx2 & Hd2 & Hg2); [lia |].
    exists (x2, k2). split; [done |]. simpl. split; [done |].
    split; [eapply grows_trans; [| exact Hg2]; by eapply grows_trans |].
    intros j' Hj'. destruct (decide (j' = j)) as [->|Hne].
    + split; [by apply Hg2 | done].
    + destruct (Hdx j') as [H1 H2]; [lia |]. split; by apply Hg2, Hg1.
  - exists m', k'. split; [exact Hrun |]. simpl in *. split; [done |]. split; [done |].
    intros r Hr.
    destruct Hdir as [-> | ->]; unfold jj0 in Hdone; simpl in Hdone.
    + specialize (Hdone r Hr). by replace (Z.to_nat (0 + Z.of_nat r * 1)) with r in Hdone by lia.
    + specialize (Hdone (n - 1 - r)%nat ltac:(lia)).
      by replace (Z.to_nat (Z.of_nat n - 1 + Z.of_nat (n - 1 - r) * -1)) with r
        in Hdone by lia.
Qed.

(** The columns right of [i], the timing column 6 apart, are defined. *)
Definition right_of (i : Z) (m : matrix) : Prop :=
  forall r c, (r < n)%nat -> i < Z.of_nat c < Z.of_nat n -> c <> 6%nat ->
              defined_at m r c.

(** The loop over the column pairs, from a column [i] that is odd, or even
    and at least 6. *)
Lemma putData_loop_covered (fuel : nat) b (i dir : Z) (m : matrix) (k : Z) :
  covered m -> dir = 1 \/ dir = -1 ->
  -1 <= i < Z.of_nat n -> i < Z.of_nat fuel ->
  Z.odd i = true \/ 6 <= i ->
  right_of i m ->
  exists m' k',
    putData_loop fuel b reserved n i dir (m, k) = Ok (m', k')
    /\ covered m' /\ right_of (-1) m'.
Proof.
  revert i dir m k. induction fuel as [|fuel IH]; intros i dir m k Hm Hdir Hi Hf Hpar Hright.
  - assert (i = -1) as -> by lia. by exists m, k.
  - cbn [putData_loop]. destruct (0 <=? i) eqn:E.
    + apply Z.leb_le in E.
      set (i' := if i =? 6 then i - 1 else i).
      assert (1 <= i' < Z.of_nat n /\ (Z.odd (i' - 2) = true \/ 6 <= i' - 2)
              /\ (i = 6 /\ i' = 5 \/ i <> 6 /\ i' = i)) as (Hi' & Hpar' & Hcase).
      { unfold i'. destruct (i =? 6) eqn:E6.
        - apply Z.eqb_eq in E6. subst i. split; [lia |]. split; [by left |]. lia.
        - apply Z.eqb_neq in E6. split.
          + destruct Hpar as [Hodd|]; [| lia].
            destruct (decide (i = 0)) as [->|]; [done | lia].
          + split; [| lia]. destruct Hpar as [Hodd|Hge].
            * left. replace (i - 2) with (i + 2 * (-1)) by lia.
              by rewrite Z.odd_add_mul_2.
            * destruct (decide (i = 7)) as [->|]; [by left |].
              right. lia. }
      destruct (putData_pair_covered b i' dir m k Hm Hi' Hdir)
        as (m1 & k1 & -> & Hm1 & Hg1 & Hd1).
      cbn [rbind]. apply IH; [done | lia | lia | lia | done |].
      intros r c Hr Hc Hc6.
      destruct (decide (Z.of_nat c = i')) as [Hci|Hci].
      * destruct (Hd1 r Hr) as [H _]. by replace (Z.to_nat i') with c in H by lia.
      * destruct (decide (Z.of_nat c = i' - 1)) as [Hci'|Hci'].
        -- destruct (Hd1 r Hr) as [_ H]. by replace (Z.to_nat (i' - 1)) with c in H by lia.
        -- apply Hg1, Hright; [done | | done]. lia.
    + apply Z.leb_gt in E. assert (i = -1) as -> by lia. by exists m, k.
Qed.

(** [putData] returns a matrix with every cell defined, when column 6 is
    reserved in every row. *)
Lemma putData_full b (m : matrix) :
  covered m -> (7 <= n)%nat ->
  (forall r, (r < n)%nat -> exists flag,
        mget reserved r 6 = Ok flag /\ Js.truthy flag = true) ->
  exists m', putData b (m, reserved) = Ok m' /\ full n m'.
Proof.
  intros Hm Hn H6. unfold putData.
  assert (length m = n) as -> by apply Hm.
  destruct (putData_loop_covered n b (Z.of_nat n - 1) (-1) m 0 Hm)
    as (m' & k' & -> & Hm' & Hright); [by right | lia | lia | | |].
  - destruct (Z.odd (Z.of_nat n - 1)) eqn:E; [by left | right; lia].
  - intros r c Hr Hc. lia.
  - cbn [rbind fst]. exists m'. split; [done |].
    destruct Hm' as (Hlen & Hok & Hrows & Hres).
    assert (forall r c, (r < n)%nat -> (c < n)%nat -> defined_at m' r c) as Hall.
    { intros r c Hr Hc. destruct (decide (c = 6%nat)) as [->|Hc6].
      - destruct (H6 r Hr) as (flag & Hflag & Htrue). by eapply Hres.
      - apply Hright; [done | lia | done]. }
    split; [done |]. intros r row Hrow.
    assert (r < n)%nat as Hr by (rewrite <- Hlen; by eapply lookup_lt_Some).
    specialize (Hrows r row Hrow).
    assert (length row = n) as Hrowlen.
    { destruct (Hall r (n - 1)%nat Hr ltac:(lia)) as (row' & v & Hrow' & Hv).
      rewrite Hrow in Hrow'. inversion Hrow'; subst row'.
      apply lookup_lt_Some in Hv. lia. }
    split; [done |]. intros c x Hx.
    assert (c < n)%nat as Hc by (rewrite <- Hrowlen; by eapply lookup_lt_Some).
    destruct (Hall r c Hr Hc) as (row' & v & Hrow' & Hv).
    rewrite Hrow in Hrow'. inversion Hrow'; subst row'.
    rewrite Hx in Hv. inversion Hv; subst x.
    pose proof (Forall_lookup_1 _ _ _ _ (Forall_lookup_1 _ _ _ _ Hok Hrow) Hx)
      as [? | ?]; done.
Qed.
End putData_fill.

(** ** The matrix that [generate] returns *)

Section generation.
Import QrCode.

(** A state of the given version; [makeBaseMatrix] reads nothing else. *)
Definition version_state (v : Z) : t :=
  {| mode := NUMERIC; ecclevel := Some L; mask := -1; data := DString [];
     ver := v |}.

Lemma makeBaseMatrix_ver (q : t) :
  makeBaseMatrix q = makeBaseMatrix (version_state (ver q)).
Proof. reflexivity. Qed.

(** Every reserved cell of a row is defined. *)
Fixpoint reserved_defined (rrow row : Js.cells) : bool :=
  match rrow with
  | [] => true
  | flag :: rrow' =>
      match row with
      | [] => negb (Js.truthy flag) && reserved_defined rrow' []
      | c :: row' =>
          implb (Js.truthy flag) (match c with Some _ => true | None => false end)
          && reserved_defined rrow' row'
      end
  end.

Lemma reserved_defined_spec (rrow row : Js.cells) (c : nat) :
  reserved_defined rrow row = true -> Js.truthy (Js.cget rrow c) = true ->
  exists v, row !! c = Some (Some v).
Proof.
  revert row c. induction rrow as [|flag rrow IH]; intros row c H Hc.
  - by destruct c.
  - destruct row as [|x row]; simpl in H; apply andb_prop in H as [H1 H2].
    + destruct c as [|c]; simpl in Hc.
      * unfold Js.cget in Hc. simpl in Hc. by rewrite Hc in H1.
      * destruct (IH [] c H2 Hc) as [v Hv]. done.
    + destruct c as [|c]; simpl in Hc.
      * unfold Js.cget in Hc. simpl in Hc. rewrite Hc in H1. simpl in H1.
        destruct x as [v|]; [by exists v | done].
      * apply (IH row c H2 Hc).
Qed.

(** The rows of a base matrix against its [reserved] rows: at most [n]
    cells, the reserved ones defined, and column 6 reserved. *)
Fixpoint base_rows (n : nat) (m reserved : matrix) : bool :=
  match m, reserved with
  | [], [] => true
  | row :: m', rrow :: reserved' =>
      bool_decide (length row <= n)%nat
      && reserved_defined rrow row
      && Js.truthy (Js.cget rrow 6)
      && base_rows n m' reserved'
  | _, _ => false
  end.

Lemma base_rows_spec (n : nat) (m reserved : matrix) :
  base_rows n m reserved = true ->
  length reserved = length m
  /\ forall r row rrow, m !! r = Some row -> reserved !! r = Some rrow ->
       (length row <= n)%nat
       /\ reserved_defined rrow row = true
       /\ Js.truthy (Js.cget rrow 6) = true.
Proof.
  revert reserved. induction m as [|row m IH]; intros [|rrow reserved] H;
    simpl in H; try done.
  repeat (apply andb_prop in H as [H ?]).
  destruct (IH reserved) as [Hlen Hrows]; [done |].
  split; [simpl; lia |].
  intros [|r] row' rrow' Hrow Hrrow; simpl in *.
  - inversion Hrow; inversion Hrrow; subst.
    split; [by apply bool_decide_eq_true in H | done].
  - by eapply Hrows.
Qed.

(** What is checked by evaluation for each version: the table entries
    and the base matrix. *)
Definition version_check (v : Z) : bool :=
  let n := Z.to_nat (4 * v + 17) in
  match VERSIONS v, makeBaseMatrix (version_state v) with
  | Some (degrees, blocks, _), Ok (m0, r0) =>
      bool_decide (length degrees = 4%nat)
      && bool_decide (length blocks = 4%nat)
      && forallb (fun d => (0 <=? d)
                           && bool_decide (is_Some (GF256.GENPOLY !! Z.to_nat d)))
           degrees
      && cells_okb m0
      && bool_decide (length m0 = n)
      && base_rows n m0 r0
  | _, _ => false
  end.

Lemma version_check_all :
  forallb version_check (Z.of_nat <$> seq 1 40) = true.
Proof. vm_compute. reflexivity. Qed.

Lemma version_checked (v : Z) : 1 <= v <= 40 -> version_check v = true.
Proof.
  intros Hv. pose proof version_check_all as H.
  rewrite forallb_forall in H. apply H.
  apply list_elem_of_In, list_elem_of_fmap. exists (Z.to_nat v).
  split; [lia |]. apply list_elem_of_In, in_seq. lia.
Qed.

Lemma by_level_defined (a : list Z) (e : Z) :
  length a = 4%nat -> 0 <= e <= 3 ->
  exists x, by_level a (Some e) = Some x /\ x ∈ a.
Proof.
  intros Ha He. unfold by_level. simpl.
  rewrite (proj2 (Z.leb_le 0 e)) by lia.
  destruct (lookup_lt_is_Some_2 a (Z.to_nat e)) as [x Hx]; [lia |].
  exists x. split; [done |]. by eapply list_elem_of_lookup_2.
Qed.

Lemma encode_returns (q : t) (s : list Z) (maxbuflen : Z) :
  data q = DString s ->
  mode q = NUMERIC \/ mode q = ALPHANUMERIC \/ mode q = OCTET ->
  exists b, encode q maxbuflen = Ok b.
Proof.
  intros Hd Hmode. unfold encode.
  assert (data_length (data q) = Ok (Z.of_nat (length s))) as ->
    by (rewrite Hd; reflexivity).
  cbn [rbind].
  match goal with
  | |- context [rbind (if mode q =? NUMERIC then pack_numeric (data q) ?p
                       else _) _] =>
      destruct (pack_payload_spec q s p Hd Hmode) as (p' & -> & _)
  end.
  - destruct (nDataLenBits q) as [nlenbits|] eqn:Hnl.
    + assert (0 <= nlenbits)
        by (unfold nDataLenBits in Hnl; repeat case_match; inversion Hnl; lia).
      apply pack_spec; [| done].
      apply pack_spec; [unfold packer_ok; simpl; lia | lia].
    + apply pack_spec; [unfold packer_ok; simpl; lia | lia].
  - cbn [rbind]. by eexists.
Qed.

(** The base matrix of a version in 1..40. *)
Lemma makeBaseMatrix_covered (q : t) :
  1 <= ver q <= 40 ->
  let n := Z.to_nat (4 * ver q + 17) in
  exists m0 r0,
    makeBaseMatrix q = Ok (m0, r0)
    /\ length r0 = n
    /\ covered n r0 m0
    /\ forall r, (r < n)%nat -> exists flag,
         mget r0 r 6 = Ok flag /\ Js.truthy flag = true.
Proof.
  intros Hver n. pose proof (version_checked (ver q) Hver) as Hcheck.
  unfold version_check in Hcheck. rewrite <- makeBaseMatrix_ver in Hcheck.
  destruct (VERSIONS (ver q)) as [[[degrees blocks] aligns]|]; [| done].
  destruct (makeBaseMatrix q) as [[m0 r0]|]; [| done].
  repeat (apply andb_prop in Hcheck as [Hcheck ?]).
  repeat match goal with
         | H : bool_decide _ = true |- _ => apply bool_decide_eq_true in H
         end.
  match goal with
  | H : length m0 = _ |- _ => rename H into Hm0; fold n in Hm0
  end.
  match goal with
  | H : base_rows _ m0 r0 = true |- _ =>
      destruct (base_rows_spec _ _ _ H) as [Hlen Hrows]
  end.
  exists m0, r0. split; [done |]. split; [lia |]. split.
  - split; [done |]. split; [by apply cells_okb_spec |]. split.
    + intros r row Hrow.
      destruct (lookup_lt_is_Some_2 r0 r) as [rrow Hrrow];
        [rewrite Hlen; by eapply lookup_lt_Some |].
      by destruct (Hrows r row rrow Hrow Hrrow).
    + intros r c flag Hr Hc Hflag Htrue. unfold mget in Hflag.
      destruct (r0 !! r) as [rrow|] eqn:Hrrow; [| done].
      inversion Hflag; subst flag.
      destruct (lookup_lt_is_Some_2 m0 r) as [row Hrow]; [lia |].
      destruct (Hrows r row rrow Hrow Hrrow) as (_ & Hdef & _).
      destruct (reserved_defined_spec rrow row c Hdef Htrue) as [v Hv].
      by exists row, v.
  - intros r Hr.
    destruct (lookup_lt_is_Some_2 r0 r) as [rrow Hrrow]; [lia |].
    destruct (lookup_lt_is_Some_2 m0 r) as [row Hrow]; [lia |].
    destruct (Hrows r row rrow Hrow Hrrow) as (_ & _ & H6).
    exists (Js.cget rrow 6). split; [| done]. unfold mget. by rewrite Hrrow.
Qed.
(** The table entries of a version in 1..40 and a level index in 0..3. *)
Lemma tables_defined (v e : Z) :
  1 <= v <= 40 -> 0 <= e <= 3 ->
  exists degrees blocks aligns d nb genpoly,
    VERSIONS v = Some (degrees, blocks, aligns)
    /\ by_level degrees (Some e) = Some d
    /\ by_level blocks (Some e) = Some nb
    /\ (0 <=? d) = true
    /\ GF256.GENPOLY !! Z.to_nat d = Some genpoly.
Proof.
  intros Hv He. pose proof (version_checked v Hv) as Hcheck.
  unfold version_check in Hcheck.
  destruct (VERSIONS v) as [[[degrees blocks] aligns]|]; [| done].
  destruct (makeBaseMatrix (version_state v)) as [[m0 r0]|]; [| done].
  repeat (apply andb_prop in Hcheck as [Hcheck ?]).
  repeat match goal with
         | H : bool_decide _ = true |- _ => apply bool_decide_eq_true in H
         end.
  destruct (by_level_defined degrees e) as (d & Hd & Hdin); [done | done |].
  destruct (by_level_defined blocks e) as (nb & Hnb & _); [done | done |].
  match goal with
  | H : forallb _ degrees = true |- _ =>
      rewrite forallb_forall in H;
      destruct (andb_prop _ _ (H d (proj1 (list_elem_of_In _ _) Hdin)))
        as [Hd0 Hgen]
  end.
  apply bool_decide_eq_true in Hgen as [genpoly Hgenpoly].
  by exists degrees, blocks, aligns, d, nb, genpoly.
Qed.

(** X1: for a state with a supported mode, a text, a known level, a version
    in 1..40 and a mask of at most 7, [generate] returns a matrix of
    [4 * ver + 17] rows, each of that length, and every cell is 0 or 1. *)
Theorem generate_matrix_shape (q : t) (s : list Z) (e : Z) :
  1 <= ver q <= 40 ->
  mode q = NUMERIC \/ mode q = ALPHANUMERIC \/ mode q = OCTET ->
  data q = DString s ->
  ecclevel q = Some e -> 0 <= e <= 3 ->
  mask q <= 7 ->
  exists m,
    generate q = Ok m
    /\ length m = Z.to_nat (4 * ver q + 17)
    /\ square_bits m = true.
Proof.
  intros Hver Hmode Hdata Hecc He Hmask.
  destruct (tables_defined (ver q) e Hver He)
    as (degrees & blocks & aligns & d & nb & genpoly & HV & Hd & Hnb & Hd0 & Hgenpoly).
  destruct (makeBaseMatrix_covered q Hver) as (m0 & r0 & Hbase & Hr0 & Hcov & H6).
  set (n := Z.to_nat (4 * ver q + 17)) in *.
  unfold generate, nDataBits, nFullBits. rewrite HV, Hecc, Hd, Hnb.
  cbn [rbind mbind option_bind].
  match goal with
  | |- context [encode q ?maxbuflen] =>
      pose proof (encode_returns q s maxbuflen Hdata Hmode) as Henc
  end.
  destruct Henc as [b Hb]. rewrite Hb.
  cbn [rbind]. rewrite Hd0, Hgenpoly, Hbase. cbn [rbind].
  assert (9 <= n)%nat as Hn by lia.
  match goal with
  | |- context [putData ?b' (m0, r0)] =>
      destruct (putData_full n r0 Hr0 b' m0 Hcov ltac:(lia) H6) as (m1 & Hm1 & Hfull);
      rewrite Hm1
  end.
  cbn [rbind snd].
  destruct (findBestMask_full n q m1 r0 Hfull) as (m2 & mask' & -> & Hm2 & Hmask');
    [done | done | done |].
  cbn [rbind].
  destruct (maskData_full n mask' m2 r0 Hmask' Hm2) as (m3 & -> & Hm3); [done |].
  cbn [rbind].
  destruct (putFormatInfo_full n q mask' m3 Hm3 Hn) as (m4 & -> & Hm4).
  exists m4. split; [done |]. by apply full_square_bits.
Qed.

Lemma generate_matrix_shape_witness :
  exists m,
    generate {| mode := ALPHANUMERIC; ecclevel := Some Q; mask := -1;
                data := DString (units "HELLO WORLD"); ver := 1 |} = Ok m
    /\ length m = Z.to_nat (4 * 1 + 17)
    /\ square_bits m = true.
Proof.
  apply (generate_matrix_shape
           {| mode := ALPHANUMERIC; ecclevel := Some Q; mask := -1;
              data := DString (units "HELLO WORLD"); ver := 1 |}
           (units "HELLO WORLD") 3);
    [simpl; lia | right; left; reflexivity | reflexivity | reflexivity
     | lia | simpl; lia].
Defined.
End generation.

(** ** The groups of a column *)

Section column_groups.
Import QrCode.

(** The number of leading cells of a line that are dark (or light). *)
Fixpoint prefix_len (dark : bool) (l : list (option Z)) : nat :=
  match l with
  | [] => 0
  | c :: l' => if Bool.eqb (Js.truthy c) dark then S (prefix_len dark l') else 0
  end.

Lemma prefix_len_le dark l : (prefix_len dark l <= length l)%nat.
Proof. induction l as [|c l IH]; simpl; [lia |]. destruct (Bool.eqb _ _); lia. Qed.

Lemma prefix_len_drop dark l : prefix_len dark (drop (prefix_len dark l) l) = 0%nat.
Proof.
  induction l as [|c l IH]; simpl; [done |].
  destruct (Bool.eqb (Js.truthy c) dark) eqn:E; simpl; [done | by rewrite E].
Qed.

Lemma prefix_len_other dark l :
  l <> [] -> prefix_len dark l = 0%nat -> (1 <= prefix_len (negb dark) l)%nat.
Proof.
  destruct l as [|c l]; [done |]. simpl. intros _.
  destruct (Js.truthy c), dark; simpl; intros; try done; lia.
Qed.

Lemma spec_runs_prefix dark k l :
  spec_runs dark k l
  = spec_runs dark (k + Z.of_nat (prefix_len dark l)) (drop (prefix_len dark l) l).
Proof.
  revert k. induction l as [|c l IH]; intros k; simpl.
  - by rewrite Z.add_0_r.
  - destruct (Bool.eqb (Js.truthy c) dark) eqn:E; simpl.
    + rewrite IH. f_equal. lia.
    + by rewrite E, Z.add_0_r.
Qed.

Lemma spec_runs_turn dark k l :
  l <> [] -> prefix_len dark l = 0%nat ->
  spec_runs dark k l = k :: spec_runs (negb dark) 0 l.
Proof.
  destruct l as [|c l]; [done |]. simpl. intros _.
  destruct (Js.truthy c), dark; simpl; intros; try done.
Qed.

(** The groups after the leading one. *)
Definition spec_tail (l : list (option Z)) : list Z :=
  match l with
  | [] => []
  | _ => spec_runs true 0 l
  end.

Lemma spec_tail_unfold (l : list (option Z)) :
  l <> [] ->
  let c1 := prefix_len true l in
  let l1 := drop c1 l in
  let c2 := prefix_len false l1 in
  spec_tail l = Z.of_nat c1 :: Z.of_nat c2 :: spec_tail (drop c2 l1).
Proof.
  intros Hl c1 l1 c2. unfold spec_tail at 1. destruct l as [|c l]; [done |].
  rewrite spec_runs_prefix. fold c1. fold l1. rewrite Z.add_0_l.
  destruct (decide (l1 = [])) as [E|E].
  - unfold c2. rewrite E. reflexivity.
  - rewrite spec_runs_turn by (done || apply prefix_len_drop). f_equal.
    simpl. rewrite spec_runs_prefix. fold c2. rewrite Z.add_0_l.
    destruct (drop c2 l1) as [|c' l2] eqn:E2; [done |].
    rewrite spec_runs_turn; [done | done |].
    rewrite <- E2. apply prefix_len_drop.
Qed.

(** A line and the function that reads its cells. *)
Variable line : list (option Z).
Variable line_cell : nat -> option Z.
Hypothesis line_cell_lookup : forall j, line_cell j = mjoin (line !! j).

Lemma drop_cell (j : nat) :
  (j < length line)%nat -> drop j line = line_cell j :: drop (S j) line.
Proof.
  intros Hj. destruct (lookup_lt_is_Some_2 line j Hj) as [c Hc].
  rewrite line_cell_lookup, Hc. simpl. by apply drop_S.
Qed.

Lemma run_spec (fuel : nat) (dark : bool) (j : nat) (k : Z) :
  (length line <= j + fuel)%nat ->
  run fuel line_cell dark (length line) j k
  = ((j + prefix_len dark (drop j line))%nat,
     k + Z.of_nat (prefix_len dark (drop j line))).
Proof.
  revert j k. induction fuel as [|fuel IH]; intros j k Hf; simpl.
  - rewrite drop_ge by lia. simpl. f_equal; lia.
  - destruct (decide (j < length line)%nat) as [Hj|Hj].
    + rewrite bool_decide_eq_true_2 by done. rewrite (drop_cell j Hj). simpl.
      destruct (Bool.eqb (Js.truthy (line_cell j)) dark); simpl.
      * rewrite IH by lia. f_equal; lia.
      * f_equal; lia.
    + rewrite bool_decide_eq_false_2 by done. simpl.
      rewrite drop_ge by lia. simpl. f_equal; lia.
Qed.

Lemma column_groups_loop_spec (fuel j : nat) (groups : list (option Z)) :
  (length line <= j + fuel)%nat -> (j <= length line)%nat ->
  column_groups_loop fuel line_cell (length line) j groups
  = groups ++ (Some <$> spec_tail (drop j line)).
Proof.
  revert j groups. induction fuel as [|fuel IH]; intros j groups Hf Hj; simpl.
  - rewrite drop_ge by lia. simpl. by rewrite app_nil_r.
  - destruct (decide (j < length line)%nat) as [Hlt|Hge].
    + rewrite !run_spec by lia. rewrite !Z.add_0_l.
      set (l := drop j line).
      set (c1 := prefix_len true l).
      assert (drop (j + c1) line = drop c1 l) as -> by (unfold l; by rewrite drop_drop).
      set (l1 := drop c1 l).
      set (c2 := prefix_len false l1).
      assert (l <> []) as Hl.
      { unfold l. rewrite (drop_cell j Hlt). done. }
      pose proof (prefix_len_le true l) as Hc1.
      pose proof (prefix_len_le false l1) as Hc2.
      assert (length l = (length line - j)%nat) as Hlen by (unfold l; apply length_drop).
      assert (length l1 = (length l - c1)%nat) as Hlen1 by (unfold l1; apply length_drop).
      fold c1 in Hc1. fold c2 in Hc2.
      assert (1 <= c1 + c2)%nat as Hprogress.
      { destruct (decide (c1 = 0)%nat) as [E|E]; [| lia].
        assert (l1 = l) as Hl1 by (unfold l1; rewrite E; done).
        unfold c2. rewrite Hl1.
        pose proof (prefix_len_other true l Hl E). simpl in *. lia. }
      rewrite IH by lia.
      rewrite (spec_tail_unfold l Hl). fold c1. fold l1. fold c2.
      assert (drop (j + c1 + c2) line = drop c2 l1) as ->.
      { unfold l1, l. rewrite !drop_drop. f_equal. lia. }
      rewrite <- !app_assoc. reflexivity.
    + rewrite drop_ge by lia. simpl. by rewrite app_nil_r.
Qed.
End column_groups.

Section column_groups_theorem.
Import QrCode.

(** Column [i] of a matrix, from the top. *)
Definition column (m : matrix) (i : nat) : list (option Z) :=
  (fun row => Js.cget row i) <$> m.

(** X2: the groups that [evaluateMatrix] builds for a column are the run-length
    list of the specification, and the first loop of [evaluategroup] adds
    [3 + (g - 5)] for every group [g] of at least 5. *)
Theorem column_groups_spec (m : matrix) (i : nat) :
  column_groups (length m) m i = Some <$> spec_groups (column m i)
  /\ consecutive_score (column_groups (length m) m i)
     = foldl (fun score g => if 5 <=? g then score + (3 + (g - 5)) else score)
         0 (spec_groups (column m i)).
Proof.
  assert (column_groups (length m) m i = Some <$> spec_groups (column m i)) as H.
  { unfold column_groups.
    rewrite <- (length_fmap (fun row => Js.cget row i) m). fold (column m i).
    rewrite (column_groups_loop_spec (column m i)); [| | lia | lia].
    - unfold spec_groups, spec_tail. simpl. by destruct (column m i).
    - intros j. unfold column. rewrite list_lookup_fmap.
      by destruct (m !! j). }
  split; [done |]. rewrite H. unfold consecutive_score.
  assert (forall (l : list Z) (z : Z),
            foldl (fun score g =>
                     match g with
                     | Some x => if 5 <=? x
                                 then score + (PENALTY_CONSECUTIVE + (x - 5))
                                 else score
                     | None => score
                     end) z (Some <$> l)
            = foldl (fun score g => if 5 <=? g then score + (3 + (g - 5))
                                    else score) z l) as Hfold.
  { induction l as [|g l IH]; intros z; simpl; [done | apply IH]. }
  apply Hfold.
Qed.
End column_groups_theorem.

(** ** The mask option *)

Section mask_option.
Import QrCode.

(** X3: for a text, a supported mode and a version in 1..40, the constructor
    throws "invalid mask" for a mask below -1 or above 8, and for a mask in
    -1..8 it returns with that mask. *)
Theorem constructor_mask (s : list Z) (o : QrCodeOptions) (v m : Z) :
  mode_supported o = true ->
  opt_version o = Some v -> 1 <= v <= 40 ->
  opt_mask o = Some m ->
  ((m < -1 \/ 8 < m) -> constructor (DString s) o = Throw InvalidMask)
  /\ (-1 <= m <= 8 ->
      exists q, constructor (DString s) o = Ok q /\ mask q = m /\ ver q = v).
Proof.
  intros Hmode Hv Hv' Hm.
  destruct (constructor_text s o Hmode) as (md & e & _ & Hc).
  assert (o = options (opt_ecclevel o) (Some v) (opt_mode o) (opt_mask o)) as Ho
    by (destruct o; simpl in *; by subst).
  rewrite Ho, Hc, Hm. simpl.
  rewrite (proj2 (Z.eqb_neq v 0)) by lia.
  rewrite (proj2 (Z.ltb_ge v 0)) by lia.
  rewrite (proj2 (Z.ltb_ge v 1)) by lia.
  rewrite (proj2 (Z.ltb_ge 40 v)) by lia. simpl.
  split.
  - intros H.
    rewrite (proj2 (Z.eqb_neq m (-1))) by lia. simpl.
    destruct H as [H|H].
    + by rewrite (proj2 (Z.ltb_lt m 0)) by lia.
    + rewrite (proj2 (Z.ltb_lt 8 m)) by lia. by rewrite orb_true_r.
  - intros H. destruct (m =? -1) eqn:E; simpl.
    + eexists. split; [done |]. done.
    + apply Z.eqb_neq in E.
      rewrite (proj2 (Z.ltb_ge m 0)), (proj2 (Z.ltb_ge 8 m)) by lia. simpl.
      eexists. split; [done |]. done.
Qed.

Lemma constructor_mask_witness :
  ((9 < -1 \/ 8 < 9) ->
   constructor (DString (units "1")) (options None (Some 2) None (Some 9))
   = Throw InvalidMask)
  /\ (-1 <= 9 <= 8 ->
      exists q, constructor (DString (units "1"))
                  (options None (Some 2) None (Some 9)) = Ok q
                /\ mask q = 9 /\ ver q = 2).
Proof.
  apply (constructor_mask (units "1") (options None (Some 2) None (Some 9)) 2 9);
    [reflexivity | reflexivity | lia | reflexivity].
Defined.
End mask_option.

(** ** Reed-Solomon code words *)

Section reed_solomon.
Import QrCode.

(** *** GF(2^8) *)

(** Multiplication by x modulo x^8+x^4+x^3+x^2+1: the step of the loop
    that fills [MAP]. *)
Definition xtime (v : Z) : Z := Z.lxor (v * 2) (if 128 <=? v then 0x11d else 0).

(** The product in GF(2^8), by shift and add over the bits of [b]: the
    reference that the tables are compared with. *)
Fixpoint gf_mul_loop (fuel : nat) (a b r : Z) : Z :=
  match fuel with
  | O => r
  | S fuel' =>
      gf_mul_loop fuel' (xtime a) (b / 2) (if Z.odd b then Z.lxor r a else r)
  end.

Definition gf_mul (a b : Z) : Z := gf_mul_loop 8 a b 0.

(** The power [e] of the generator, as [MAP] holds it. *)
Definition alpha (e : Z) : Z := default 0 (GF256.map_at e).

Definition is_byte (z : Z) : Prop := 0 <= z <= 255.

Definition bytes : list Z := Z.of_nat <$> seq 0 256.

Lemma is_byte_elem (z : Z) : is_byte z -> z ∈ bytes.
Proof.
  intros H. apply list_elem_of_fmap. exists (Z.to_nat z).
  split; [unfold is_byte in H; lia |]. apply list_elem_of_In, in_seq.
  unfold is_byte in H. lia.
Qed.

(** What is checked of the tables by evaluation, for every byte [c]: the
    entry of [INVMAP] and, for [c] other than 0, that the row of products
    of [c] with the powers in [MAP] is [MAP] rotated by [INVMAP[c]]. *)
Definition gf_check (c : Z) : bool :=
  forallb (fun x => bool_decide (gf_mul 0 x = 0)) GF256.MAP
  && if c =? 0 then bool_decide (GF256.invmap_at c = Some (-1))
     else match GF256.invmap_at c with
          | Some q =>
              (0 <=? q) && (q <? 255)
              && bool_decide (gf_mul c <$> GF256.MAP
                              = drop (Z.to_nat q) GF256.MAP
                                ++ take (Z.to_nat q) GF256.MAP)
          | None => false
          end.

Lemma gf_check_all : forallb gf_check bytes = true.
Proof. vm_compute. reflexivity. Qed.

Lemma MAP_bytes : forallb (fun x => (0 <=? x) && (x <=? 255)) GF256.MAP = true.
Proof. reflexivity. Qed.

Lemma MAP_length : length GF256.MAP = 255%nat.
Proof. reflexivity. Qed.

Lemma alpha_lookup (e : Z) :
  0 <= e <= 254 -> GF256.MAP !! Z.to_nat e = Some (alpha e) /\ is_byte (alpha e).
Proof.
  intros He. unfold alpha, GF256.map_at.
  rewrite (proj2 (Z.leb_le 0 e)) by lia.
  destruct (lookup_lt_is_Some_2 GF256.MAP (Z.to_nat e)) as [x Hx];
    [rewrite MAP_length; lia |].
  rewrite Hx. split; [done |]. simpl.
  pose proof MAP_bytes as H. rewrite forallb_forall in H.
  specialize (H x (proj1 (list_elem_of_In _ _) (list_elem_of_lookup_2 _ _ _ Hx))).
  unfold is_byte. lia.
Qed.

Lemma gf_checked (c : Z) : is_byte c -> gf_check c = true.
Proof.
  intros Hc. pose proof gf_check_all as H. rewrite forallb_forall in H.
  apply H, list_elem_of_In, is_byte_elem, Hc.
Qed.

Lemma gf_mul_0 (e : Z) : 0 <= e <= 254 -> gf_mul 0 (alpha e) = 0.
Proof.
  intros He. pose proof (gf_checked 0 ltac:(unfold is_byte; lia)) as H.
  unfold gf_check in H.
  apply andb_prop in H as [H _].
  rewrite forallb_forall in H.
  destruct (alpha_lookup e He) as [Hx _].
  specialize (H _ (proj1 (list_elem_of_In _ _) (list_elem_of_lookup_2 _ _ _ Hx))).
  by apply bool_decide_eq_true in H.
Qed.

Lemma invmap_0 : GF256.invmap_at 0 = Some (-1).
Proof. reflexivity. Qed.

(** The table form of a product, as [calculateEcc] computes it. *)
Lemma gf_mul_tables (c e : Z) :
  is_byte c -> c <> 0 -> 0 <= e <= 254 ->
  exists q, GF256.invmap_at c = Some q /\ 0 <= q
            /\ GF256.map_at ((q + e) `rem` 255) = Some (gf_mul c (alpha e)).
Proof.
  intros Hc Hc0 He. pose proof (gf_checked c Hc) as H. unfold gf_check in H.
  apply andb_prop in H as [_ H].
  rewrite (proj2 (Z.eqb_neq c 0)) in H by done.
  destruct (GF256.invmap_at c) as [q|]; [| done].
  apply andb_prop in H as [H Hrot]. apply andb_prop in H as [Hq0 Hq1].
  apply Z.leb_le in Hq0. apply Z.ltb_lt in Hq1.
  apply bool_decide_eq_true in Hrot.
  exists q. split; [done |]. split; [done |].
  destruct (alpha_lookup e He) as [Hx _].
  assert ((gf_mul c <$> GF256.MAP) !! Z.to_nat e = Some (gf_mul c (alpha e))) as Hl
    by (by rewrite list_lookup_fmap, Hx).
  rewrite Hrot in Hl. rewrite Z.rem_mod_nonneg by lia.
  pose proof (Z.mod_pos_bound (q + e) 255 ltac:(lia)) as Hm.
  unfold GF256.map_at. rewrite (proj2 (Z.leb_le 0 _)) by lia.
  pose proof MAP_length as HL.
  destruct (decide (q + e < 255)) as [Hlt|Hge].
  - rewrite Z.mod_small by lia.
    rewrite lookup_app_l in Hl by (rewrite length_drop; lia).
    rewrite lookup_drop in Hl. rewrite <- Hl. f_equal. lia.
  - rewrite lookup_app_r in Hl by (rewrite length_drop; lia).
    rewrite length_drop in Hl. rewrite lookup_take_lt in Hl by lia.
    assert ((q + e) mod 255 = q + e - 255) as ->
      by (symmetry; apply (Z.mod_unique (q + e) 255 1 (q + e - 255)); lia).
    rewrite <- Hl. f_equal. lia.
Qed.

(** *** Polynomials over GF(2^8), coefficients highest first *)

(** [X] with [L] added (XOR) to its first cells. *)
Fixpoint xor_prefix (X L : list Z) : list Z :=
  match L, X with
  | l :: L', x :: X' => Z.lxor x l :: xor_prefix X' L'
  | _, _ => X
  end.

Definition scale (c : Z) (P : list Z) : list Z := gf_mul c <$> P.

(** The product of [Q] and [P]. *)
Fixpoint poly_mul (Q P : list Z) : list Z :=
  match Q with
  | [] => replicate (length P - 1) 0
  | c :: Q' => xor_prefix (0 :: poly_mul Q' P) (scale c P)
  end.

(** Long division of [V] by the monic polynomial [1 :: g], [n] steps: the
    result holds the quotient in its first [n] cells and the remainder
    after them. *)
Fixpoint divide (g : list Z) (n : nat) (V : list Z) : list Z :=
  match n, V with
  | S n', c :: V' => c :: divide g n' (xor_prefix V' (scale c g))
  | _, _ => V
  end.

Lemma xor_prefix_nil (X : list Z) : xor_prefix X [] = X.
Proof. by destruct X. Qed.

Lemma xor_prefix_length (X L : list Z) : length (xor_prefix X L) = length X.
Proof.
  revert X. induction L as [|l L IH]; intros [|x X]; simpl; try done.
  by rewrite IH.
Qed.

Lemma xor_prefix_twice (X L : list Z) : xor_prefix (xor_prefix X L) L = X.
Proof.
  revert X. induction L as [|l L IH]; intros [|x X]; simpl; try done.
  rewrite IH. f_equal. rewrite Z.lxor_assoc, Z.lxor_nilpotent. apply Z.lxor_0_r.
Qed.

Lemma xor_prefix_comm (X L M : list Z) :
  xor_prefix (xor_prefix X L) M = xor_prefix (xor_prefix X M) L.
Proof.
  revert X M. induction L as [|l L IH]; intros X M.
  - by rewrite !xor_prefix_nil.
  - destruct X as [|x X]; [by destruct M |].
    destruct M as [|m M]; [done |]. simpl. rewrite IH. f_equal.
    rewrite !Z.lxor_assoc. f_equal. apply Z.lxor_comm.
Qed.

Lemma xor_prefix_self (X : list Z) : xor_prefix X X = replicate (length X) 0.
Proof.
  induction X as [|x X IH]; simpl; [done |]. by rewrite IH, Z.lxor_nilpotent.
Qed.

Lemma xor_prefix_zeros (X : list Z) (m : nat) : xor_prefix X (replicate m 0) = X.
Proof.
  revert X. induction m as [|m IH]; intros [|x X]; simpl; try done.
  by rewrite IH, Z.lxor_0_r.
Qed.

Lemma xor_prefix_app (A B A' B' : list Z) :
  length A = length A' ->
  xor_prefix (A ++ B) (A' ++ B') = xor_prefix A A' ++ xor_prefix B B'.
Proof.
  revert A'. induction A as [|a A IH]; intros [|a' A'] H; try done.
  cbn [app xor_prefix]. rewrite IH by (simpl in H; lia). done.
Qed.

Lemma zeros_xor_prefix (E : list Z) :
  xor_prefix (replicate (length E) 0) E = E.
Proof.
  induction E as [|e E IH]; simpl; [done |]. by rewrite IH, Z.lxor_0_l.
Qed.

Lemma gf_mul_one (c : Z) : gf_mul c 1 = c.
Proof. unfold gf_mul. simpl. apply Z.lxor_0_l. Qed.

(** The division is exact: the dividend is the product of the quotient
    and the divisor, plus the remainder. *)
Lemma divide_poly_mul (g : list Z) (n : nat) (V : list Z) :
  length V = (n + length g)%nat ->
  poly_mul (take n (divide g n V)) (1 :: g)
  = xor_prefix V (replicate n 0 ++ drop n (divide g n V)).
Proof.
  revert V. induction n as [|n IH]; intros V HV.
  - simpl. rewrite Nat.sub_0_r.
    replace (divide g 0 V) with V by (by destruct V).
    rewrite drop_0, xor_prefix_self. f_equal. simpl in HV. lia.
  - destruct V as [|c V]; [done |]. cbn [divide take drop poly_mul].
    rewrite IH by (rewrite xor_prefix_length; simpl in HV; lia).
    change (scale c (1 :: g)) with (gf_mul c 1 :: scale c g).
    cbn [xor_prefix replicate app].
    rewrite gf_mul_one, Z.lxor_0_l, Z.lxor_0_r. f_equal.
    rewrite xor_prefix_comm, xor_prefix_twice. done.
Qed.

(** *** The loop of [calculateEcc] *)

(** [modulus[p]] as the operator [^] reads it, and the first [N] cells of
    [modulus] read so. *)
Definition val (a : list Js.val) (p : nat) : Z := Js.to_int32 (Js.get a p).

Definition view (N : nat) (a : list Js.val) : list Z := val a <$> seq 0 N.

(** The remainder cells of the result of [calculateEcc]. *)
Definition ecc_bytes (k : nat) (e : list Js.val) : list Z := view k e.

(** The numbers of [modulus] are bytes, and its first [n] cells are numbers. *)
Definition good (n : nat) (a : list Js.val) : Prop :=
  (forall p z, Js.get a p = Js.Num z -> is_byte z)
  /\ (forall p, (p < n)%nat -> exists z, Js.get a p = Js.Num z).

Definition exps (G : list Z) : Prop := Forall (fun e => 0 <= e <= 254) G.

(** One round of the outer loop, on the cells read as numbers. *)
Definition vstep (g : list Z) (i : nat) (V : list Z) : list Z :=
  take (S i) V ++ xor_prefix (drop (S i) V) (scale (default 0 (V !! i)) g).

Lemma wrap32_byte (z : Z) : is_byte z -> Js.wrap32 z = z.
Proof. unfold is_byte, Js.wrap32. intros H. rewrite Z.mod_small by lia. lia. Qed.

Lemma log2_byte (x : Z) : is_byte x -> Z.log2 x < 8.
Proof.
  unfold is_byte. intros H. destruct (decide (x = 0)) as [->|Hx]; [done |].
  apply Z.log2_lt_pow2; lia.
Qed.

Lemma lxor_byte (x y : Z) : is_byte x -> is_byte y -> is_byte (Z.lxor x y).
Proof.
  intros Hx Hy. pose proof (log2_byte x Hx) as Lx. pose proof (log2_byte y Hy) as Ly.
  unfold is_byte in *.
  assert (0 <= Z.lxor x y) as H0 by (apply Z.lxor_nonneg; lia).
  split; [done |].
  destruct (decide (Z.lxor x y = 0)) as [->|Hne]; [lia |].
  pose proof (Z.log2_lxor x y ltac:(lia) ltac:(lia)) as Hl.
  assert (Z.lxor x y < 2 ^ 8); [apply Z.log2_lt_pow2; lia | lia].
Qed.

Lemma map_at_byte (x y : Z) : GF256.map_at x = Some y -> is_byte y.
Proof.
  unfold GF256.map_at. destruct (0 <=? x); [| done]. intros Hx.
  pose proof MAP_bytes as H. rewrite forallb_forall in H.
  specialize (H y (proj1 (list_elem_of_In _ _) (list_elem_of_lookup_2 _ _ _ Hx))).
  unfold is_byte. lia.
Qed.

Lemma get_set (a : list Js.val) (p t : nat) (v : Js.val) :
  Js.get (Js.set a p v) t = if decide (t = p) then v else Js.get a t.
Proof.
  unfold Js.get, Js.set. case_decide as Hp.
  - case_decide as Ht.
    + subst. by rewrite list_lookup_insert_eq.
    + by rewrite list_lookup_insert_ne.
  - destruct (decide (t < length a)%nat) as [Hl|Hl].
    + rewrite lookup_app_l by done. case_decide; [lia | done].
    + rewrite lookup_app_r by lia.
      rewrite (lookup_ge_None_2 a t) by lia.
      destruct (decide (t - length a < p - length a)%nat) as [Hr|Hr].
      * rewrite lookup_app_l by (rewrite length_replicate; lia).
        rewrite lookup_replicate_2 by lia. case_decide; [lia | done].
      * rewrite lookup_app_r by (rewrite length_replicate; lia).
        rewrite length_replicate. case_decide as Ht.
        -- subst. by replace (p - length a - (p - length a))%nat with 0%nat by lia.
        -- rewrite lookup_ge_None_2; [done | simpl; lia].
Qed.

Lemma view_length (N : nat) (a : list Js.val) : length (view N a) = N.
Proof. unfold view. by rewrite length_fmap, length_seq. Qed.

Lemma view_lookup (N : nat) (a : list Js.val) (p : nat) :
  (p < N)%nat -> view N a !! p = Some (val a p).
Proof.
  intros H. unfold view. rewrite list_lookup_fmap, lookup_seq_lt by done. done.
Qed.

Lemma view_eq (N : nat) (a : list Js.val) (L : list Z) :
  length L = N -> (forall p, (p < N)%nat -> L !! p = Some (val a p)) ->
  view N a = L.
Proof.
  intros HL H. apply list_eq. intros t.
  destruct (decide (t < N)%nat) as [Ht|Ht].
  - by rewrite view_lookup, H.
  - rewrite !lookup_ge_None_2; [done | lia | rewrite view_length; lia].
Qed.

Lemma view_set (N : nat) (a : list Js.val) (p : nat) (v : Js.val) :
  (p < N)%nat ->
  view N (Js.set a p v) = <[p := Js.to_int32 v]> (view N a).
Proof.
  intros Hp. apply view_eq; [by rewrite length_insert, view_length |].
  intros t Ht. unfold val. rewrite get_set. case_decide as Htp.
  - subst. rewrite list_lookup_insert_eq; [done | by rewrite view_length].
  - rewrite list_lookup_insert_ne by done. by apply view_lookup.
Qed.

Lemma val_byte (n : nat) (a : list Js.val) (p : nat) :
  good n a -> is_byte (val a p).
Proof.
  intros [H _]. unfold val. specialize (H p).
  destruct (Js.get a p) as [z| |]; simpl; [| unfold is_byte; lia ..].
  rewrite wrap32_byte; by apply H.
Qed.

Lemma good_set (n : nat) (a : list Js.val) (p : nat) (z : Z) :
  good n a -> is_byte z -> good n (Js.set a p (Js.Num z)).
Proof.
  intros [H1 H2] Hz. split.
  - intros t y. rewrite get_set. case_decide; [by intros [= <-] | apply H1].
  - intros t Ht. rewrite get_set. case_decide; [by eexists | by apply H2].
Qed.

Lemma xor_prefix_lookup_ge (X L : list Z) (t : nat) :
  (length L <= t)%nat -> xor_prefix X L !! t = X !! t.
Proof.
  revert X t. induction L as [|l L IH]; intros X t H.
  - by rewrite xor_prefix_nil.
  - destruct X as [|x X]; [done |]. destruct t as [|t]; simpl in *; [lia |].
    apply IH. lia.
Qed.

Lemma xor_prefix_take_S (X L : list Z) (j : nat) (x l : Z) :
  X !! j = Some x -> L !! j = Some l ->
  <[j := Z.lxor x l]> (xor_prefix X (take j L)) = xor_prefix X (take (S j) L).
Proof.
  revert X L. induction j as [|j IH]; intros [|x0 X] [|l0 L] HX HL; try done.
  - simpl in *. injection HX as ->. injection HL as ->.
    by rewrite xor_prefix_nil.
  - simpl in HX, HL. cbn [take xor_prefix]. simpl. f_equal. by apply IH.
Qed.

Lemma scale_0 (G : list Z) :
  exps G -> scale 0 (alpha <$> G) = replicate (length G) 0.
Proof.
  induction 1 as [|e G He _ IH]; [done |].
  unfold scale in *. rewrite !fmap_cons, IH. cbn [length replicate]. f_equal.
  by apply gf_mul_0.
Qed.

(** The inner loop adds the multiple of the generator. *)
Lemma calculateEcc_inner (G : list Z) (n N i : nat) (q c : Z) (a : list Js.val) :
  exps G -> good n a -> (S i + length G <= N)%nat ->
  is_byte c -> c <> 0 -> GF256.invmap_at c = Some q ->
  let a' :=
    for_ 0 (length G) (fun j modulus =>
      Js.set modulus (S i + j)
        (Js.Num (Z.lxor (Js.to_int32 (Js.get modulus (S i + j)))
                   (Js.int32_of
                      (GF256.map_at
                         ((default 0 (Some q) + default 0 (G !! j))
                          `rem` 255)))))) a in
  good n a'
  /\ view N a' = take (S i) (view N a)
                 ++ xor_prefix (drop (S i) (view N a)) (scale c (alpha <$> G)).
Proof.
  intros HG Ha HN Hc Hc0 Hq a'.
  set (V := view N a). set (X := drop (S i) V). set (L := scale c (alpha <$> G)).
  assert (length L = length G) as HL by (unfold L, scale; by rewrite !length_fmap).
  assert (length V = N) as HV by apply view_length.
  cut (good n a' /\ view N a' = take (S i) V ++ xor_prefix X (take (length G) L)).
  { rewrite (take_ge L) by lia. done. }
  unfold a'.
  apply (for_invariant
           (fun j x => good n x
                       /\ view N x = take (S i) V ++ xor_prefix X (take j L)));
    [lia | |].
  - split; [done |]. unfold X. by rewrite take_0, xor_prefix_nil, take_drop.
  - intros j x Hj [Hg Hv].
    destruct (lookup_lt_is_Some_2 G j) as [e He]; [lia |].
    rewrite He. change (default 0 (Some q)) with q.
    change (default 0 (Some e)) with e.
    assert (0 <= e <= 254) as Hee
      by (eapply (proj1 (Forall_lookup _ _) HG); eassumption).
    destruct (gf_mul_tables c e Hc Hc0 Hee) as (q' & Hq' & _ & Hm).
    rewrite Hq in Hq'. injection Hq' as <-. rewrite Hm. cbn [Js.int32_of].
    pose proof (map_at_byte _ _ Hm) as Hs. rewrite (wrap32_byte _ Hs).
    fold (val x (S i + j)).
    pose proof (val_byte n x (S i + j) Hg) as Ho.
    pose proof (lxor_byte _ _ Ho Hs) as Hz.
    split; [by apply good_set |].
    rewrite view_set by lia. cbn [Js.to_int32]. rewrite (wrap32_byte _ Hz), Hv.
    assert (length (take (S i) V) = S i) as Ht by (rewrite length_take; lia).
    rewrite insert_app_r_alt by lia. rewrite Ht.
    replace (S i + j - S i)%nat with j by lia. f_equal.
    apply xor_prefix_take_S.
    + rewrite <- (xor_prefix_lookup_ge X (take j L) j) by (rewrite length_take; lia).
      pose proof (view_lookup N x (S i + j) ltac:(lia)) as Hl.
      rewrite Hv, lookup_app_r in Hl by lia. rewrite Ht in Hl.
      by replace (S i + j - S i)%nat with j in Hl by lia.
    + unfold L, scale. by rewrite !list_lookup_fmap, He.
Qed.

(** One round of the outer loop. *)
Lemma calculateEcc_round (G : list Z) (n N i : nat) (a : list Js.val) :
  exps G -> good n a -> (i < n)%nat -> (n + length G <= N)%nat ->
  let a' :=
    let quotient := match Js.get a i with
                    | Js.Num z => GF256.invmap_at z
                    | _ => None
                    end in
    let i := S i in
    if match quotient with Some x => 0 <=? x | None => false end then
      for_ 0 (length G) (fun j modulus =>
        Js.set modulus (i + j)
          (Js.Num (Z.lxor (Js.to_int32 (Js.get modulus (i + j)))
                     (Js.int32_of
                        (GF256.map_at
                           ((default 0 quotient + default 0 (G !! j))
                            `rem` 255))))))
        a
    else a in
  good n a' /\ view N a' = vstep (alpha <$> G) i (view N a).
Proof.
  intros HG Ha Hi HN. cbv zeta.
  destruct (proj2 Ha i Hi) as [c Hc]. pose proof (proj1 Ha i c Hc) as Hb.
  assert (view N a !! i = Some c) as Hvi.
  { rewrite view_lookup by lia. unfold val. rewrite Hc. simpl.
    by rewrite wrap32_byte. }
  unfold vstep. rewrite Hvi, Hc. change (default 0 (Some c)) with c.
  destruct (decide (c = 0)) as [->|Hc0].
  - rewrite invmap_0. simpl (0 <=? -1). cbv iota.
    split; [done |]. by rewrite scale_0, xor_prefix_zeros, take_drop.
  - destruct (gf_mul_tables c 0 Hb Hc0 ltac:(lia)) as (q & Hq & Hq0 & _).
    rewrite Hq, (proj2 (Z.leb_le 0 q) Hq0).
    apply (calculateEcc_inner G n N i q c a); try done. lia.
Qed.

Lemma foldl_vstep (g : list Z) (n : nat) (P V : list Z) :
  (n <= length V)%nat ->
  foldl (fun V i => vstep g i V) (P ++ V) (seq (length P) n) = P ++ divide g n V.
Proof.
  revert P V. induction n as [|n IH]; intros P V Hn.
  - simpl. by destruct V.
  - destruct V as [|c V]; [simpl in Hn; lia |]. cbn [seq foldl divide].
    unfold vstep at 2. rewrite list_lookup_middle by done.
    change (default 0 (Some c)) with c.
    rewrite (cons_middle c P V), app_assoc.
    assert (length (P ++ [c]) = S (length P)) as Hl
      by (rewrite length_app; simpl; lia).
    rewrite take_app_length', drop_app_length' by done.
    rewrite <- Hl, IH by (rewrite xor_prefix_length; simpl in Hn; lia).
    by rewrite <- app_assoc.
Qed.

Lemma divide_length (g : list Z) (n : nat) (V : list Z) :
  length (divide g n V) = length V.
Proof.
  revert V. induction n as [|n IH]; intros [|c V]; simpl; try done.
  by rewrite IH, xor_prefix_length.
Qed.

Lemma view_drop (n k : nat) (a : list Js.val) :
  view k (drop n a) = drop n (view (n + k) a).
Proof.
  apply view_eq; [rewrite length_drop, view_length; lia |].
  intros p Hp. rewrite lookup_drop, view_lookup by lia.
  unfold val, Js.get. by rewrite lookup_drop.
Qed.

Lemma view_modulus (D : list Z) (k : nat) :
  Forall is_byte D ->
  good (length D) ((Js.Num <$> D) ++ [Js.Zeros k])
  /\ view (length D + k) ((Js.Num <$> D) ++ [Js.Zeros k]) = D ++ replicate k 0.
Proof.
  intros HD. split; [split |].
  - intros p z. unfold Js.get.
    destruct (decide (p < length D)%nat) as [Hp|Hp].
    + rewrite lookup_app_l by (by rewrite length_fmap).
      rewrite list_lookup_fmap.
      destruct (D !! p) as [d|] eqn:Hd; simpl; [| done].
      intros [= <-]. eapply (proj1 (Forall_lookup _ _) HD); eassumption.
    + rewrite lookup_app_r by (rewrite length_fmap; lia).
      rewrite length_fmap. by destruct (p - length D)%nat as [|[|?]].
  - intros p Hp. unfold Js.get.
    rewrite lookup_app_l by (by rewrite length_fmap).
    rewrite list_lookup_fmap.
    destruct (lookup_lt_is_Some_2 D p Hp) as [d ->]. by eexists.
  - apply view_eq; [rewrite length_app, length_replicate; lia |].
    intros p Hp. unfold val, Js.get.
    destruct (decide (p < length D)%nat) as [Hl|Hl].
    + rewrite !lookup_app_l by (by rewrite ?length_fmap).
      rewrite list_lookup_fmap.
      destruct (lookup_lt_is_Some_2 D p Hl) as [d Hd]. rewrite Hd. simpl.
      rewrite wrap32_byte; [done |].
      eapply (proj1 (Forall_lookup _ _) HD); eassumption.
    + rewrite !lookup_app_r by (rewrite ?length_fmap; lia).
      rewrite length_fmap, lookup_replicate_2 by lia.
      by destruct (p - length D)%nat as [|[|?]].
Qed.

(** [calculateEcc] is the long division of [poly], shifted by the degree
    of the generator, read through the conversion of [^]. *)
Lemma calculateEcc_divide (D G : list Z) :
  Forall is_byte D -> exps G ->
  exists a,
    calculateEcc D G = drop (length D) a
    /\ good (length D) a
    /\ view (length D + length G) a
       = divide (alpha <$> G) (length D) (D ++ replicate (length G) 0).
Proof.
  intros HD HG. unfold calculateEcc. eexists. split; [reflexivity |].
  destruct (view_modulus D (length G) HD) as [Hg Hv].
  pose proof (foldl_vstep (alpha <$> G) (length D) []
                (D ++ replicate (length G) 0)
                ltac:(rewrite length_app; lia)) as Hf.
  cbn [app length] in Hf. rewrite <- Hf, <- Hv.
  apply (for_invariant
           (fun i a => good (length D) a
                       /\ view (length D + length G) a
                          = foldl (fun V i => vstep (alpha <$> G) i V)
                              (view (length D + length G)
                                 ((Js.Num <$> D) ++ [Js.Zeros (length G)]))
                              (seq 0 i)));
    [lia | done |].
  intros i x Hi [Hx Hxv]. rewrite seq_S, foldl_app. cbn [foldl Nat.add].
  rewrite <- Hxv. apply calculateEcc_round; try done; lia.
Qed.

(** X4: on a message of bytes and generator exponents in 0..254, the
    remainder cells of [calculateEcc(poly, genpoly)], read as the
    operators read them, are bytes and complete [poly] to a multiple of
    the generator polynomial over GF(2^8): the Reed-Solomon property. *)
Theorem calculateEcc_divisible (D G : list Z) :
  Forall is_byte D -> Forall (fun e => 0 <= e <= 254) G ->
  Forall is_byte (ecc_bytes (length G) (calculateEcc D G))
  /\ exists Q,
       length Q = length D
       /\ poly_mul Q (1 :: (alpha <$> G))
          = D ++ ecc_bytes (length G) (calculateEcc D G).
Proof.
  intros HD HG. destruct (calculateEcc_divide D G HD HG) as (a & -> & Hg & Hv).
  unfold ecc_bytes. rewrite view_drop. split.
  - apply Forall_forall. intros x Hx. apply list_elem_of_lookup in Hx as [p Hp].
    pose proof (lookup_lt_Some _ _ _ Hp) as Hl.
    rewrite length_drop, view_length in Hl.
    rewrite lookup_drop, view_lookup in Hp by lia. injection Hp as <-.
    by eapply val_byte.
  - rewrite Hv.
    set (R := divide (alpha <$> G) (length D) (D ++ replicate (length G) 0)).
    assert (length R = (length D + length G)%nat) as HR
      by (unfold R; rewrite divide_length, length_app, length_replicate; lia).
    exists (take (length D) R). split; [rewrite length_take; lia |].
    unfold R at 1. rewrite divide_poly_mul
      by (rewrite length_app, length_replicate, length_fmap; lia).
    fold R. rewrite xor_prefix_app by (by rewrite length_replicate).
    rewrite xor_prefix_zeros. f_equal.
    replace (length G) with (length (drop (length D) R))
      by (rewrite length_drop; lia).
    apply zeros_xor_prefix.
Qed.

Lemma calculateEcc_divisible_witness :
  Forall is_byte (ecc_bytes 2 (calculateEcc [32; 91] [25; 1]))
  /\ exists Q,
       length Q = 2%nat
       /\ poly_mul Q (1 :: (alpha <$> [25; 1]))
          = [32; 91] ++ ecc_bytes 2 (calculateEcc [32; 91] [25; 1]).
Proof.
  apply (calculateEcc_divisible [32; 91] [25; 1]);
    repeat constructor; unfold is_byte; lia.
Defined.
End reed_solomon.

(** ** Generator polynomials *)

Section generator_polynomials.

(** The product of [x - alpha^0], ..., [x - alpha^(K-1)]; in
    characteristic 2 subtraction is addition. *)
Fixpoint generator (K : nat) : list Z :=
  match K with
  | O => [1]
  | S K' => poly_mul (generator K') [1; alpha (Z.of_nat K')]
  end.

Definition genpoly_check (K : nat) : bool :=
  match GF256.GENPOLY !! K with
  | Some G =>
      bool_decide (1 :: (alpha <$> G) = generator K)
      && bool_decide (length G = K)
      && forallb (fun e => (0 <=? e) && (e <=? 254)) G
  | None => false
  end.

Lemma genpoly_check_all : forallb genpoly_check (seq 0 31) = true.
Proof. vm_compute. reflexivity. Qed.

(** X5: for K up to 30, [GENPOLY[K]] holds K exponents in 0..254, those of
    the lower coefficients of the product of [x - alpha^i] for i < K. *)
Theorem GENPOLY_generator (K : nat) :
  (K <= 30)%nat ->
  exists G, GF256.GENPOLY !! K = Some G
            /\ length G = K
            /\ Forall (fun e => 0 <= e <= 254) G
            /\ 1 :: (alpha <$> G) = generator K.
Proof.
  intros HK. pose proof genpoly_check_all as H. rewrite forallb_forall in H.
  specialize (H K). unfold genpoly_check in H.
  destruct (GF256.GENPOLY !! K) as [G|]; [| by discriminate H; apply in_seq; lia].
  exists G. split; [done |].
  specialize (H ltac:(apply in_seq; lia)).
  apply andb_prop in H as [H H3]. apply andb_prop in H as [H1 H2].
  apply bool_decide_eq_true in H1. apply bool_decide_eq_true in H2.
  split; [done |]. split; [| done].
  apply Forall_forall. intros e He. rewrite forallb_forall in H3.
  specialize (H3 e (proj1 (list_elem_of_In _ _) He)). lia.
Qed.

Lemma GENPOLY_generator_witness :
  exists G, GF256.GENPOLY !! 7%nat = Some G
            /\ length G = 7%nat
            /\ Forall (fun e => 0 <= e <= 254) G
            /\ 1 :: (alpha <$> G) = generator 7.
Proof. apply (GENPOLY_generator 7). lia. Defined.
End generator_polynomials.

(** ** The tables of GF(2^8) *)

Section gf_tables.

Definition gf_inverse_check (x : Z) : bool :=
  match GF256.invmap_at (x + 1), GF256.map_at x with
  | Some e, Some c =>
      (0 <=? e) && (e <=? 254) && bool_decide (GF256.map_at e = Some (x + 1))
      && (1 <=? c) && (c <=? 255) && bool_decide (GF256.invmap_at c = Some x)
  | _, _ => false
  end.

Lemma gf_inverse_check_all :
  forallb gf_inverse_check (Z.of_nat <$> seq 0 255) = true.
Proof. vm_compute. reflexivity. Qed.

Lemma gf_inverse_checked (x : Z) : 0 <= x <= 254 -> gf_inverse_check x = true.
Proof.
  intros H. pose proof gf_inverse_check_all as Hall.
  rewrite forallb_forall in Hall. apply Hall, list_elem_of_In, list_elem_of_fmap.
  exists (Z.to_nat x). split; [lia |]. apply list_elem_of_In, in_seq. lia.
Qed.

(** X6: [MAP] and [INVMAP] are inverse to each other: [MAP[INVMAP[c]]] is
    [c] for every [c] in 1..255, and [INVMAP[MAP[e]]] is [e] for every
    [e] in 0..254. *)
Theorem GF256_tables_inverse (c e : Z) :
  (1 <= c <= 255 ->
   exists x, GF256.invmap_at c = Some x /\ 0 <= x <= 254 /\ GF256.map_at x = Some c)
  /\ (0 <= e <= 254 ->
      exists y, GF256.map_at e = Some y /\ 1 <= y <= 255
                /\ GF256.invmap_at y = Some e).
Proof.
  split.
  - intros Hc. pose proof (gf_inverse_checked (c - 1) ltac:(lia)) as H.
    unfold gf_inverse_check in H. replace (c - 1 + 1) with c in H by lia.
    destruct (GF256.invmap_at c) as [x|]; [| done].
    destruct (GF256.map_at (c - 1)); [| done].
    repeat (apply andb_prop in H as [H ?]).
    repeat match goal with
           | Hb : bool_decide _ = true |- _ => apply bool_decide_eq_true in Hb
           end.
    exists x. split; [done |]. split; [lia | done].
  - intros He. pose proof (gf_inverse_checked e He) as H.
    unfold gf_inverse_check in H.
    destruct (GF256.invmap_at (e + 1)); [| done].
    destruct (GF256.map_at e) as [y|]; [| done].
    repeat (apply andb_prop in H as [H ?]).
    repeat match goal with
           | Hb : bool_decide _ = true |- _ => apply bool_decide_eq_true in Hb
           end.
    exists y. split; [done |]. split; [lia | done].
Qed.

Lemma GF256_tables_inverse_witness :
  (1 <= 29 <= 255 ->
   exists x, GF256.invmap_at 29 = Some x /\ 0 <= x <= 254
             /\ GF256.map_at x = Some 29)
  /\ (0 <= 8 <= 254 ->
      exists y, GF256.map_at 8 = Some y /\ 1 <= y <= 255
                /\ GF256.invmap_at y = Some 8).
Proof. apply (GF256_tables_inverse 29 8). Defined.
End gf_tables.

(** ** The BCH code of the format and version information *)

Section bch.
Import QrCode.

(** The product over GF(2) of the polynomial of the [n] low bits of [a]
    and the polynomial [b], as binary numbers. *)
Fixpoint clmul (n : nat) (a b : Z) : Z :=
  match n with
  | O => 0
  | S n' => Z.lxor (clmul n' a b)
              (if Z.testbit a (Z.of_nat n') then Z.shiftl b (Z.of_nat n') else 0)
  end.

Lemma testbit_above (a n j : Z) :
  0 <= a < 2 ^ n -> n <= j -> Z.testbit a j = false.
Proof.
  intros Ha Hj. destruct (Z_lt_le_dec n 0) as [Hn|Hn].
  - rewrite Z.pow_neg_r in Ha by lia. lia.
  - apply Z.testbit_false; [lia |].
    rewrite Z.div_small; [done |]. split; [lia |].
    apply Z.lt_le_trans with (2 ^ n); [lia |].
    apply Z.pow_le_mono_r; lia.
Qed.

Lemma below_of_testbit (a n : Z) :
  0 <= a -> 0 <= n -> (forall j, n <= j -> Z.testbit a j = false) -> a < 2 ^ n.
Proof.
  intros Ha Hn H. destruct (Z_lt_le_dec a (2 ^ n)) as [|Hge]; [done |].
  assert (0 < a) as Hpos by (pose proof (Z.pow_pos_nonneg 2 n); lia).
  pose proof (Z.bit_log2 a Hpos) as Hb.
  rewrite H in Hb; [done |].
  apply Z.log2_le_pow2; lia.
Qed.

Lemma testbit_top (a n : Z) :
  0 <= n -> 2 ^ n <= a < 2 ^ (n + 1) -> Z.testbit a n = true.
Proof.
  intros Hn Ha. apply Z.testbit_true; [done |].
  rewrite Z.pow_add_r in Ha by lia. change (2 ^ 1) with 2 in Ha.
  assert (a / 2 ^ n = 1) as ->; [| done].
  symmetry. apply (Z.div_unique a (2 ^ n) 1 (a - 2 ^ n)); lia.
Qed.

Lemma land_shiftr_1 (a k : Z) :
  0 <= k -> (Z.land (Z.shiftr a k) 1 =? 1) = Z.testbit a k.
Proof.
  intros Hk. change 1 with (Z.ones 1) at 1. rewrite Z.land_ones by lia.
  rewrite Z.shiftr_div_pow2 by done. change (2 ^ 1) with 2.
  destruct (Z.testbit a k) eqn:E.
  - apply Z.testbit_true in E; [| done]. by rewrite E.
  - apply Z.testbit_false in E; [| done]. by rewrite E.
Qed.

Lemma clmul_ext (n : nat) (a a' b : Z) :
  (forall j, 0 <= j < Z.of_nat n -> Z.testbit a j = Z.testbit a' j) ->
  clmul n a b = clmul n a' b.
Proof.
  induction n as [|n IH]; intros H; [done |]. cbn [clmul].
  rewrite IH by (intros; apply H; lia). by rewrite H by lia.
Qed.

(** The loop leaves the remainder of the division by [genpoly]. *)
Lemma bch_loop_spec (g q : Z) (i : nat) (M : Z) :
  0 <= q -> 2 ^ q <= g < 2 ^ (q + 1) ->
  0 <= M < 2 ^ (q + Z.of_nat i) ->
  exists a, 0 <= a < 2 ^ Z.of_nat i
            /\ bch_loop i g q M = Z.lxor M (clmul i a g)
            /\ 0 <= bch_loop i g q M < 2 ^ q.
Proof.
  intros Hq Hg. revert M. induction i as [|i IH]; intros M HM.
  - exists 0. cbn [bch_loop clmul]. rewrite Z.lxor_0_r.
    rewrite Z.add_0_r in HM. simpl. lia.
  - cbn [bch_loop]. rewrite land_shiftr_1 by lia.
    replace (q + Z.of_nat (S i)) with (q + Z.of_nat i + 1) in HM by lia.
    destruct (Z.testbit M (q + Z.of_nat i)) eqn:Hbit.
    + set (M' := Z.lxor M (Z.shiftl g (Z.of_nat i))).
      assert (0 <= Z.shiftl g (Z.of_nat i)) as Hs0 by (apply Z.shiftl_nonneg; lia).
      assert (0 <= M') as HM0 by (apply Z.lxor_nonneg; lia).
      assert (M' < 2 ^ (q + Z.of_nat i)) as HM1.
      { apply below_of_testbit; [done | lia |]. intros j Hj. unfold M'.
        rewrite Z.lxor_spec, Z.shiftl_spec by lia.
        destruct (decide (j = q + Z.of_nat i)) as [->|Hne].
        - rewrite Hbit. replace (q + Z.of_nat i - Z.of_nat i) with q by lia.
          by rewrite (testbit_top g q).
        - rewrite (testbit_above M (q + Z.of_nat i + 1) j) by lia.
          rewrite (testbit_above g (q + 1) (j - Z.of_nat i)) by lia. done. }
      destruct (IH M' ltac:(lia)) as (a & Ha & Heq & Hr).
      exists (Z.setbit a (Z.of_nat i)).
      assert (0 <= Z.setbit a (Z.of_nat i)) as Hs.
      { rewrite Z.setbit_spec'. apply Z.lor_nonneg. split; [lia |].
        apply Z.pow_nonneg. lia. }
      split; [| split; [| done]].
      * split; [done |]. apply below_of_testbit; [done | lia |].
        intros j Hj. rewrite Z.setbit_neq by lia.
        apply (testbit_above a (Z.of_nat i)); lia.
      * rewrite Heq. cbn [clmul]. rewrite Z.setbit_eq by lia.
        rewrite (clmul_ext i (Z.setbit a (Z.of_nat i)) a)
          by (intros; apply Z.setbit_neq; lia).
        unfold M'. rewrite !Z.lxor_assoc. f_equal. apply Z.lxor_comm.
    + assert (M < 2 ^ (q + Z.of_nat i)) as HM1.
      { apply below_of_testbit; [lia | lia |]. intros j Hj.
        destruct (decide (j = q + Z.of_nat i)) as [->|Hne]; [done |].
        apply (testbit_above M (q + Z.of_nat i + 1)); lia. }
      destruct (IH M ltac:(lia)) as (a & Ha & Heq & Hr).
      exists a. split; [| split; [| done]].
      * split; [lia |]. apply Z.lt_le_trans with (2 ^ Z.of_nat i); [lia |].
        apply Z.pow_le_mono_r; lia.
      * rewrite Heq. cbn [clmul].
        rewrite (testbit_above a (Z.of_nat i)) by lia. by rewrite Z.lxor_0_r.
Qed.

Lemma augumentbch_spec (poly : Z) (p : nat) (genpoly q : Z) :
  0 <= q ->
  0 <= poly < 2 ^ Z.of_nat p ->
  2 ^ q <= genpoly < 2 ^ (q + 1) ->
  0 <= augumentbch poly p genpoly q < 2 ^ (Z.of_nat p + q)
  /\ Z.shiftr (augumentbch poly p genpoly q) q = poly
  /\ exists a, 0 <= a < 2 ^ Z.of_nat p
               /\ augumentbch poly p genpoly q = clmul p a genpoly.
Proof.
  intros Hq Hp Hg. unfold augumentbch.
  set (P := Z.shiftl poly q).
  assert (0 <= P) as HP0 by (apply Z.shiftl_nonneg; lia).
  assert (P < 2 ^ (q + Z.of_nat p)) as HP1.
  { unfold P. rewrite Z.shiftl_mul_pow2, Z.pow_add_r by lia.
    pose proof (Z.pow_pos_nonneg 2 q). nia. }
  destruct (bch_loop_spec genpoly q p P Hq Hg ltac:(lia)) as (a & Ha & Heq & Hr).
  set (R := bch_loop p genpoly q P) in *.
  assert (Z.land P R = 0) as Hdisj.
  { apply Z.bits_inj'. intros j Hj. rewrite Z.land_spec, Z.bits_0.
    destruct (Z_lt_le_dec j q).
    - unfold P. by rewrite Z.shiftl_spec_low.
    - rewrite (testbit_above R q j) by lia. apply andb_false_r. }
  split; [| split].
  - split; [apply Z.lor_nonneg; lia |].
    apply below_of_testbit; [apply Z.lor_nonneg; lia | lia |].
    intros j Hj. rewrite Z.lor_spec.
    rewrite (testbit_above P (q + Z.of_nat p) j) by lia.
    rewrite (testbit_above R q j) by lia. done.
  - rewrite Z.shiftr_lor. unfold P.
    rewrite Z.shiftr_shiftl_l, Z.sub_diag, Z.shiftl_0_r by lia.
    rewrite (Z.shiftr_div_pow2 R), Z.div_small by lia. apply Z.lor_0_r.
  - exists a. split; [done |].
    rewrite <- Z.lxor_lor by done. rewrite Heq.
    by rewrite <- Z.lxor_assoc, Z.lxor_nilpotent, Z.lxor_0_l.
Qed.

(** X7: for [p + q <= 30] (so that the 32-bit operators do not wrap), a
    [poly] of [p] bits and a [genpoly] of degree [q], the word that
    [augumentbch] returns has [p + q] bits, holds [poly] above its [q] low
    bits, and is a multiple of [genpoly] over GF(2). *)
Theorem augumentbch_codeword (poly : Z) (p : nat) (genpoly q : Z) :
  0 <= q -> Z.of_nat p + q <= 30 ->
  0 <= poly < 2 ^ Z.of_nat p ->
  2 ^ q <= genpoly < 2 ^ (q + 1) ->
  0 <= augumentbch poly p genpoly q < 2 ^ (Z.of_nat p + q)
  /\ Z.shiftr (augumentbch poly p genpoly q) q = poly
  /\ exists a, 0 <= a < 2 ^ Z.of_nat p
               /\ augumentbch poly p genpoly q = clmul p a genpoly.
Proof. intros Hq _. by apply augumentbch_spec. Qed.

Lemma augumentbch_codeword_witness :
  0 <= augumentbch 7 6%nat 0x1f25 12 < 2 ^ (Z.of_nat 6 + 12)
  /\ Z.shiftr (augumentbch 7 6%nat 0x1f25 12) 12 = 7
  /\ exists a, 0 <= a < 2 ^ Z.of_nat 6
               /\ augumentbch 7 6%nat 0x1f25 12 = clmul 6 a 0x1f25.
Proof. apply (augumentbch_codeword 7 6 0x1f25 12); simpl; lia. Defined.
End bch.

(** ** The base matrix *)

Section base_matrix.
Import QrCode.

(** [m[r][c]] on a row that exists. *)
Definition cell (m : matrix) (r c : nat) : option Z :=
  Js.cget (default [] (m !! r)) c.

(** The number of cells that a row of [reserved] marks, and the number of
    cells of [n] rows of width [n] that [reserved] does not mark. *)
Definition marked (rrow : Js.cells) : nat := length (List.filter Js.truthy rrow).

Definition free_cells (n : nat) (reserved : matrix) : nat :=
  sum_list ((fun rrow => (n - marked (take n rrow))%nat) <$> take n reserved).

(** A finder pattern: a dark ring, a light ring and a dark 3 by 3 centre. *)
Definition finder (i j : nat) : Z :=
  if bool_decide (i = 0 \/ i = 6 \/ j = 0 \/ j = 6)%nat then 1
  else if bool_decide (2 <= i <= 4 /\ 2 <= j <= 4)%nat then 1
  else 0.

Definition all_below (n : nat) (f : nat -> bool) : bool := forallb f (seq 0 n).

Lemma all_below_spec (n : nat) (f : nat -> bool) (i : nat) :
  all_below n f = true -> (i < n)%nat -> f i = true.
Proof.
  unfold all_below. rewrite forallb_forall. intros H Hi.
  apply H, in_seq. lia.
Qed.

Definition patterns_check (n : nat) (m : matrix) : bool :=
  all_below 7 (fun i => all_below 7 (fun j =>
    bool_decide (cell m i j = Some (finder i j))
    && bool_decide (cell m i (n - 7 + j) = Some (finder i j))
    && bool_decide (cell m (n - 7 + i) j = Some (finder i j))))
  && all_below 8 (fun i =>
       bool_decide (cell m 7 i = Some 0) && bool_decide (cell m i 7 = Some 0)
       && bool_decide (cell m 7 (n - 8 + i) = Some 0)
       && bool_decide (cell m i (n - 8) = Some 0)
       && bool_decide (cell m (n - 8) i = Some 0)
       && bool_decide (cell m (n - 8 + i) 7 = Some 0))
  && all_below (n - 16) (fun k =>
       let v := Some (if Nat.even k then 1 else 0) in
       bool_decide (cell m 6 (8 + k) = v) && bool_decide (cell m (8 + k) 6 = v))
  && bool_decide (cell m (n - 8) 8 = Some 1).

(** A row of [reserved] against the row of [matrix]: a cell is marked
    with 1 and holds a bit, or is [undefined] in both. *)
Definition is_hole (c : option Z) : bool :=
  match c with
  | None => true
  | Some _ => false
  end.

Fixpoint exact_row (rrow row : Js.cells) : bool :=
  match rrow with
  | [] => forallb is_hole row
  | f :: rrow' =>
      match row with
      | [] => is_hole f && forallb is_hole rrow'
      | c :: row' =>
          match f, c with
          | Some 1, Some v => (v =? 0) || (v =? 1)
          | None, None => true
          | _, _ => false
          end
          && exact_row rrow' row'
      end
  end.

Fixpoint exact_rows (reserved m : matrix) : bool :=
  match reserved, m with
  | [], [] => true
  | rrow :: reserved', row :: m' => exact_row rrow row && exact_rows reserved' m'
  | _, _ => false
  end.

(** The cells that [putFormatInfo] writes. *)
Definition format_rows (n : Z) : list Z :=
  [0; 1; 2; 3; 4; 5; 7; 8; n - 7; n - 6; n - 5; n - 4; n - 3; n - 2; n - 1].

Definition format_columns (n : Z) : list Z :=
  [n - 1; n - 2; n - 3; n - 4; n - 5; n - 6; n - 7; n - 8; 7; 5; 4; 3; 2; 1; 0].

Definition format_check (n : nat) (reserved : matrix) : bool :=
  forallb (fun r => Js.truthy (cell reserved (Z.to_nat r) 8))
    (format_rows (Z.of_nat n))
  && forallb (fun c => Js.truthy (cell reserved 8 (Z.to_nat c)))
       (format_columns (Z.of_nat n)).

(** The first cell of the row-major walk that [reserved] does not mark is
    at row 0, column 9. *)
Definition first_free_check (reserved : matrix) : bool :=
  all_below 9 (fun c => Js.truthy (cell reserved 0 c))
  && negb (Js.truthy (cell reserved 0 9)).

Definition base_check (v : Z) : bool :=
  let n := Z.to_nat (4 * v + 17) in
  match makeBaseMatrix (version_state v), nFullBits (version_state v) with
  | Ok (m, reserved), Ok nbits =>
      bool_decide (length m = n) && bool_decide (length reserved = n)
      && bool_decide (Z.of_nat (free_cells n reserved) = nbits)
      && patterns_check n m
      && exact_rows reserved m
      && format_check n reserved
      && first_free_check reserved
  | _, _ => false
  end.

Lemma base_check_all : forallb base_check (Z.of_nat <$> seq 1 40) = true.
Proof. vm_compute. reflexivity. Qed.

Lemma base_checked (v : Z) : 1 <= v <= 40 -> base_check v = true.
Proof.
  intros H. pose proof base_check_all as Hall.
  rewrite forallb_forall in Hall. apply Hall, list_elem_of_In, list_elem_of_fmap.
  exists (Z.to_nat v). split; [lia |]. apply list_elem_of_In, in_seq. lia.
Qed.

Lemma nFullBits_ver (q : t) : nFullBits q = nFullBits (version_state (ver q)).
Proof. reflexivity. Qed.

Lemma mget_cell (m : matrix) (r c : nat) :
  (r < length m)%nat -> mget m r c = Ok (cell m r c).
Proof.
  intros H. unfold mget, cell.
  destruct (lookup_lt_is_Some_2 m r H) as [row ->]. done.
Qed.

Lemma forallb_is_hole (row : Js.cells) (c : nat) :
  forallb is_hole row = true -> Js.cget row c = None.
Proof.
  intros H. unfold Js.cget. destruct (row !! c) as [x|] eqn:E; [| done].
  rewrite forallb_forall in H.
  specialize (H x (proj1 (list_elem_of_In _ _) (list_elem_of_lookup_2 _ _ _ E))).
  by destruct x.
Qed.

Lemma exact_row_spec (rrow row : Js.cells) (c : nat) :
  exact_row rrow row = true ->
  (Js.cget rrow c = Some 1 /\ (Js.cget row c = Some 0 \/ Js.cget row c = Some 1))
  \/ (Js.cget rrow c = None /\ Js.cget row c = None).
Proof.
  revert row c. induction rrow as [|f rrow IH]; intros row c H.
  - right. split; [by destruct c |]. by apply forallb_is_hole.
  - destruct row as [|x row].
    + right. cbn [exact_row] in H. apply andb_prop in H as [Hf Hr].
      split; [| by destruct c]. destruct c as [|c]; [by destruct f |].
      by apply (forallb_is_hole rrow c).
    + cbn [exact_row] in H. apply andb_prop in H as [Hc Hr].
      destruct c as [|c]; [| apply (IH row c Hr)].
      unfold Js.cget. simpl.
      destruct f as [[|[| |]|]|]; try done; destruct x as [v|]; try done.
      * left. split; [done |]. apply orb_prop in Hc as [Hc|Hc];
          apply Z.eqb_eq in Hc; subst; auto.
      * by right.
Qed.

Lemma exact_rows_spec (reserved m : matrix) (r : nat) (rrow row : Js.cells) :
  exact_rows reserved m = true ->
  reserved !! r = Some rrow -> m !! r = Some row -> exact_row rrow row = true.
Proof.
  revert m r. induction reserved as [|x reserved IH]; intros [|y m] r H; try done.
  cbn [exact_rows] in H. apply andb_prop in H as [H1 H2].
  destruct r as [|r]; simpl.
  - by intros [= <-] [= <-].
  - by apply IH.
Qed.

(** What the evaluation of [base_check] gives for a state. *)
Lemma base_checked_state (q : t) :
  1 <= ver q <= 40 ->
  let n := Z.to_nat (getSizeByVer q) in
  exists m reserved nbits,
    makeBaseMatrix q = Ok (m, reserved) /\ nFullBits q = Ok nbits
    /\ length m = n /\ length reserved = n
    /\ Z.of_nat (free_cells n reserved) = nbits
    /\ patterns_check n m = true
    /\ exact_rows reserved m = true
    /\ format_check n reserved = true
    /\ first_free_check reserved = true.
Proof.
  intros Hv n. pose proof (base_checked (ver q) Hv) as H.
  unfold base_check in H. rewrite makeBaseMatrix_ver, nFullBits_ver.
  destruct (makeBaseMatrix (version_state (ver q))) as [[m reserved]|]; [| done].
  destruct (nFullBits (version_state (ver q))) as [nbits|]; [| done].
  apply andb_prop in H as [H H7].
  apply andb_prop in H as [H H6]. apply andb_prop in H as [H H5].
  apply andb_prop in H as [H H4]. apply andb_prop in H as [H H3].
  apply andb_prop in H as [H1 H2].
  apply bool_decide_eq_true in H1. apply bool_decide_eq_true in H2.
  apply bool_decide_eq_true in H3.
  by exists m, reserved, nbits.
Qed.

(** X8: for every version from 1 to 40, [nFullBits()] is the number of
    cells of the square that [makeBaseMatrix()] leaves unmarked in
    [reserved]. *)
Theorem nFullBits_counts_free_cells (q : t) :
  1 <= ver q <= 40 ->
  exists m reserved,
    makeBaseMatrix q = Ok (m, reserved)
    /\ length reserved = Z.to_nat (getSizeByVer q)
    /\ nFullBits q
       = Ok (Z.of_nat (free_cells (Z.to_nat (getSizeByVer q)) reserved)).
Proof.
  intros Hv.
  destruct (base_checked_state q Hv) as (m & r & nbits & Hb & Hn & _ & Hl & Hf & _).
  exists m, r. split; [done |]. split; [done |]. by rewrite Hf.
Qed.

Lemma nFullBits_counts_free_cells_witness :
  exists m reserved,
    makeBaseMatrix (version_state 7) = Ok (m, reserved)
    /\ length reserved = Z.to_nat (getSizeByVer (version_state 7))
    /\ nFullBits (version_state 7)
       = Ok (Z.of_nat (free_cells (Z.to_nat (getSizeByVer (version_state 7)))
                         reserved)).
Proof. apply (nFullBits_counts_free_cells (version_state 7)). simpl. lia. Defined.

(** X9: for every version from 1 to 40 the matrix of [makeBaseMatrix()]
    holds the three finder patterns in its corners, light separators
    around them, the alternating timing patterns in row 6 and column 6,
    and the dark cell at row [n - 8], column 8. *)
Theorem makeBaseMatrix_function_patterns (q : t) :
  1 <= ver q <= 40 ->
  let n := Z.to_nat (getSizeByVer q) in
  exists m reserved,
    makeBaseMatrix q = Ok (m, reserved)
    /\ (forall i j, (i < 7)%nat -> (j < 7)%nat ->
          mget m i j = Ok (Some (finder i j))
          /\ mget m i (n - 7 + j) = Ok (Some (finder i j))
          /\ mget m (n - 7 + i) j = Ok (Some (finder i j)))
    /\ (forall i, (i < 8)%nat ->
          mget m 7 i = Ok (Some 0) /\ mget m i 7 = Ok (Some 0)
          /\ mget m 7 (n - 8 + i) = Ok (Some 0) /\ mget m i (n - 8) = Ok (Some 0)
          /\ mget m (n - 8) i = Ok (Some 0) /\ mget m (n - 8 + i) 7 = Ok (Some 0))
    /\ (forall k, (8 <= k < n - 8)%nat ->
          mget m 6 k = Ok (Some (if Nat.even k then 1 else 0))
          /\ mget m k 6 = Ok (Some (if Nat.even k then 1 else 0)))
    /\ mget m (n - 8) 8 = Ok (Some 1).
Proof.
  intros Hv n.
  destruct (base_checked_state q Hv) as (m & r & nbits & Hb & _ & Hm & _ & _ & Hp & _).
  fold n in Hm, Hp. exists m, r. split; [done |].
  assert (21 <= n)%nat as Hn by (unfold n, getSizeByVer; lia).
  unfold patterns_check in Hp.
  apply andb_prop in Hp as [Hp Hdark]. apply andb_prop in Hp as [Hp Htiming].
  apply andb_prop in Hp as [Hfinder Hsep].
  apply bool_decide_eq_true in Hdark.
  split; [| split; [| split]].
  - intros i j Hi Hj.
    pose proof (all_below_spec _ _ j (all_below_spec _ _ i Hfinder Hi) Hj) as Hc.
    cbv beta in Hc.
    apply andb_prop in Hc as [Hc H3]. apply andb_prop in Hc as [H1 H2].
    apply bool_decide_eq_true in H1. apply bool_decide_eq_true in H2.
    apply bool_decide_eq_true in H3.
    rewrite !mget_cell by lia. by repeat split; f_equal.
  - intros i Hi. pose proof (all_below_spec _ _ i Hsep Hi) as Hc. cbv beta in Hc.
    apply andb_prop in Hc as [Hc H6]. apply andb_prop in Hc as [Hc H5].
    apply andb_prop in Hc as [Hc H4]. apply andb_prop in Hc as [Hc H3].
    apply andb_prop in Hc as [H1 H2].
    apply bool_decide_eq_true in H1. apply bool_decide_eq_true in H2.
    apply bool_decide_eq_true in H3. apply bool_decide_eq_true in H4.
    apply bool_decide_eq_true in H5. apply bool_decide_eq_true in H6.
    rewrite !mget_cell by lia. by repeat split; f_equal.
  - intros k Hk.
    pose proof (all_below_spec _ _ (k - 8) Htiming ltac:(lia)) as Hc.
    cbv beta zeta in Hc. replace (8 + (k - 8))%nat with k in Hc by lia.
    assert (Nat.even (k - 8) = Nat.even k) as He.
    { replace k with (8 + (k - 8))%nat at 2 by lia.
      rewrite Nat.even_add. change (Nat.even 8) with true.
      by destruct (Nat.even (k - 8)). }
    rewrite He in Hc.
    apply andb_prop in Hc as [Hc1 Hc2].
    apply bool_decide_eq_true in Hc1. apply bool_decide_eq_true in Hc2.
    rewrite !mget_cell by lia. by split; f_equal.
  - rewrite mget_cell by lia. by f_equal.
Qed.

(** X10: for every version from 1 to 40 and every cell of the square,
    [makeBaseMatrix()] either marks the cell in [reserved] with 1 and has
    written a bit to it in [matrix], or has left it [undefined] in both. *)
Theorem makeBaseMatrix_reserved_exact (q : t) (r c : nat) :
  1 <= ver q <= 40 ->
  (r < Z.to_nat (getSizeByVer q))%nat -> (c < Z.to_nat (getSizeByVer q))%nat ->
  exists m reserved,
    makeBaseMatrix q = Ok (m, reserved)
    /\ ((mget reserved r c = Ok (Some 1)
         /\ (mget m r c = Ok (Some 0) \/ mget m r c = Ok (Some 1)))
        \/ (mget reserved r c = Ok None /\ mget m r c = Ok None)).
Proof.
  intros Hv Hr Hc.
  destruct (base_checked_state q Hv)
    as (m & res & nbits & Hb & _ & Hm & Hl & _ & _ & Hx & _).
  exists m, res. split; [done |].
  destruct (lookup_lt_is_Some_2 res r ltac:(lia)) as [rrow Hrrow].
  destruct (lookup_lt_is_Some_2 m r ltac:(lia)) as [row Hrow].
  pose proof (exact_row_spec _ _ c (exact_rows_spec _ _ _ _ _ Hx Hrrow Hrow)) as H.
  unfold mget. rewrite Hrrow, Hrow.
  destruct H as [[H1 [H2|H2]]|[H1 H2]]; rewrite H1, H2; auto.
Qed.

Lemma makeBaseMatrix_reserved_exact_witness :
  exists m reserved,
    makeBaseMatrix (version_state 2) = Ok (m, reserved)
    /\ ((mget reserved 3 10 = Ok (Some 1)
         /\ (mget m 3 10 = Ok (Some 0) \/ mget m 3 10 = Ok (Some 1)))
        \/ (mget reserved 3 10 = Ok None /\ mget m 3 10 = Ok None)).
Proof.
  apply (makeBaseMatrix_reserved_exact (version_state 2) 3 10);
    [simpl; lia | vm_compute; lia | vm_compute; lia].
Defined.

Lemma makeBaseMatrix_function_patterns_witness :
  exists m reserved,
    makeBaseMatrix (version_state 1) = Ok (m, reserved)
    /\ (forall i j, (i < 7)%nat -> (j < 7)%nat ->
          mget m i j = Ok (Some (finder i j))
          /\ mget m i (21 - 7 + j) = Ok (Some (finder i j))
          /\ mget m (21 - 7 + i) j = Ok (Some (finder i j)))
    /\ (forall i, (i < 8)%nat ->
          mget m 7 i = Ok (Some 0) /\ mget m i 7 = Ok (Some 0)
          /\ mget m 7 (21 - 8 + i) = Ok (Some 0) /\ mget m i (21 - 8) = Ok (Some 0)
          /\ mget m (21 - 8) i = Ok (Some 0) /\ mget m (21 - 8 + i) 7 = Ok (Some 0))
    /\ (forall k, (8 <= k < 21 - 8)%nat ->
          mget m 6 k = Ok (Some (if Nat.even k then 1 else 0))
          /\ mget m k 6 = Ok (Some (if Nat.even k then 1 else 0)))
    /\ mget m (21 - 8) 8 = Ok (Some 1).
Proof.
  apply (makeBaseMatrix_function_patterns (version_state 1)). simpl. lia.
Defined.
End base_matrix.

(** ** Capacity and the choice of the version *)

Section capacity.
Import QrCode.

(** A state with the fields that the capacity depends on. *)
Definition config (m : Z) (e : option Z) (v : Z) : t :=
  {| mode := m; ecclevel := e; mask := -1; data := DNull; ver := v |}.

(** The state with [this.ver] set to [v]. *)
Definition at_version (q : t) (v : Z) : t :=
  {| mode := mode q; ecclevel := ecclevel q; mask := mask q; data := data q;
     ver := v |}.

(** A payload of [len] units is within [getMaxDataLen()] at version [v]. *)
Definition fits (q : t) (len v : Z) : Prop :=
  exists max, getMaxDataLen (at_version q v) = Ok (Some max) /\ len <= max.

Lemma getMaxDataLen_config (q : t) :
  getMaxDataLen q = getMaxDataLen (config (mode q) (ecclevel q) (ver q)).
Proof. reflexivity. Qed.

Lemma nDataBits_config (q : t) :
  nDataBits q = nDataBits (config NUMERIC (ecclevel q) (ver q)).
Proof. reflexivity. Qed.

Lemma VERSIONS_defined (v : Z) : 1 <= v <= 40 -> exists x, VERSIONS v = Some x.
Proof.
  intros Hv. unfold VERSIONS. rewrite (proj2 (Z.leb_le 1 v)) by lia.
  apply lookup_lt_is_Some_2. change (length VERSIONS_TABLE) with 40%nat. lia.
Qed.

Lemma getMaxDataLen_returns (q : t) :
  1 <= ver q <= 40 -> exists r, getMaxDataLen q = Ok r.
Proof.
  intros Hv. destruct (VERSIONS_defined _ Hv) as [[[degrees blocks] aligns] Hx].
  unfold getMaxDataLen, nDataBits, nFullBits. rewrite Hx. simpl. by eexists.
Qed.

(** What is checked by evaluation for a version: the data bits of every
    level, and the capacities of every mode and level, against those of
    the next version. *)
Definition levels : list (option Z) := [None; Some 0; Some 1; Some 2; Some 3].

Definition capacity_check (v : Z) : bool :=
  forallb (fun e =>
    match e, nDataBits (config NUMERIC e v) with
    | Some _, Ok (Some nbits) => 72 <=? nbits
    | None, Ok None => true
    | _, _ => false
    end
    && forallb (fun m =>
         match getMaxDataLen (config m e v),
               getMaxDataLen (config m e (v + 1)) with
         | Ok (Some a), Ok (Some b) =>
             (0 <=? a) && (a <=? 7089)
             && match e with Some _ => a <? b | None => true end
         | Ok (Some a), _ => (0 <=? a) && (a <=? 7089) && (v =? 40)
         | _, _ => false
         end) [NUMERIC; ALPHANUMERIC; OCTET]) levels.

Lemma capacity_check_all : forallb capacity_check (Z.of_nat <$> seq 1 40) = true.
Proof. vm_compute. reflexivity. Qed.

Lemma capacity_checked (v : Z) : 1 <= v <= 40 -> capacity_check v = true.
Proof.
  intros H. pose proof capacity_check_all as Hall.
  rewrite forallb_forall in Hall. apply Hall, list_elem_of_In, list_elem_of_fmap.
  exists (Z.to_nat v). split; [lia |]. apply list_elem_of_In, in_seq. lia.
Qed.

Lemma level_cases (e : Z) : 0 <= e <= 3 -> Some e ∈ levels.
Proof.
  intros H. assert (e = 0 \/ e = 1 \/ e = 2 \/ e = 3) as [->|[->|[->| ->]]] by lia;
    unfold levels; repeat constructor.
Qed.

Lemma mode_cases (m : Z) :
  m = NUMERIC \/ m = ALPHANUMERIC \/ m = OCTET ->
  m ∈ [NUMERIC; ALPHANUMERIC; OCTET].
Proof. intros [->|[->| ->]]; repeat constructor. Qed.

Lemma nDataBits_range (q : t) (e : Z) :
  1 <= ver q <= 40 -> ecclevel q = Some e -> 0 <= e <= 3 ->
  exists nbits, nDataBits q = Ok (Some nbits) /\ 72 <= nbits.
Proof.
  intros Hv He Hr. pose proof (capacity_checked _ Hv) as H.
  unfold capacity_check in H. rewrite forallb_forall in H.
  specialize (H (Some e) (proj1 (list_elem_of_In _ _) (level_cases e Hr))).
  apply andb_prop in H as [H _]. rewrite nDataBits_config, He.
  destruct (nDataBits (config NUMERIC (Some e) (ver q))) as [[nbits|]|]; try done.
  exists nbits. split; [done | lia].
Qed.

(** X11: for a version in 1..40, a known level and a supported mode,
    [getMaxDataLen()] is the largest length whose mode indicator, length
    field and payload fit in [nDataBits()]. *)
Theorem getMaxDataLen_capacity (q : t) (e len : Z) :
  1 <= ver q <= 40 -> ecclevel q = Some e -> 0 <= e <= 3 ->
  mode q = NUMERIC \/ mode q = ALPHANUMERIC \/ mode q = OCTET ->
  0 <= len ->
  exists nbits lenbits max,
    nDataBits q = Ok (Some nbits) /\ nDataLenBits q = Some lenbits
    /\ getMaxDataLen q = Ok (Some max)
    /\ (len <= max <-> 4 + lenbits + payload_bits (mode q) len <= nbits).
Proof.
  intros Hv He Hr Hm Hlen.
  destruct (nDataBits_range q e Hv He Hr) as (nbits & Hn & Hnb).
  unfold getMaxDataLen. rewrite Hn. cbn [rbind].
  assert (exists lenbits, nDataLenBits q = Some lenbits /\ 8 <= lenbits <= 16)
    as (lenbits & Hl & Hlb).
  { unfold nDataLenBits.
    destruct Hm as [->|[->| ->]]; simpl; eexists; (split; [done |]);
      repeat case_match; lia. }
  rewrite Hl. exists nbits, lenbits. simpl.
  set (x := nbits - 4 - lenbits). assert (0 <= x) as Hx by (unfold x; lia).
  unfold payload_bits.
  destruct Hm as [->|[->| ->]]; simpl; eexists; (split; [done |]);
    (split; [done |]); (split; [done |]).
  - rewrite Z.quot_div_nonneg, Z.rem_mod_nonneg by lia.
    pose proof (Z.div_mod x 10 ltac:(lia)) as Hd.
    pose proof (Z.mod_pos_bound x 10 ltac:(lia)) as Hb.
    pose proof (Z.div_mod len 3 ltac:(lia)) as Hd'.
    pose proof (Z.mod_pos_bound len 3 ltac:(lia)) as Hb'.
    repeat case_match;
      repeat match goal with
             | Hc : (_ <? _) = true |- _ => apply Z.ltb_lt in Hc
             | Hc : (_ <? _) = false |- _ => apply Z.ltb_ge in Hc
             | Hc : (_ =? _) = true |- _ => apply Z.eqb_eq in Hc
             | Hc : (_ =? _) = false |- _ => apply Z.eqb_neq in Hc
             end; lia.
  - rewrite Z.quot_div_nonneg, Z.rem_mod_nonneg by lia.
    pose proof (Z.div_mod x 11 ltac:(lia)) as Hd.
    pose proof (Z.mod_pos_bound x 11 ltac:(lia)) as Hb.
    pose proof (Z.div_mod len 2 ltac:(lia)) as Hd'.
    pose proof (Z.mod_pos_bound len 2 ltac:(lia)) as Hb'.
    repeat case_match;
      repeat match goal with
             | Hc : (_ <? _) = true |- _ => apply Z.ltb_lt in Hc
             | Hc : (_ <? _) = false |- _ => apply Z.ltb_ge in Hc
             end; lia.
  - rewrite Z.quot_div_nonneg by lia.
    pose proof (Z.div_mod x 8 ltac:(lia)) as Hd.
    pose proof (Z.mod_pos_bound x 8 ltac:(lia)) as Hb. lia.
Qed.

Lemma getMaxDataLen_capacity_witness :
  exists nbits lenbits max,
    nDataBits (config ALPHANUMERIC (Some Q) 1) = Ok (Some nbits)
    /\ nDataLenBits (config ALPHANUMERIC (Some Q) 1) = Some lenbits
    /\ getMaxDataLen (config ALPHANUMERIC (Some Q) 1) = Ok (Some max)
    /\ (11 <= max
        <-> 4 + lenbits + payload_bits (mode (config ALPHANUMERIC (Some Q) 1)) 11
            <= nbits).
Proof.
  apply (getMaxDataLen_capacity (config ALPHANUMERIC (Some Q) 1) Q 11);
    [simpl; lia | reflexivity | unfold Q; lia | auto | lia].
Defined.

(** X12: for a supported mode and a known level, the capacity grows
    strictly from each version to the next. *)
Theorem getMaxDataLen_increases (q : t) (e : Z) :
  1 <= ver q < 40 -> ecclevel q = Some e -> 0 <= e <= 3 ->
  mode q = NUMERIC \/ mode q = ALPHANUMERIC \/ mode q = OCTET ->
  exists a b,
    getMaxDataLen q = Ok (Some a)
    /\ getMaxDataLen (at_version q (ver q + 1)) = Ok (Some b)
    /\ 0 <= a < b.
Proof.
  intros Hv He Hr Hm. pose proof (capacity_checked (ver q) ltac:(lia)) as H.
  unfold capacity_check in H. rewrite forallb_forall in H.
  specialize (H (Some e) (proj1 (list_elem_of_In _ _) (level_cases e Hr))).
  apply andb_prop in H as [_ H]. rewrite forallb_forall in H.
  specialize (H (mode q) (proj1 (list_elem_of_In _ _) (mode_cases _ Hm))).
  assert (getMaxDataLen q = getMaxDataLen (config (mode q) (Some e) (ver q)))
    as -> by (by rewrite getMaxDataLen_config, He).
  assert (getMaxDataLen (at_version q (ver q + 1))
          = getMaxDataLen (config (mode q) (Some e) (ver q + 1)))
    as -> by (rewrite getMaxDataLen_config; simpl; by rewrite He).
  destruct (getMaxDataLen (config (mode q) (Some e) (ver q))) as [[a|]|]; try done.
  destruct (getMaxDataLen (config (mode q) (Some e) (ver q + 1))) as [[b|]|].
  - exists a, b. split; [done |]. split; [done |].
    apply andb_prop in H as [H H3]. apply andb_prop in H as [H1 H2]. lia.
  - apply andb_prop in H as [_ H]. lia.
  - apply andb_prop in H as [_ H]. lia.
Qed.

Lemma getMaxDataLen_increases_witness :
  exists a b,
    getMaxDataLen (config OCTET (Some H) 9) = Ok (Some a)
    /\ getMaxDataLen (at_version (config OCTET (Some H) 9)
                        (ver (config OCTET (Some H) 9) + 1)) = Ok (Some b)
    /\ 0 <= a < b.
Proof.
  apply (getMaxDataLen_increases (config OCTET (Some H) 9) H);
    [simpl; lia | reflexivity | unfold H; lia | auto].
Defined.

(** No capacity is above 7089. *)
Lemma getMaxDataLen_bound (m : Z) (e : option Z) (v max : Z) :
  1 <= v <= 40 ->
  m = -1 \/ m = 1 \/ m = 2 \/ m = 4 ->
  e = None \/ (exists e', e = Some e' /\ 0 <= e' <= 3) ->
  getMaxDataLen (config m e v) = Ok (Some max) -> max <= 7089.
Proof.
  intros Hv Hm He Hmax. destruct Hm as [->|Hm].
  - unfold getMaxDataLen in Hmax.
    destruct (nDataBits (config (-1) e v)); simpl in Hmax; done.
  - pose proof (capacity_checked v Hv) as H.
    unfold capacity_check in H. rewrite forallb_forall in H.
    assert (e ∈ levels) as Hin.
    { destruct He as [->|(e' & -> & He)]; [unfold levels; repeat constructor |].
      by apply level_cases. }
    specialize (H e (proj1 (list_elem_of_In _ _) Hin)).
    apply andb_prop in H as [_ H]. rewrite forallb_forall in H.
    specialize (H m (proj1 (list_elem_of_In _ _) (mode_cases _ Hm))).
    rewrite Hmax in H.
    destruct (getMaxDataLen (config m e (v + 1))) as [[b|]|];
      repeat (apply andb_prop in H as [H ?]); lia.
Qed.

(** The loop of the constructor stops at the first version that fits. *)
Lemma pick_version_spec (fuel : nat) (q : t) (s : list Z) (v : Z) :
  data q = DString s -> 1 <= v -> v + Z.of_nat fuel <= 41 ->
  exists v',
    pick_version fuel q v = Ok v'
    /\ v <= v' <= v + Z.of_nat fuel
    /\ (forall u, v <= u < v' -> ~ fits q (Z.of_nat (length s)) u)
    /\ (v' < v + Z.of_nat fuel -> fits q (Z.of_nat (length s)) v').
Proof.
  intros Hd. revert v. induction fuel as [|fuel IH]; intros v Hv Hf.
  - exists v. cbn [pick_version]. repeat split; intros; lia.
  - cbn [pick_version].
    assert (data_length (data q) = Ok (Z.of_nat (length s))) as ->
      by (by rewrite Hd).
    cbn [rbind].
    destruct (getMaxDataLen_returns (at_version q v)) as [r Hr]; [simpl; lia |].
    change {| mode := mode q; ecclevel := ecclevel q; mask := mask q;
              data := data q; ver := v |} with (at_version q v).
    rewrite Hr. cbn [rbind].
    destruct (match r with Some m => Z.of_nat (length s) <=? m | None => false end)
      eqn:Hfit.
    + exists v. split; [done |]. split; [lia |]. split; [intros; lia |].
      intros _. destruct r as [m|]; [| done]. exists m. split; [done |].
      by apply Z.leb_le.
    + destruct (IH (v + 1) ltac:(lia) ltac:(lia)) as (v' & Hp & Hb & Hno & Hyes).
      exists v'. split; [done |]. split; [lia |]. split.
      * intros u Hu. destruct (decide (u = v)) as [->|Hne]; [| apply Hno; lia].
        intros (max & Hmax & Hle). rewrite Hr in Hmax. injection Hmax as ->.
        apply Z.leb_gt in Hfit. lia.
      * intros Hlt. apply Hyes. lia.
Qed.

Local Arguments pick_version : simpl never.

(** The constructor on a text, with the mode and the level it has set. *)
Lemma constructor_text_level (s : list Z) (o : QrCodeOptions) :
  mode_supported o = true -> opt_version o = None ->
  exists m e,
    (m = -1 \/ m = 1 \/ m = 2 \/ m = 4)
    /\ (e = None \/ exists e', e = Some e' /\ 0 <= e' <= 3)
    /\ constructor (DString s) o
       = let mask0 := default (-1) (opt_mask o) in
         let q := {| mode := m; ecclevel := e; mask := mask0;
                     data := DString s; ver := -1 |} in
         ver1 <- (v <- pick_version 40 q 1 ;;;
                  if 40 <? v then Throw TooLargeData else Ok v) ;;;
         if negb (mask0 =? -1) && ((mask0 <? 0) || (8 <? mask0))
         then Throw InvalidMask
         else Ok {| mode := m; ecclevel := e; mask := mask0;
                    data := DString s; ver := ver1 |}.
Proof.
  intros Hmode Hver. unfold mode_supported in Hmode.
  set (e := ECCLEVELS (match opt_ecclevel o with
                       | Some s0 => if decide (toUpperCase s0 = ""%string)
                                    then "L"%string else toUpperCase s0
                       | None => "L"%string
                       end)).
  assert (match e with Some e' => (e' <? 0) || (3 <? e') | None => false end = false)
    as He.
  { destruct e as [e'|] eqn:E; [| done].
    apply ECCLEVELS_values in E. apply orb_false_intro; lia. }
  assert (e = None \/ exists e', e = Some e' /\ 0 <= e' <= 3) as Hlev.
  { destruct e as [e'|] eqn:E; [right | by left]. exists e'. split; [done |].
    by apply ECCLEVELS_values in E. }
  set (auto := if REGEXP_NUMERIC s then NUMERIC
               else if REGEXP_ALPHANUMERIC_OUT s then ALPHANUMERIC else -1).
  assert (auto = -1 \/ auto = 1 \/ auto = 2 \/ auto = 4) as Hauto.
  { unfold auto, NUMERIC, ALPHANUMERIC.
    destruct (REGEXP_NUMERIC s), (REGEXP_ALPHANUMERIC_OUT s); auto. }
  assert ((if auto =? 0 then OCTET else auto) = auto) as Hauto0.
  { destruct Hauto as [->|[->|[->| ->]]]; reflexivity. }
  destruct (opt_mode o) as [ms|] eqn:Hms.
  - destruct (decide (ms = ""%string)) as [->|Hne].
    + exists auto, e. split; [done |]. split; [done |].
      unfold constructor. rewrite Hver, Hms. simpl. fold e. fold auto.
      rewrite Hauto0. simpl. rewrite He. reflexivity.
    + rewrite bool_decide_eq_false_2 in Hmode by done. simpl in Hmode.
      destruct (MODES (toLowerCase ms)) as [m|] eqn:Hm; [| done].
      exists m, e. split; [right; by eapply MODES_values |]. split; [done |].
      unfold constructor. rewrite Hver, Hms. simpl. fold e.
      rewrite decide_False by done. rewrite Hm.
      destruct (MODES_values _ _ Hm) as [->|[->| ->]]; simpl; rewrite He;
        reflexivity.
  - exists auto, e. split; [done |]. split; [done |].
    unfold constructor. rewrite Hver, Hms. simpl. fold e. fold auto.
    rewrite Hauto0. simpl. rewrite He. reflexivity.
Qed.

(** X13: when no version is given and the constructor returns on a text,
    the version it has set is in 1..40, the text is within
    [getMaxDataLen()] at that version, and at no smaller version. *)
Theorem constructor_picks_least_version (s : list Z) (o : QrCodeOptions) (q : t) :
  mode_supported o = true -> opt_version o = None ->
  constructor (DString s) o = Ok q ->
  1 <= ver q <= 40
  /\ fits q (Z.of_nat (length s)) (ver q)
  /\ forall u, 1 <= u < ver q -> ~ fits q (Z.of_nat (length s)) u.
Proof.
  intros Hmode Hver Hc.
  destruct (constructor_text_level s o Hmode Hver) as (m & e & _ & _ & Heq).
  rewrite Heq in Hc. cbv zeta in Hc.
  match type of Hc with
  | context [pick_version 40 ?q0 1] =>
      destruct (pick_version_spec 40 q0 s 1 eq_refl ltac:(lia) ltac:(lia))
        as (v' & Hp & Hb & Hno & Hyes)
  end.
  rewrite Hp in Hc. cbn [rbind] in Hc.
  destruct (40 <? v') eqn:E; [done |]. apply Z.ltb_ge in E. cbn [rbind] in Hc.
  match type of Hc with
  | (if ?c then _ else _) = _ => destruct c; [done |]
  end.
  injection Hc as <-. cbn [ver].
  split; [lia |]. split; [apply Hyes; simpl; lia | exact Hno].
Qed.

Lemma constructor_picks_least_version_witness :
  let q := {| mode := NUMERIC; ecclevel := Some H; mask := -1;
              data := DString (replicate 20 49); ver := 2 |} in
  1 <= ver q <= 40
  /\ fits q (Z.of_nat (length (replicate 20 49))) (ver q)
  /\ forall u, 1 <= u < ver q -> ~ fits q (Z.of_nat (length (replicate 20 49))) u.
Proof.
  apply (constructor_picks_least_version (replicate 20 49)
           (options (Some "h"%string) None None None));
    [reflexivity | reflexivity | vm_compute; reflexivity].
Defined.

(** X14: when no version is given, the constructor throws "too large
    data" for every text of more than 7089 units. *)
Theorem constructor_too_large (s : list Z) (o : QrCodeOptions) :
  mode_supported o = true -> opt_version o = None ->
  7089 < Z.of_nat (length s) ->
  constructor (DString s) o = Throw TooLargeData.
Proof.
  intros Hmode Hver Hlen.
  destruct (constructor_text_level s o Hmode Hver) as (m & e & Hm & He & Heq).
  rewrite Heq. cbv zeta.
  match goal with
  | |- context [pick_version 40 ?q0 1] =>
      destruct (pick_version_spec 40 q0 s 1 eq_refl ltac:(lia) ltac:(lia))
        as (v' & Hp & Hb & _ & Hyes)
  end.
  rewrite Hp. cbn [rbind].
  assert (v' = 41) as ->.
  { destruct (decide (v' = 41)) as [|Hne]; [done |]. exfalso.
    destruct (Hyes ltac:(simpl; lia)) as (max & Hmax & Hle).
    rewrite getMaxDataLen_config in Hmax. cbn [at_version mode ecclevel ver] in Hmax.
    pose proof (getMaxDataLen_bound m e v' max ltac:(simpl in Hb; lia) Hm He Hmax).
    lia. }
  reflexivity.
Qed.

Lemma constructor_too_large_witness :
  constructor (DString (replicate (Z.to_nat 7090) 49)) (options None None None None)
  = Throw TooLargeData.
Proof.
  apply (constructor_too_large (replicate (Z.to_nat 7090) 49) (options None None None None));
    [reflexivity | reflexivity | vm_compute; reflexivity].
Defined.
End capacity.

(** ** The padding of [encode] *)

Section padding.
Import QrCode.

(** [encode] up to its two padding statements: the code words of the mode
    indicator, the length, the payload and the terminator. *)
Definition encode_words (q : t) : result (list Z) :=
  let p := {| buf := []; bits := 0; remaining := 8 |} in
  let p := pack (Js.wrap32 (mode q)) 4 p in
  len <- data_length (data q) ;;;
  let p := match nDataLenBits q with
           | Some nlenbits => pack (Js.wrap32 len) nlenbits p
           | None => p
           end in
  p <- (if mode q =? NUMERIC then pack_numeric (data q) p
        else if mode q =? ALPHANUMERIC then pack_alphanumeric (data q) p
        else if mode q =? OCTET then pack_octet (data q) p
        else Throw TypeError) ;;;
  let p := pack TERMINATOR 4 p in
  Ok (if remaining p <? 8 then buf p ++ [bits p] else buf p).

(** [k] pad words: 0xec and 0x11 in turn. *)
Fixpoint padding (k : nat) : list Z :=
  match k with
  | O => []
  | S O => [0xec]
  | S (S k') => 0xec :: 0x11 :: padding k'
  end.

Lemma encode_encode_words (q : t) (maxbuflen : Z) :
  encode q maxbuflen
  = (w <- encode_words q ;;;
     let b := pad (Z.to_nat maxbuflen) w maxbuflen in
     Ok (if Z.of_nat (length b) <? maxbuflen then b ++ [0xec] else b)).
Proof.
  unfold encode, encode_words.
  destruct (data_length (data q)) as [len|]; [| done]. cbn [rbind].
  match goal with
  | |- rbind ?r _ = _ => destruct r; done
  end.
Qed.

Lemma padding_length (k : nat) : length (padding k) = k.
Proof.
  induction k as [k IH] using lt_wf_ind. destruct k as [|[|k]]; [done | done |].
  cbn [padding length]. rewrite IH by lia. done.
Qed.

Lemma padding_pairs (j r : nat) :
  padding (2 * j) ++ padding r = padding (2 * j + r).
Proof.
  induction j as [|j IH]; [done |].
  replace (2 * S j)%nat with (S (S (2 * j))) by lia. cbn [padding Nat.add app].
  by rewrite IH.
Qed.

Lemma pad_spec (fuel : nat) (b : list Z) (maxbuflen : Z) :
  (Z.to_nat (maxbuflen - Z.of_nat (length b)) <= 2 * fuel)%nat ->
  pad fuel b maxbuflen
  = b ++ padding (2 * (Z.to_nat (maxbuflen - Z.of_nat (length b)) / 2)).
Proof.
  revert b. induction fuel as [|fuel IH]; intros b Hk.
  - replace (Z.to_nat (maxbuflen - Z.of_nat (length b))) with 0%nat by lia.
    cbn [pad]. by rewrite app_nil_r.
  - cbn [pad]. destruct (Z.of_nat (length b) + 1 <? maxbuflen) eqn:E.
    + apply Z.ltb_lt in E. rewrite IH by (rewrite length_app; simpl; lia).
      rewrite <- app_assoc. f_equal. rewrite length_app. cbn [length].
      set (k := Z.to_nat (maxbuflen - Z.of_nat (length b))).
      replace (Z.to_nat (maxbuflen - Z.of_nat (length b + 2))) with (k - 2)%nat
        by (unfold k; lia).
      assert (2 <= k)%nat as Hk2 by (unfold k; lia).
      replace (k / 2)%nat with (S ((k - 2) / 2)).
      * replace (2 * S ((k - 2) / 2))%nat with (S (S (2 * ((k - 2) / 2)))) by lia.
        done.
      * replace k with (1 * 2 + (k - 2))%nat at 2 by lia.
        rewrite Nat.div_add_l by lia. lia.
    + apply Z.ltb_ge in E.
      assert (Z.to_nat (maxbuflen - Z.of_nat (length b)) / 2 = 0)%nat as ->
        by (apply Nat.div_small; lia).
      by rewrite app_nil_r.
Qed.

Lemma encode_pad_words (q : t) (maxbuflen : Z) (w : list Z) :
  encode_words q = Ok w ->
  encode q maxbuflen
  = Ok (w ++ padding (Z.to_nat (maxbuflen - Z.of_nat (length w)))).
Proof.
  intros Hw. rewrite encode_encode_words, Hw. cbn [rbind]. cbv zeta.
  set (k := Z.to_nat (maxbuflen - Z.of_nat (length w))).
  rewrite pad_spec by lia. fold k. f_equal.
  rewrite length_app, padding_length.
  pose proof (Nat.div_mod_eq k 2) as Hd.
  pose proof (Nat.mod_upper_bound k 2 ltac:(lia)) as Hb.
  destruct (decide (k mod 2 = 0)%nat) as [H0|H1].
  - rewrite (proj2 (Z.ltb_ge _ _)) by (unfold k in *; lia).
    do 2 f_equal. lia.
  - rewrite (proj2 (Z.ltb_lt _ _)) by (unfold k in *; lia).
    rewrite <- app_assoc. f_equal.
    change [0xec] with (padding 1). rewrite padding_pairs. f_equal. lia.
Qed.

(** X15: [encode(maxbuflen)] returns the code words of the data followed
    by 0xec and 0x11 in turn up to [maxbuflen] words; when the code words
    of the data are [maxbuflen] or more, it returns them all, with no pad
    word and none dropped. *)
Theorem encode_padding (q : t) (maxbuflen : Z) (w : list Z) :
  encode_words q = Ok w ->
  encode q maxbuflen
  = Ok (w ++ padding (Z.to_nat (maxbuflen - Z.of_nat (length w)))).
Proof. exact (encode_pad_words q maxbuflen w). Qed.

Lemma encode_padding_witness :
  encode {| mode := NUMERIC; ecclevel := Some L; mask := -1;
            data := DString (units "01234567"); ver := 1 |} 19
  = Ok ([16; 32; 12; 86; 97; 128]
        ++ padding (Z.to_nat (19 - Z.of_nat (length [16; 32; 12; 86; 97; 128])))).
Proof.
  apply (encode_padding
           {| mode := NUMERIC; ecclevel := Some L; mask := -1;
              data := DString (units "01234567"); ver := 1 |} 19
           [16; 32; 12; 86; 97; 128]).
  vm_compute. reflexivity.
Defined.
End padding.

(** ** The payloads that the constructor refuses *)

Section data_formats.
Import QrCode.

Lemma getMaxDataLen_error (q : t) (err : error) :
  getMaxDataLen q = Throw err -> err = TypeError.
Proof.
  unfold getMaxDataLen, nDataBits, nFullBits.
  destruct (VERSIONS (ver q)) as [[[degrees blocks] aligns]|]; cbn [rbind];
    by intros [=].
Qed.

Lemma pick_version_error (fuel : nat) (q : t) (v : Z) (err : error) :
  pick_version fuel q v = Throw err -> err = TypeError.
Proof.
  revert v. induction fuel as [|fuel IH]; intros v; cbn [pick_version]; [done |].
  destruct (data q); cbn [data_length rbind]; [by intros [=] | |];
    match goal with
    | |- rbind ?r _ = _ -> _ => destruct r as [max|e] eqn:Hmax
    end; cbn [rbind];
    try (intros [= <-]; by eapply getMaxDataLen_error);
    match goal with
    | |- (if ?c then _ else _) = _ -> _ => destruct c; [done | apply IH]
    end.
Qed.

(** X16: the constructor never throws "invalid data format": on [null]
    and on an array the call of [validateData] before that test throws a
    TypeError, unless the mode option is refused first. *)
Theorem constructor_data_format (d : Data) (o : QrCodeOptions) :
  constructor d o <> Throw InvalidDataFormat
  /\ (match d with DString _ => False | _ => True end ->
      constructor d o = Throw TypeError
      \/ constructor d o = Throw InvalidMode).
Proof.
  unfold constructor.
  match goal with
  | |- context [rbind ?r _] => destruct r as [m|err] eqn:Hmode
  end.
  - cbn [rbind]. destruct d as [|s|a].
    + split; [done |]. intros _. by left.
    + split; [| done]. unfold validateData. cbn [data rbind]. clear Hmode.
      match goal with
      | |- (if ?c then _ else _) <> _ => destruct c; [done |]
      end.
      match goal with
      | |- rbind (if ?c then _ else _) _ <> _ => destruct c
      end.
      * match goal with
        | |- context [pick_version 40 ?q0 1] =>
            destruct (pick_version 40 q0 1) as [v|err] eqn:Hp
        end.
        -- cbn [rbind]. destruct (40 <? v); cbn [rbind]; [done |].
           match goal with
           | |- (if ?c then _ else _) <> _ => destruct c; done
           end.
        -- apply pick_version_error in Hp as ->. done.
      * match goal with
        | |- rbind (if ?c then _ else _) _ <> _ => destruct c
        end; cbn [rbind]; [done |].
        match goal with
        | |- (if ?c then _ else _) <> _ => destruct c; done
        end.
    + split; [done |]. intros _. by left.
  - assert (err = InvalidMode) as ->.
    { repeat case_match; by inversion Hmode. }
    cbn [rbind]. split; [done |]. intros _. by right.
Qed.

Lemma constructor_data_format_witness :
  constructor (DArray [1; 2; 3]) (options None None (Some "octet"%string) None)
  <> Throw InvalidDataFormat
  /\ (match DArray [1; 2; 3] with DString _ => False | _ => True end ->
      constructor (DArray [1; 2; 3])
        (options None None (Some "octet"%string) None) = Throw TypeError
      \/ constructor (DArray [1; 2; 3])
           (options None None (Some "octet"%string) None) = Throw InvalidMode).
Proof.
  apply (constructor_data_format (DArray [1; 2; 3])
           (options None None (Some "octet"%string) None)).
Defined.
End data_formats.

(** ** The code words of a symbol *)

Section code_words.
Import QrCode.

Lemma for_length {A : Type} (lo hi c : nat) (body : nat -> list A -> list A)
    (r : list A) :
  (forall i x, length (body i x) = (length x + c)%nat) ->
  length (for_ lo hi body r) = (length r + c * (hi - lo))%nat.
Proof.
  intros Hbody. unfold for_.
  assert (forall l r, length (foldl (fun s i => body i s) r l)
                      = (length r + c * length l)%nat) as H.
  { induction l as [|i l IH]; intros x; cbn [foldl length]; [lia |].
    rewrite IH, Hbody. lia. }
  by rewrite H, length_seq.
Qed.

Lemma augumentEccs_length_aux (poly : list Z) (nblocks : nat) (genpoly : list Z) :
  (1 <= nblocks)%nat ->
  length (augumentEccs poly nblocks genpoly)
  = (length poly + length genpoly * nblocks)%nat.
Proof.
  intros Hn. unfold augumentEccs.
  destruct (for_ 0 (nblocks - length poly mod nblocks)
              (fun _ '(subsizes, subsize0) =>
                 (subsizes ++ [subsize0],
                  (subsize0 + length poly / nblocks)%nat)) ([], 0%nat))
    as [subsizes subsize0].
  destruct (for_ (nblocks - length poly mod nblocks) nblocks
              (fun _ '(subsizes, subsize0) =>
                 (subsizes ++ [subsize0],
                  (subsize0 + (length poly / nblocks + 1))%nat))
              (subsizes, subsize0))
    as [subsizes' subsize0'].
  cbv zeta.
  rewrite (for_length 0 (length genpoly) nblocks).
  - rewrite (for_length _ nblocks 1)
      by (intros; rewrite length_app; simpl; lia).
    rewrite (for_length 0 (length poly / nblocks) nblocks).
    + pose proof (Nat.div_mod_eq (length poly) nblocks) as Hd.
      pose proof (Nat.mod_upper_bound (length poly) nblocks ltac:(lia)) as Hb.
      simpl length. nia.
    + intros i x. rewrite (for_length 0 nblocks 1)
        by (intros; rewrite length_app; simpl; lia). lia.
  - intros i x. rewrite (for_length 0 nblocks 1)
      by (intros; rewrite length_app; simpl; lia). lia.
Qed.

(** X17: for a block count of at least one, [augumentEccs] returns as many
    words as [poly] has, and after them as many as [genpoly] has for
    every block. *)
Theorem augumentEccs_length (poly : list Z) (nblocks : nat) (genpoly : list Z) :
  (1 <= nblocks)%nat ->
  length (augumentEccs poly nblocks genpoly)
  = (length poly + length genpoly * nblocks)%nat.
Proof. apply augumentEccs_length_aux. Qed.

Lemma augumentEccs_length_witness :
  length (augumentEccs [1; 2; 3; 4; 5; 6; 7] 2 [25; 1])
  = (length [1; 2; 3; 4; 5; 6; 7] + length [25; 1] * 2)%nat.
Proof. apply (augumentEccs_length [1; 2; 3; 4; 5; 6; 7] 2 [25; 1]). lia. Defined.

(** What is checked of the tables by evaluation, for a version and every
    level: a block count of at least one and a generator polynomial of
    the degree that [VERSIONS] gives. *)
Definition tables_check (v : Z) : bool :=
  match VERSIONS v with
  | Some (degrees, blocks, _) =>
      forallb (fun e =>
        match by_level degrees (Some e), by_level blocks (Some e) with
        | Some d, Some nb =>
            (0 <=? d) && (1 <=? nb)
            && match GF256.GENPOLY !! Z.to_nat d with
               | Some g => bool_decide (length g = Z.to_nat d)
               | None => false
               end
        | _, _ => false
        end) [0; 1; 2; 3]
  | None => false
  end.

Lemma tables_check_all : forallb tables_check (Z.of_nat <$> seq 1 40) = true.
Proof. vm_compute. reflexivity. Qed.

Lemma tables_checked (v e : Z) :
  1 <= v <= 40 -> 0 <= e <= 3 ->
  exists degrees blocks aligns d nb g,
    VERSIONS v = Some (degrees, blocks, aligns)
    /\ by_level degrees (Some e) = Some d
    /\ by_level blocks (Some e) = Some nb
    /\ 0 <= d /\ 1 <= nb
    /\ GF256.GENPOLY !! Z.to_nat d = Some g /\ length g = Z.to_nat d.
Proof.
  intros Hv He. pose proof tables_check_all as Hall.
  rewrite forallb_forall in Hall.
  assert (tables_check v = true) as H.
  { apply Hall, list_elem_of_In, list_elem_of_fmap.
    exists (Z.to_nat v). split; [lia |]. apply list_elem_of_In, in_seq. lia. }
  unfold tables_check in H.
  destruct (VERSIONS v) as [[[degrees blocks] aligns]|]; [| done].
  rewrite forallb_forall in H.
  assert (In e [0; 1; 2; 3]) as Hin.
  { assert (e = 0 \/ e = 1 \/ e = 2 \/ e = 3) as [->|[->|[->| ->]]] by lia;
      simpl; auto. }
  specialize (H e Hin).
  destruct (by_level degrees (Some e)) as [d|] eqn:Ed; [| done].
  destruct (by_level blocks (Some e)) as [nb|] eqn:Eb; [| done].
  apply andb_prop in H as [H Hg]. apply andb_prop in H as [Hd Hnb].
  destruct (GF256.GENPOLY !! Z.to_nat d) as [g|] eqn:Eg; [| done].
  apply bool_decide_eq_true in Hg. apply Z.leb_le in Hd. apply Z.leb_le in Hnb.
  exists degrees, blocks, aligns, d, nb, g.
  split; [done |]. split; [done |]. split; [done |]. split; [lia |].
  split; [lia |]. split; done.
Qed.

(** X18: for a version in 1..40 and a known level, with the block count
    and the generator polynomial that [generate] takes from [VERSIONS]
    and [GENPOLY], [augumentEccs] turns a buffer of [nDataBits() >> 3]
    words into one of [nFullBits() >> 3] words: the code words fill the
    unreserved cells up to the last whole byte. *)
Theorem code_words_fill (q : t) (e : Z) :
  1 <= ver q <= 40 -> ecclevel q = Some e -> 0 <= e <= 3 ->
  exists nbits full degrees blocks aligns d nb g,
    nDataBits q = Ok (Some nbits) /\ nFullBits q = Ok full
    /\ VERSIONS (ver q) = Some (degrees, blocks, aligns)
    /\ by_level degrees (ecclevel q) = Some d
    /\ by_level blocks (ecclevel q) = Some nb
    /\ GF256.GENPOLY !! Z.to_nat d = Some g
    /\ forall b, Z.of_nat (length b) = Z.shiftr nbits 3 ->
         Z.of_nat (length (augumentEccs b (Z.to_nat nb) g)) = Z.shiftr full 3.
Proof.
  intros Hv He Hr.
  destruct (tables_checked (ver q) e Hv Hr)
    as (degrees & blocks & aligns & d & nb & g & HV & Hd & Hnb & Hd0 & Hnb1 & Hg & Hlen).
  unfold nDataBits, nFullBits. rewrite HV, He, Hd, Hnb. cbn [rbind].
  cbn [mbind option_bind].
  eexists _, _, degrees, blocks, aligns, d, nb, g.
  split; [reflexivity |]. split; [reflexivity |].
  split; [done |]. split; [done |]. split; [done |]. split; [done |].
  intros b Hb. rewrite augumentEccs_length_aux by lia. rewrite Hlen.
  match goal with
  | |- _ = Z.shiftr ?f 3 => set (full := f) in *
  end.
  assert (Z.land full (Z.lnot 7) = 8 * Z.shiftr full 3) as Hland.
  { change 7 with (Z.ones 3). rewrite <- Z.ldiff_land, Z.ldiff_ones_r by lia.
    rewrite Z.shiftl_mul_pow2 by lia. change (2 ^ 3) with 8. lia. }
  rewrite Hland in Hb. rewrite !Z.shiftr_div_pow2 in * by lia.
  change (2 ^ 3) with 8 in *.
  replace (8 * (full / 8) - 8 * d * nb) with ((full / 8 - d * nb) * 8) in Hb by lia.
  rewrite Z.div_mul in Hb by lia. lia.
Qed.

Lemma code_words_fill_witness :
  exists nbits full degrees blocks aligns d nb g,
    nDataBits (version_state 5) = Ok (Some nbits)
    /\ nFullBits (version_state 5) = Ok full
    /\ VERSIONS (ver (version_state 5)) = Some (degrees, blocks, aligns)
    /\ by_level degrees (ecclevel (version_state 5)) = Some d
    /\ by_level blocks (ecclevel (version_state 5)) = Some nb
    /\ GF256.GENPOLY !! Z.to_nat d = Some g
    /\ forall b, Z.of_nat (length b) = Z.shiftr nbits 3 ->
         Z.of_nat (length (augumentEccs b (Z.to_nat nb) g)) = Z.shiftr full 3.
Proof.
  apply (code_words_fill (version_state 5) L); [simpl; lia | reflexivity | unfold L; lia].
Defined.
End code_words.

(** ** Cells of a matrix *)

Section cells.
Import QrCode.

Lemma cget_cset (row : Js.cells) (c c' : nat) (v : Z) :
  Js.cget (Js.cset row c v) c' = if decide (c' = c) then Some v else Js.cget row c'.
Proof.
  unfold Js.cget. case_decide as Hc.
  - subst. by rewrite cset_lookup.
  - unfold Js.cset. case_decide as Hl.
    + by rewrite list_lookup_insert_ne.
    + destruct (decide (c' < length row)%nat) as [Hlt|Hge].
      * by rewrite lookup_app_l.
      * rewrite lookup_app_r by lia. rewrite (lookup_ge_None_2 row c') by lia.
        destruct (decide (c' - length row < c - length row)%nat) as [Hr|Hr].
        -- rewrite lookup_app_l by (rewrite length_replicate; lia).
           by rewrite lookup_replicate_2 by lia.
        -- rewrite lookup_app_r by (rewrite length_replicate; lia).
           rewrite length_replicate, lookup_ge_None_2; [done | simpl; lia].
Qed.

Lemma mset_cell (m : matrix) (r c : nat) (v : Z) :
  (r < length m)%nat ->
  exists m',
    mset m r c v = Ok m' /\ length m' = length m
    /\ forall r' c', cell m' r' c'
                     = if decide (r' = r /\ c' = c) then Some v else cell m r' c'.
Proof.
  intros Hr. unfold mset. destruct (lookup_lt_is_Some_2 m r Hr) as [row Hrow].
  rewrite Hrow. eexists. split; [done |]. split; [by rewrite length_insert |].
  intros r' c'. unfold cell. destruct (decide (r' = r)) as [->|Hne].
  - rewrite list_lookup_insert_eq by done. simpl. rewrite cget_cset, Hrow. simpl.
    repeat case_decide; try done; tauto.
  - rewrite list_lookup_insert_ne by done. case_decide; [tauto | done].
Qed.

Lemma msetz_cell (m : matrix) (r c : Z) (v : Z) :
  0 <= r < Z.of_nat (length m) -> 0 <= c ->
  exists m',
    msetz m r c v = Ok m' /\ length m' = length m
    /\ forall r' c', cell m' r' c'
                     = if decide (r' = Z.to_nat r /\ c' = Z.to_nat c) then Some v
                       else cell m r' c'.
Proof.
  intros Hr Hc. unfold msetz.
  rewrite (proj2 (Z.ltb_ge r 0)), (proj2 (Z.ltb_ge c 0)) by lia.
  apply mset_cell. lia.
Qed.

(** Two square matrices of bits with the same cells are equal. *)
Lemma full_ext (n : nat) (a b : matrix) :
  full n a -> full n b ->
  (forall r c, (r < n)%nat -> (c < n)%nat -> cell a r c = cell b r c) -> a = b.
Proof.
  intros [Ha Hra] [Hb Hrb] H. apply (list_eq_same_length _ _ n); try done.
  intros r x y Hr Hx Hy.
  destruct (Hra r x Hx) as [Hlx Hbx]. destruct (Hrb r y Hy) as [Hly Hby].
  apply (list_eq_same_length _ _ n); try done.
  intros c u w Hc Hu Hw. specialize (H r c Hr Hc). unfold cell, Js.cget in H.
  rewrite Hx, Hy in H. simpl in H. rewrite Hu, Hw in H. simpl in H.
  specialize (Hbx c u Hu). specialize (Hby c w Hw).
  destruct u, w; try done; by injection H as ->.
Qed.

Lemma full_cell (n : nat) (m : matrix) (r c : nat) :
  full n m -> (r < n)%nat -> (c < n)%nat ->
  exists v, cell m r c = Some v /\ (v = 0 \/ v = 1).
Proof.
  intros [Hl Hrows] Hr Hc.
  destruct (lookup_lt_is_Some_2 m r ltac:(lia)) as [row Hrow].
  destruct (Hrows r row Hrow) as [Hlr Hb].
  destruct (lookup_lt_is_Some_2 row c ltac:(lia)) as [x Hx].
  specialize (Hb c x Hx). unfold cell, Js.cget. rewrite Hrow. simpl. rewrite Hx.
  simpl. destruct x as [[|[| |]|]|]; try done; eexists; split; eauto.
Qed.
End cells.

(** ** The format information *)

Section format_information.
Import QrCode.

(** The word that [putFormatInfo(mask)] writes, and its bit [i]. *)
Definition format_code (q : t) (mask : Z) : Z :=
  Z.lxor (augumentbch (Z.lor (Z.shiftl (Js.int32_of (ecclevel q)) 3) mask)
            5 0x537 10) 0x5412.

Definition format_bit (q : t) (mask : Z) (i : nat) : Z :=
  Z.land (Z.shiftr (format_code q mask) (Z.of_nat i)) 1.

(** The row [r] and the column [c] of round [i]. *)
Definition format_row (n : nat) (i : nat) : nat :=
  Z.to_nat (default 0 (format_rows (Z.of_nat n) !! i)).

Definition format_column (n : nat) (i : nat) : nat :=
  Z.to_nat (default 0 (format_columns (Z.of_nat n) !! i)).

(** Round [i] writes the cell at row [r], column [c]. *)
Definition hits (n i r c : nat) : bool :=
  (bool_decide (r = 8%nat) && bool_decide (c = format_column n i))
  || (bool_decide (r = format_row n i) && bool_decide (c = 8%nat)).

Definition is_format (n r c : nat) : bool :=
  existsb (fun i => hits n i r c) (seq 0 15).

(** The cell at row [r], column [c] after [k] rounds. *)
Fixpoint written (q : t) (mask : Z) (n k r c : nat) (old : option Z) : option Z :=
  match k with
  | O => old
  | S k' => if hits n k' r c then Some (format_bit q mask k')
            else written q mask n k' r c old
  end.

Lemma format_positions (n i : nat) :
  (17 <= n)%nat -> (i < 15)%nat ->
  0 <= default 0 (format_rows (Z.of_nat n) !! i) < Z.of_nat n
  /\ 0 <= default 0 (format_columns (Z.of_nat n) !! i) < Z.of_nat n.
Proof.
  intros Hn Hi. do 15 (destruct i as [|i]; [simpl; lia |]). lia.
Qed.

Lemma putFormatInfo_written (q : t) (mask : Z) (m : matrix) :
  (17 <= length m)%nat ->
  exists m',
    putFormatInfo q mask m = Ok m' /\ length m' = length m
    /\ forall r c, cell m' r c = written q mask (length m) 15 r c (cell m r c).
Proof.
  intros Hn. unfold putFormatInfo.
  apply (rfor_invariant
           (fun k x => length x = length m
                       /\ forall r c, cell x r c
                                      = written q mask (length m) k r c (cell m r c)));
    [lia | done |].
  intros i x Hi [Hl Hx]. cbv zeta.
  destruct (format_positions (length m) i Hn ltac:(lia)) as [Hr Hc].
  fold (format_rows (Z.of_nat (length m))).
  fold (format_columns (Z.of_nat (length m))).
  destruct (msetz_cell x 8 (default 0 (format_columns (Z.of_nat (length m)) !! i))
              (Z.land (Z.shiftr (format_code q mask) (Z.of_nat i)) 1))
    as (x1 & H1 & Hl1 & Hc1); [lia | lia |].
  unfold format_code in H1. rewrite H1. cbn [rbind].
  destruct (msetz_cell x1 (default 0 (format_rows (Z.of_nat (length m)) !! i)) 8
              (Z.land (Z.shiftr (format_code q mask) (Z.of_nat i)) 1))
    as (x2 & H2 & Hl2 & Hc2); [lia | lia |].
  unfold format_code in H2. rewrite H2.
  exists x2. split; [done |]. split; [lia |].
  intros r c. rewrite Hc2, Hc1, Hx. cbn [written]. unfold hits, format_bit.
  unfold format_row, format_column, format_code.
  change (Z.to_nat 8) with 8%nat.
  repeat case_decide; repeat case_bool_decide; simpl; try done; try tauto; lia.
Qed.

Lemma format_row_eq (n i : nat) :
  (17 <= n)%nat -> (i < 15)%nat ->
  (i < 6 /\ format_row n i = i)%nat
  \/ (6 <= i < 8 /\ format_row n i = i + 1)%nat
  \/ (8 <= i /\ format_row n i = n - 15 + i)%nat.
Proof.
  intros Hn Hi. unfold format_row.
  do 15 (destruct i as [|i]; [simpl; lia |]). lia.
Qed.

Lemma format_column_eq (n i : nat) :
  (17 <= n)%nat -> (i < 15)%nat ->
  (i < 8 /\ format_column n i = n - 1 - i)%nat
  \/ (i = 8 /\ format_column n i = 7)%nat
  \/ (9 <= i /\ format_column n i = 14 - i)%nat.
Proof.
  intros Hn Hi. unfold format_column.
  do 15 (destruct i as [|i]; [simpl; lia |]). lia.
Qed.

Lemma hits_spec (n i r c : nat) :
  hits n i r c = true
  <-> (r = 8%nat /\ c = format_column n i) \/ (r = format_row n i /\ c = 8%nat).
Proof.
  unfold hits. rewrite orb_true_iff, !andb_true_iff, !bool_decide_eq_true. done.
Qed.

Lemma hits_unique (n i j r c : nat) :
  (17 <= n)%nat -> (i < 15)%nat -> (j < 15)%nat ->
  hits n i r c = true -> hits n j r c = true -> i = j.
Proof.
  intros Hn Hi Hj. rewrite !hits_spec.
  pose proof (format_row_eq n i Hn Hi). pose proof (format_row_eq n j Hn Hj).
  pose proof (format_column_eq n i Hn Hi). pose proof (format_column_eq n j Hn Hj).
  lia.
Qed.

Lemma written_miss (q : t) (mask : Z) (n k r c : nat) (old : option Z) :
  (forall i, (i < k)%nat -> hits n i r c = false) ->
  written q mask n k r c old = old.
Proof.
  induction k as [|k IH]; intros H; [done |]. cbn [written].
  rewrite H by lia. apply IH. intros; apply H; lia.
Qed.

Lemma written_hit (q : t) (mask : Z) (n k i r c : nat) (old : option Z) :
  (17 <= n)%nat -> (k <= 15)%nat -> (i < k)%nat -> hits n i r c = true ->
  written q mask n k r c old = Some (format_bit q mask i).
Proof.
  intros Hn Hk Hi Hh. induction k as [|k IH]; [lia |]. cbn [written].
  destruct (hits n k r c) eqn:E.
  - by rewrite (hits_unique n i k r c Hn ltac:(lia) ltac:(lia) Hh E).
  - apply IH; [lia |]. destruct (decide (i = k)) as [->|]; [congruence | lia].
Qed.

Lemma is_format_false (n r c i : nat) :
  is_format n r c = false -> (i < 15)%nat -> hits n i r c = false.
Proof.
  unfold is_format. intros H Hi.
  destruct (hits n i r c) eqn:E; [| done].
  assert (existsb (fun i => hits n i r c) (seq 0 15) = true) as Ht; [| congruence].
  apply existsb_exists. exists i. split; [apply in_seq; lia | done].
Qed.

(** The cells of the matrix after [putFormatInfo]. *)
Lemma putFormatInfo_spec (q : t) (mask : Z) (m : matrix) :
  (17 <= length m)%nat ->
  exists m',
    putFormatInfo q mask m = Ok m' /\ length m' = length m
    /\ (forall i r c, (i < 15)%nat -> hits (length m) i r c = true ->
          cell m' r c = Some (format_bit q mask i))
    /\ (forall r c, is_format (length m) r c = false -> cell m' r c = cell m r c).
Proof.
  intros Hn. destruct (putFormatInfo_written q mask m Hn) as (m' & Hp & Hl & Hw).
  exists m'. split; [done |]. split; [done |]. split.
  - intros i r c Hi Hh. rewrite Hw. by apply (written_hit q mask _ 15 i).
  - intros r c Hf. rewrite Hw. apply written_miss.
    intros i Hi. by apply is_format_false.
Qed.

(** X19: on a matrix of at least 17 rows, [putFormatInfo(mask)] writes bit
    [i] of the format word to row [r], column 8 and to row 8, column [c],
    for the [r] and [c] of every round [i], and leaves every other cell
    as it was. *)
Theorem putFormatInfo_cells (q : t) (mask : Z) (m : matrix) :
  (17 <= length m)%nat ->
  exists m',
    putFormatInfo q mask m = Ok m' /\ length m' = length m
    /\ (forall i, (i < 15)%nat ->
          mget m' (format_row (length m) i) 8 = Ok (Some (format_bit q mask i))
          /\ mget m' 8 (format_column (length m) i)
             = Ok (Some (format_bit q mask i)))
    /\ (forall r c, (r < length m)%nat -> is_format (length m) r c = false ->
          mget m' r c = mget m r c).
Proof.
  intros Hn. destruct (putFormatInfo_spec q mask m Hn) as (m' & Hp & Hl & Hh & Hf).
  exists m'. split; [done |]. split; [done |]. split.
  - intros i Hi.
    pose proof (format_row_eq (length m) i Hn Hi).
    rewrite !mget_cell by lia.
    split; f_equal; apply (Hh i); try done; apply hits_spec; auto.
  - intros r c Hr Hfalse. rewrite !mget_cell by lia. f_equal. by apply Hf.
Qed.

Lemma putFormatInfo_cells_witness :
  exists m',
    putFormatInfo (version_state 1) 2 (replicate 21 (replicate 21 (Some 0))) = Ok m'
    /\ length m' = length (replicate 21 (replicate 21 (Some 0)))
    /\ (forall i, (i < 15)%nat ->
          mget m' (format_row (length (replicate 21 (replicate 21 (Some 0)))) i) 8
          = Ok (Some (format_bit (version_state 1) 2 i))
          /\ mget m' 8 (format_column (length (replicate 21 (replicate 21 (Some 0)))) i)
             = Ok (Some (format_bit (version_state 1) 2 i)))
    /\ (forall r c, (r < length (replicate 21 (replicate 21 (Some 0))))%nat ->
          is_format (length (replicate 21 (replicate 21 (Some 0)))) r c = false ->
          mget m' r c = mget (replicate 21 (replicate 21 (Some 0))) r c).
Proof.
  apply (putFormatInfo_cells (version_state 1) 2
           (replicate 21 (replicate 21 (Some 0)))).
  vm_compute. lia.
Defined.

(** X20: for a level [e] in 0..3 and a mask in 0..7 the format word has 15
    bits; with the pattern 0x5412 taken off again it holds [8 * e + mask]
    above its 10 low bits and is a multiple of 0x537 over GF(2). *)
Theorem format_code_decodes (q : t) (e mask : Z) :
  ecclevel q = Some e -> 0 <= e <= 3 -> 0 <= mask <= 7 ->
  0 <= format_code q mask < 2 ^ 15
  /\ Z.shiftr (Z.lxor (format_code q mask) 0x5412) 10 = 8 * e + mask
  /\ exists a, 0 <= a < 2 ^ 5
               /\ Z.lxor (format_code q mask) 0x5412 = clmul 5 a 0x537.
Proof.
  intros He Hr Hm. unfold format_code. rewrite He. cbn [Js.int32_of].
  assert (Js.wrap32 e = e) as ->
    by (unfold Js.wrap32; rewrite Z.mod_small by lia; lia).
  assert (Z.lor (Z.shiftl e 3) mask = 8 * e + mask) as ->.
  { assert (e = 0 \/ e = 1 \/ e = 2 \/ e = 3) as [->|[->|[->| ->]]] by lia;
      assert (mask = 0 \/ mask = 1 \/ mask = 2 \/ mask = 3 \/ mask = 4
              \/ mask = 5 \/ mask = 6 \/ mask = 7)
        as [->|[->|[->|[->|[->|[->|[->| ->]]]]]]] by lia; reflexivity. }
  destruct (augumentbch_spec (8 * e + mask) 5 0x537 10)
    as (Hb & Hs & a & Ha & Hmul); [lia | simpl; lia | simpl; lia |].
  rewrite Z.lxor_assoc, Z.lxor_nilpotent, Z.lxor_0_r.
  split; [| split; [done | by exists a]].
  set (w := augumentbch (8 * e + mask) 5 1335 10) in *.
  split; [apply Z.lxor_nonneg; lia |].
  apply below_of_testbit; [apply Z.lxor_nonneg; lia | lia |].
  intros j Hj. rewrite Z.lxor_spec.
  rewrite (testbit_above w 15 j) by (simpl in Hb; lia).
  rewrite (testbit_above 0x5412 15 j) by (simpl; lia). done.
Qed.

Lemma format_code_decodes_witness :
  0 <= format_code (version_state 1) 5 < 2 ^ 15
  /\ Z.shiftr (Z.lxor (format_code (version_state 1) 5) 0x5412) 10 = 8 * 1 + 5
  /\ exists a, 0 <= a < 2 ^ 5
               /\ Z.lxor (format_code (version_state 1) 5) 0x5412
                  = clmul 5 a 0x537.
Proof.
  apply (format_code_decodes (version_state 1) 1 5); [reflexivity | lia | lia].
Defined.
End format_information.

(** ** The cells of the symbol *)

Section symbol.
Import QrCode.

Lemma rfor_preserves {S : Type} (P : S -> Prop) (lo hi : nat)
    (body : nat -> S -> result S) (s s' : S) :
  (forall i x x', body i x = Ok x' -> P x -> P x') ->
  rfor lo hi body s = Ok s' -> P s -> P s'.
Proof.
  intros Hbody. revert s'. induction hi as [|hi IH]; intros s' Hr Hs.
  - rewrite rfor_done in Hr by lia. by injection Hr as <-.
  - destruct (decide (lo <= hi)%nat) as [Hle|Hgt].
    + rewrite rfor_step in Hr by done.
      destruct (rfor lo hi body s) as [x|]; [| done]. cbn [rbind] in Hr.
      eapply Hbody; [done |]. by apply IH.
    + rewrite rfor_done in Hr by lia. by injection Hr as <-.
Qed.

Lemma rfor_throw {S : Type} (lo hi i : nat) (body : nat -> S -> result S)
    (s x : S) (e : error) :
  (lo <= i < hi)%nat ->
  rfor lo i body s = Ok x -> body i x = Throw e -> rfor lo hi body s = Throw e.
Proof.
  intros Hi Hx He. induction hi as [|hi IH]; [lia |].
  rewrite rfor_step by lia. destruct (decide (i = hi)) as [->|Hne].
  - by rewrite Hx.
  - by rewrite IH by lia.
Qed.

(** [reserved] marks the cell at row [r], column [c]. *)
Definition marks (reserved : matrix) (r c : nat) : bool :=
  Js.truthy (cell reserved r c).

(** The marked cells of [m'] are those of [m]. *)
Definition keeps (reserved m m' : matrix) : Prop :=
  forall r c, marks reserved r c = true -> cell m' r c = cell m r c.

Lemma keeps_refl (reserved m : matrix) : keeps reserved m m.
Proof. by intros r c _. Qed.

Lemma keeps_trans (reserved m1 m2 m3 : matrix) :
  keeps reserved m1 m2 -> keeps reserved m2 m3 -> keeps reserved m1 m3.
Proof. intros H12 H23 r c H. by rewrite H23, H12. Qed.

Lemma putData_cell_keeps b (reserved : matrix) (jj ii : Z) (m m' : matrix)
    (k k' : Z) :
  putData_cell b reserved jj ii (m, k) = Ok (m', k') -> keeps reserved m m'.
Proof.
  unfold putData_cell, mgetz, msetz.
  destruct (jj <? 0) eqn:Ejj; [done |]. apply Z.ltb_ge in Ejj.
  destruct (ii <? 0) eqn:Eii.
  - destruct (mget reserved (Z.to_nat jj) 0); [| done]. cbn [rbind Js.truthy negb].
    destruct (mget m (Z.to_nat jj) 0); [| done]. cbn [rbind].
    intros [= <- _]. apply keeps_refl.
  - apply Z.ltb_ge in Eii. unfold mget at 1.
    destruct (reserved !! Z.to_nat jj) as [rrow|] eqn:Hrrow; [| done].
    cbn [rbind]. destruct (Js.truthy (Js.cget rrow (Z.to_nat ii))) eqn:Hres.
    + cbn [negb]. intros [= <- _]. apply keeps_refl.
    + cbn [negb]. unfold mset.
      destruct (m !! Z.to_nat jj) as [row|] eqn:Hrow; [| done]. cbn [rbind].
      intros [= <- _]. intros r c Hm. unfold cell.
      destruct (decide (r = Z.to_nat jj)) as [->|Hne].
      * rewrite list_lookup_insert_eq by (by eapply lookup_lt_Some).
        rewrite Hrow. simpl. rewrite cget_cset. case_decide as Hc; [| done].
        subst c. unfold marks, cell in Hm. rewrite Hrrow in Hm. simpl in Hm.
        congruence.
      * by rewrite list_lookup_insert_ne.
Qed.

Lemma putData_pair_keeps b (reserved : matrix) (n : nat) (i dir : Z)
    (mk mk' : matrix * Z) :
  putData_pair b reserved n i dir mk = Ok mk' ->
  keeps reserved (fst mk) (fst mk').
Proof.
  unfold putData_pair. intros H.
  eapply (rfor_preserves (fun x => keeps reserved (fst mk) (fst x)));
    [| exact H | apply keeps_refl].
  intros j [x kx] [x' kx'] Hstep Hx. cbn [fst] in *.
  destruct (putData_cell b reserved _ i (x, kx)) as [[x1 k1]|] eqn:H1; [| done].
  cbn [rbind] in Hstep.
  eapply keeps_trans; [exact Hx |]. eapply keeps_trans.
  - eapply putData_cell_keeps, H1.
  - eapply putData_cell_keeps, Hstep.
Qed.

Lemma putData_loop_keeps (fuel : nat) b (reserved : matrix) (n : nat) (i dir : Z)
    (mk mk' : matrix * Z) :
  putData_loop fuel b reserved n i dir mk = Ok mk' ->
  keeps reserved (fst mk) (fst mk').
Proof.
  revert i dir mk. induction fuel as [|fuel IH]; intros i dir mk; cbn [putData_loop].
  - intros [= <-]. apply keeps_refl.
  - destruct (0 <=? i); [| intros [= <-]; apply keeps_refl].
    destruct (putData_pair b reserved n _ dir mk) as [mk1|] eqn:H1; [| done].
    cbn [rbind]. intros H. eapply keeps_trans.
    + eapply putData_pair_keeps, H1.
    + eapply IH, H.
Qed.

Lemma putData_keeps b (m reserved m' : matrix) :
  putData b (m, reserved) = Ok m' -> keeps reserved m m'.
Proof.
  unfold putData.
  destruct (putData_loop _ b reserved _ _ _ (m, 0)) as [mk|] eqn:H; [| done].
  cbn [rbind]. intros [= <-]. by apply (putData_loop_keeps _ _ _ _ _ _ _ _ H).
Qed.

(** The cells after [maskData]. *)
Lemma cell_masked (n : nat) f (reserved m : matrix) (r c : nat) :
  full n m -> (r < n)%nat -> (c < n)%nat ->
  cell (masked f reserved m) r c = mask_cell f reserved r c (cell m r c).
Proof.
  intros [Hl Hrows] Hr Hc.
  destruct (lookup_lt_is_Some_2 m r ltac:(lia)) as [row Hrow].
  destruct (Hrows r row Hrow) as [Hlr _].
  destruct (lookup_lt_is_Some_2 row c ltac:(lia)) as [x Hx].
  unfold cell. rewrite (masked_lookup _ _ _ _ _ Hrow), Hrow. simpl.
  unfold Js.cget. rewrite list_lookup_imap, Hx. done.
Qed.

(** [generate] up to the choice of the mask. *)
Lemma generate_steps (q : t) (s : list Z) (e : Z) :
  1 <= ver q <= 40 ->
  mode q = NUMERIC \/ mode q = ALPHANUMERIC \/ mode q = OCTET ->
  data q = DString s ->
  ecclevel q = Some e -> 0 <= e <= 3 ->
  let n := Z.to_nat (4 * ver q + 17) in
  exists bits w degrees blocks aligns d nb genpoly m0 r0 m1,
    nDataBits q = Ok (Some bits)
    /\ encode q (Z.shiftr (Js.wrap32 bits) 3) = Ok w
    /\ VERSIONS (ver q) = Some (degrees, blocks, aligns)
    /\ by_level degrees (ecclevel q) = Some d
    /\ by_level blocks (ecclevel q) = Some nb
    /\ GF256.GENPOLY !! Z.to_nat d = Some genpoly
    /\ makeBaseMatrix q = Ok (m0, r0) /\ length r0 = n
    /\ putData (augumentEccs w (Z.to_nat nb) genpoly) (m0, r0) = Ok m1
    /\ full n m1
    /\ generate q
       = (best <- findBestMask q (m1, r0) ;;;
          let '(m, mask) := best in
          m <- maskData mask (m, r0) ;;;
          putFormatInfo q mask m).
Proof.
  intros Hver Hmode Hdata Hecc He n.
  destruct (tables_defined (ver q) e Hver He)
    as (degrees & blocks & aligns & d & nb & genpoly & HV & Hd & Hnb & Hd0 & Hgenpoly).
  destruct (makeBaseMatrix_covered q Hver) as (m0 & r0 & Hbase & Hr0 & Hcov & H6).
  fold n in Hr0, Hcov, H6.
  destruct (nDataBits_range q e Hver Hecc He) as (bits & Hbits & _).
  destruct (encode_returns q s (Z.shiftr (Js.wrap32 bits) 3) Hdata Hmode) as [w Hw].
  destruct (putData_full n r0 Hr0 (augumentEccs w (Z.to_nat nb) genpoly) m0 Hcov
              ltac:(lia) H6) as (m1 & Hm1 & Hfull).
  exists bits, w, degrees, blocks, aligns, d, nb, genpoly, m0, r0, m1.
  rewrite Hecc. do 9 (split; [done |]).
  split; [done |].
  unfold generate. rewrite Hbits. cbn [rbind Js.int32_of]. rewrite Hw. cbn [rbind].
  rewrite HV, Hecc, Hd, Hnb. cbn [mbind option_bind]. rewrite Hd0, Hgenpoly, Hbase.
  cbn [rbind]. rewrite Hm1. cbn [rbind snd]. done.
Qed.

(** X21: with a mask of 8, which the constructor lets through,
    [generate()] throws a TypeError for every text, supported mode,
    version in 1..40 and known level: [MASKFUNCS[8]] is [undefined]. *)
Theorem generate_mask_8_throws (q : t) (s : list Z) (e : Z) :
  1 <= ver q <= 40 ->
  mode q = NUMERIC \/ mode q = ALPHANUMERIC \/ mode q = OCTET ->
  data q = DString s ->
  ecclevel q = Some e -> 0 <= e <= 3 ->
  mask q = 8 ->
  generate q = Throw TypeError.
Proof.
  intros Hver Hmode Hdata Hecc He Hmask.
  destruct (generate_steps q s e Hver Hmode Hdata Hecc He)
    as (bits & w & degrees & blocks & aligns & d & nb & genpoly & m0 & r0 & m1
        & _ & _ & _ & _ & _ & _ & Hbase & Hr0 & Hput & Hfull & ->).
  destruct (base_checked_state q Hver)
    as (m0' & r0' & nbits & Hbase' & _ & _ & _ & _ & _ & _ & _ & Hfree).
  rewrite Hbase in Hbase'. injection Hbase' as <- <-.
  unfold first_free_check in Hfree. apply andb_prop in Hfree as [Hfirst H9].
  apply negb_true_iff in H9.
  set (n := Z.to_nat (4 * ver q + 17)) in *.
  assert (21 <= n)%nat as Hn by (unfold n; lia).
  unfold findBestMask. rewrite Hmask. cbn [Z.ltb Z.compare rbind].
  unfold maskData. destruct Hfull as [Hl _]. rewrite Hl.
  assert (rfor 0 n (fun i => rfor 0 n (fun j => maskData_cell 8 r0 i j)) m1
          = Throw TypeError) as ->; [| done].
  apply (rfor_throw 0 n 0 _ m1 m1); [lia | by apply rfor_done |].
  apply (rfor_throw 0 n 9 _ m1 m1); [lia | |].
  - destruct (rfor_invariant (fun _ x => x = m1) 0 9
                (fun j => maskData_cell 8 r0 0 j) m1) as (x & Hx & ->);
      [lia | done | | done].
    intros j x Hj ->. exists m1. split; [| done].
    unfold maskData_cell. rewrite mget_cell by lia. cbn [rbind].
    by rewrite (all_below_spec _ _ j Hfirst) by lia.
  - unfold maskData_cell. rewrite mget_cell by lia. cbn [rbind].
    by rewrite H9.
Qed.

Lemma generate_mask_8_throws_witness :
  generate {| mode := OCTET; ecclevel := Some M; mask := 8;
              data := DString (units "abc"); ver := 3 |} = Throw TypeError.
Proof.
  apply (generate_mask_8_throws
           {| mode := OCTET; ecclevel := Some M; mask := 8;
              data := DString (units "abc"); ver := 3 |} (units "abc") 0);
    [simpl; lia | auto | reflexivity | reflexivity | lia | reflexivity].
Defined.

(** *** The choice of the mask *)

(** The matrix that [findBestMask] evaluates for a mask [k], and its
    score. *)
Definition trial_matrix (q : t) (reserved m : matrix) (k : Z) : result matrix :=
  m1 <- maskData k (m, reserved) ;;; putFormatInfo q k m1.

Definition trial_score (q : t) (reserved m : matrix) (k : Z) : result Z :=
  m2 <- trial_matrix q reserved m k ;;; Ok (evaluateMatrix m2).

(** Two matrices with the same cells outside the format information. *)
Definition agree (n : nat) (a b : matrix) : Prop :=
  forall r c, (r < n)%nat -> (c < n)%nat -> is_format n r c = false ->
              cell a r c = cell b r c.

Lemma is_format_true (n r c : nat) :
  is_format n r c = true -> exists i, (i < 15)%nat /\ hits n i r c = true.
Proof.
  unfold is_format. rewrite existsb_exists. intros (i & Hi & Hh).
  apply in_seq in Hi. exists i. split; [lia | done].
Qed.

Lemma maskData_cells (n : nat) (k : Z) (m reserved : matrix) :
  0 <= k <= 7 -> full n m -> length reserved = n ->
  exists f m',
    maskfunc k = Some f /\ maskData k (m, reserved) = Ok m' /\ full n m'
    /\ forall r c, (r < n)%nat -> (c < n)%nat ->
         cell m' r c = mask_cell f reserved r c (cell m r c).
Proof.
  intros Hk Hm Hres. destruct (maskfunc_defined k Hk) as [f Hf].
  exists f, (masked f reserved m). split; [done |].
  split; [| split; [by apply masked_full |]].
  - destruct Hm as [Hn Hrows]. apply maskData_masked; [done | | lia].
    intros i row Hi. destruct (Hrows i row Hi). lia.
  - intros r c Hr Hc. by apply (cell_masked n).
Qed.

Lemma putFormatInfo_cells_full (n : nat) (q : t) (k : Z) (m : matrix) :
  full n m -> (17 <= n)%nat ->
  exists m',
    putFormatInfo q k m = Ok m' /\ full n m'
    /\ (forall i r c, (i < 15)%nat -> hits n i r c = true ->
          cell m' r c = Some (format_bit q k i))
    /\ (forall r c, is_format n r c = false -> cell m' r c = cell m r c).
Proof.
  intros Hm Hn. destruct (putFormatInfo_full n q k m Hm ltac:(lia)) as (m' & Hp & Hf).
  assert (length m = n) as Hl by apply Hm.
  destruct (putFormatInfo_spec q k m ltac:(lia)) as (m'' & Hp' & _ & Hh & Hk).
  rewrite Hp in Hp'. injection Hp' as <-. rewrite Hl in Hh, Hk.
  by exists m'.
Qed.

(** One round of [findBestMask] on a matrix that differs from [m] in the
    format information only. *)
Lemma trial_step (n : nat) (q : t) (k : Z) (reserved x m : matrix) :
  (17 <= n)%nat -> length reserved = n -> 0 <= k <= 7 ->
  full n x -> full n m -> agree n x m ->
  exists x1 x2 x3,
    maskData k (x, reserved) = Ok x1 /\ putFormatInfo q k x1 = Ok x2
    /\ trial_matrix q reserved m k = Ok x2
    /\ maskData k (x2, reserved) = Ok x3 /\ full n x3 /\ agree n x3 m.
Proof.
  intros Hn Hres Hk Hx Hm Hag.
  destruct (maskData_cells n k x reserved Hk Hx Hres) as (f & x1 & Hf & Hx1 & Hfx1 & Hcx1).
  destruct (maskData_cells n k m reserved Hk Hm Hres) as (f' & m1 & Hf' & Hm1 & Hfm1 & Hcm1).
  rewrite Hf in Hf'. injection Hf' as <-.
  destruct (putFormatInfo_cells_full n q k x1 Hfx1 Hn) as (x2 & Hx2 & Hfx2 & Hhx & Hkx).
  destruct (putFormatInfo_cells_full n q k m1 Hfm1 Hn) as (m2 & Hm2 & Hfm2 & Hhm & Hkm).
  destruct (maskData_cells n k x2 reserved Hk Hfx2 Hres) as (f' & x3 & Hf' & Hx3 & Hfx3 & Hcx3).
  rewrite Hf in Hf'. injection Hf' as <-.
  assert (x2 = m2) as Heq.
  { apply (full_ext n); [done | done |]. intros r c Hr Hc.
    destruct (is_format n r c) eqn:E.
    - destruct (is_format_true n r c E) as (i & Hi & Hh).
      by rewrite (Hhx i r c Hi Hh), (Hhm i r c Hi Hh).
    - rewrite Hkx, Hkm, Hcx1, Hcm1 by done. by rewrite Hag. }
  exists x1, x2, x3. split; [done |]. split; [done |]. split.
  - unfold trial_matrix. rewrite Hm1. cbn [rbind]. by rewrite Hm2, Heq.
  - split; [done |]. split; [done |]. intros r c Hr Hc E.
    rewrite Hcx3, Hkx, Hcx1 by done.
    destruct (full_cell n x r c Hx Hr Hc) as (v & Hv & Hb).
    rewrite mask_cell_twice by (rewrite Hv; by destruct Hb as [->| ->]).
    by apply Hag.
Qed.

(** The choice of [findBestMask] when no mask is given. *)
Lemma findBestMask_spec (n : nat) (q : t) (m reserved : matrix) :
  full n m -> length reserved = n -> (17 <= n)%nat -> mask q < 0 ->
  exists m' best sbest,
    findBestMask q (m, reserved) = Ok (m', best)
    /\ 0 <= best <= 7
    /\ trial_score q reserved m best = Ok sbest
    /\ (forall k, 0 <= k <= 7 ->
          exists sk, trial_score q reserved m k = Ok sk
                     /\ sbest <= sk /\ (k < best -> sbest < sk))
    /\ full n m' /\ agree n m' m.
Proof.
  intros Hm Hres Hn Hmask. unfold findBestMask.
  rewrite (proj2 (Z.ltb_lt (mask q) 0)) by done.
  destruct (trial_step n q 0 reserved m m Hn Hres ltac:(lia) Hm Hm)
    as (x1 & x2 & x3 & H1 & H2 & Ht & H3 & Hf3 & Ha3); [by intros r c _ _ _ |].
  rewrite H1. cbn [rbind]. rewrite H2. cbn [rbind]. rewrite H3. cbn [rbind].
  cbv zeta.
  match goal with
  | |- context [rfor 1 8 ?body ?init] =>
      destruct (rfor_invariant
                  (fun k (st : matrix * Z * Z) =>
                     full n (fst (fst st)) /\ agree n (fst (fst st)) m
                     /\ 0 <= snd (fst st) < Z.of_nat k
                     /\ trial_score q reserved m (snd (fst st)) = Ok (snd st)
                     /\ forall j, 0 <= j < Z.of_nat k ->
                          exists sj, trial_score q reserved m j = Ok sj
                                     /\ snd st <= sj
                                     /\ (j < snd (fst st) -> snd st < sj))
                  1 8 body init) as (st & -> & Hf & Ha & Hb & Hs & Hall)
  end.
  - lia.
  - cbn [fst snd]. split; [done |]. split; [done |]. split; [lia |].
    assert (trial_score q reserved m 0 = Ok (evaluateMatrix x2)) as Hs0
      by (unfold trial_score; by rewrite Ht).
    split; [done |]. intros j Hj. assert (j = 0) as -> by lia.
    exists (evaluateMatrix x2). split; [done |]. lia.
  - intros k [[x bm] bs] Hk (Hfx & Hax & Hbm & Hbs & Hall). cbn [fst snd] in *.
    cbv beta iota.
    destruct (trial_step n q (Z.of_nat k) reserved x m Hn Hres ltac:(lia) Hfx Hm Hax)
      as (y1 & y2 & y3 & Hy1 & Hy2 & Hty & Hy3 & Hfy3 & Hay3).
    rewrite Hy1. cbn [rbind]. rewrite Hy2. cbn [rbind].
    assert (trial_score q reserved m (Z.of_nat k) = Ok (evaluateMatrix y2)) as Hsk
      by (unfold trial_score; by rewrite Hty).
    destruct (evaluateMatrix y2 <? bs) eqn:E; rewrite Hy3; cbn [rbind];
      eexists; (split; [reflexivity |]); cbn [fst snd];
      (split; [done |]); (split; [done |]).
    + apply Z.ltb_lt in E. split; [lia |]. split; [done |].
      intros j Hj. destruct (decide (j = Z.of_nat k)) as [->|Hne].
      * exists (evaluateMatrix y2). split; [done |]. lia.
      * destruct (Hall j ltac:(lia)) as (sj & Hsj & Hle & _).
        exists sj. split; [done |]. lia.
    + apply Z.ltb_ge in E. split; [lia |]. split; [done |].
      intros j Hj. destruct (decide (j = Z.of_nat k)) as [->|Hne].
      * exists (evaluateMatrix y2). split; [done |]. lia.
      * destruct (Hall j ltac:(lia)) as (sj & Hsj & Hle & Hlt).
        exists sj. split; [done |]. split; [done | exact Hlt].
  - cbn [rbind]. destruct st as [[x bm] bs]. cbn [fst snd] in *.
    exists x, bm, bs. split; [done |]. split; [lia |]. split; [done |].
    split; [| done]. intros k Hk. apply Hall. lia.
Qed.

(** X22: when no mask is given, [findBestMask()] on a square matrix of
    bits of at least 17 rows sets the mask, among 0..7, whose masked
    matrix with its format information has the least score of
    [evaluateMatrix()], the first of them when several have it; the
    matrix it leaves is again a square of bits and differs from the one
    it was given in the format information only. *)
Theorem findBestMask_minimal (n : nat) (q : t) (m reserved : matrix) :
  length m = n -> square_bits m = true -> length reserved = n ->
  (17 <= n)%nat -> mask q < 0 ->
  exists m' best sbest,
    findBestMask q (m, reserved) = Ok (m', best)
    /\ 0 <= best <= 7
    /\ trial_score q reserved m best = Ok sbest
    /\ (forall k, 0 <= k <= 7 ->
          exists sk, trial_score q reserved m k = Ok sk
                     /\ sbest <= sk /\ (k < best -> sbest < sk))
    /\ length m' = n /\ square_bits m' = true /\ agree n m' m.
Proof.
  intros Hl Hsq Hres Hn Hmask.
  destruct (findBestMask_spec n q m reserved) as (m' & best & sbest & H);
    [by apply full_square_bits | done | done | done |].
  destruct H as (Hf & Hb & Hs & Hall & Hfull & Hag).
  apply full_square_bits in Hfull as [Hl' Hsq'].
  by exists m', best, sbest.
Qed.

Lemma findBestMask_minimal_witness :
  let m := replicate 17 (replicate 17 (Some 1)) in
  let reserved := replicate 17 [] in
  exists m' best sbest,
    findBestMask (version_state 1) (m, reserved) = Ok (m', best)
    /\ 0 <= best <= 7
    /\ trial_score (version_state 1) reserved m best = Ok sbest
    /\ (forall k, 0 <= k <= 7 ->
          exists sk, trial_score (version_state 1) reserved m k = Ok sk
                     /\ sbest <= sk /\ (k < best -> sbest < sk))
    /\ length m' = 17%nat /\ square_bits m' = true /\ agree 17 m' m.
Proof.
  apply (findBestMask_minimal 17 (version_state 1)
           (replicate 17 (replicate 17 (Some 1))) (replicate 17 []));
    [reflexivity | reflexivity | reflexivity | lia | simpl; lia].
Defined.

(** *** The symbol that [generate] returns *)

Lemma format_marked (n : nat) (reserved : matrix) (i r c : nat) :
  format_check n reserved = true -> (i < 15)%nat -> hits n i r c = true ->
  marks reserved r c = true.
Proof.
  unfold format_check. intros Hf Hi Hh. apply andb_prop in Hf as [Hrows Hcols].
  rewrite forallb_forall in Hrows. rewrite forallb_forall in Hcols.
  apply hits_spec in Hh as [[-> ->]|[-> ->]]; unfold marks.
  - unfold format_column.
    destruct (lookup_lt_is_Some_2 (format_columns (Z.of_nat n)) i) as [x Hx];
      [simpl; lia |].
    rewrite Hx. simpl. apply Hcols, list_elem_of_In.
    by eapply list_elem_of_lookup_2.
  - unfold format_row.
    destruct (lookup_lt_is_Some_2 (format_rows (Z.of_nat n)) i) as [x Hx];
      [simpl; lia |].
    rewrite Hx. simpl. apply Hrows, list_elem_of_In.
    by eapply list_elem_of_lookup_2.
Qed.

(** The mask that [generate] applies. *)
Lemma generate_mask (n : nat) (q : t) (m1 r0 : matrix) :
  full n m1 -> length r0 = n -> (17 <= n)%nat -> mask q <= 7 ->
  exists m' k,
    findBestMask q (m1, r0) = Ok (m', k)
    /\ 0 <= k <= 7 /\ (0 <= mask q -> k = mask q)
    /\ full n m' /\ agree n m' m1.
Proof.
  intros Hf Hr Hn Hmask. destruct (Z_lt_le_dec (mask q) 0) as [Hneg|Hpos].
  - destruct (findBestMask_spec n q m1 r0 Hf Hr Hn Hneg)
      as (m' & k & _ & Hb & Hk & _ & _ & Hf' & Ha).
    exists m', k. split; [done |]. split; [done |]. split; [lia | done].
  - exists m1, (mask q). unfold findBestMask.
    rewrite (proj2 (Z.ltb_ge (mask q) 0)) by done.
    split; [done |]. split; [lia |]. split; [done |]. split; [done |].
    by intros r c _ _ _.
Qed.

(** X23: for a text, a supported mode, a version in 1..40, a known level
    and a mask of at most 7, [generate()] returns a matrix [m]. With [w]
    the words of [encode(nDataBits() >> 3)], [b] the words of
    [augumentEccs(w, nblocks, genpoly)] for the block count and the
    generator polynomial of the version and level, [m1] the matrix of
    [putData(b)] on the base matrix, and [k] the mask that was given or
    that [findBestMask()] has chosen on [m1], the matrix [m] holds: the
    bits of the format word of [k] in the cells of the format
    information; in every other reserved cell what [makeBaseMatrix()]
    wrote; and in every unreserved cell the bit of [m1], inverted where
    the mask function of [k] holds. *)
Theorem generate_cells (q : t) (s : list Z) (e : Z) :
  1 <= ver q <= 40 ->
  mode q = NUMERIC \/ mode q = ALPHANUMERIC \/ mode q = OCTET ->
  data q = DString s ->
  ecclevel q = Some e -> 0 <= e <= 3 ->
  mask q <= 7 ->
  let n := Z.to_nat (4 * ver q + 17) in
  exists m bits w degrees blocks aligns d nb genpoly m0 r0 m1 m' k f,
    generate q = Ok m
    /\ nDataBits q = Ok (Some bits)
    /\ encode q (Z.shiftr (Js.wrap32 bits) 3) = Ok w
    /\ VERSIONS (ver q) = Some (degrees, blocks, aligns)
    /\ by_level degrees (ecclevel q) = Some d
    /\ by_level blocks (ecclevel q) = Some nb
    /\ GF256.GENPOLY !! Z.to_nat d = Some genpoly
    /\ makeBaseMatrix q = Ok (m0, r0)
    /\ putData (augumentEccs w (Z.to_nat nb) genpoly) (m0, r0) = Ok m1
    /\ findBestMask q (m1, r0) = Ok (m', k)
    /\ 0 <= k <= 7 /\ (0 <= mask q -> k = mask q)
    /\ maskfunc k = Some f
    /\ forall r c, (r < n)%nat -> (c < n)%nat ->
         (forall i, (i < 15)%nat -> hits n i r c = true ->
            cell m r c = Some (format_bit q k i))
         /\ (is_format n r c = false -> marks r0 r c = true ->
             cell m r c = cell m0 r c)
         /\ (marks r0 r c = false ->
             exists v, cell m1 r c = Some v
                       /\ cell m r c
                          = Some (Z.lxor v (if f (Z.of_nat r) (Z.of_nat c)
                                            then 1 else 0))).
Proof.
  intros Hver Hmode Hdata Hecc He Hmask n.
  destruct (generate_steps q s e Hver Hmode Hdata Hecc He)
    as (bits & w & degrees & blocks & aligns & d & nb & genpoly & m0 & r0 & m1
        & Hbits & Hw & HV & Hd & Hnb & Hgenpoly & Hbase & Hr0 & Hput & Hfull & Hgen).
  fold n in Hr0, Hfull.
  destruct (base_checked_state q Hver)
    as (m0' & r0' & nbits & Hbase' & _ & _ & _ & _ & _ & _ & Hformat & _).
  rewrite Hbase in Hbase'. injection Hbase' as <- <-.
  change (Z.to_nat (getSizeByVer q)) with n in Hformat.
  assert (17 <= n)%nat as Hn by (unfold n; lia).
  destruct (generate_mask n q m1 r0 Hfull Hr0 Hn Hmask)
    as (m' & k & Hbest & Hk & Hgiven & Hf' & Hag).
  destruct (maskData_cells n k m' r0 Hk Hf' Hr0) as (f & m3 & Hf & Hm3 & Hf3 & Hc3).
  destruct (putFormatInfo_cells_full n q k m3 Hf3 Hn) as (m4 & Hm4 & Hf4 & Hh4 & Hk4).
  exists m4, bits, w, degrees, blocks, aligns, d, nb, genpoly, m0, r0, m1, m', k, f.
  split; [by rewrite Hgen, Hbest; cbn [rbind]; rewrite Hm3; cbn [rbind] |].
  do 12 (split; [done |]).
  intros r c Hr Hc. split; [| split].
  - intros i Hi Hh. by apply (Hh4 i).
  - intros Hnf Hmk. rewrite Hk4, Hc3 by done. unfold mask_cell.
    unfold marks, cell in Hmk. rewrite Hmk.
    rewrite (Hag r c Hr Hc Hnf). by apply (putData_keeps _ m0 r0 m1 Hput).
  - intros Hmk. assert (is_format n r c = false) as Hnf.
    { destruct (is_format n r c) eqn:E; [| done].
      destruct (is_format_true n r c E) as (i & Hi & Hh).
      rewrite (format_marked n r0 i r c Hformat Hi Hh) in Hmk. done. }
    destruct (full_cell n m1 r c Hfull Hr Hc) as (v & Hv & Hb).
    exists v. split; [done |]. rewrite Hk4, Hc3 by done. unfold mask_cell.
    unfold marks, cell in Hmk. rewrite Hmk.
    rewrite (Hag r c Hr Hc Hnf), Hv. cbn [Js.int32_of].
    by destruct Hb as [->| ->].
Qed.

Lemma generate_cells_witness :
  let q := {| mode := ALPHANUMERIC; ecclevel := Some Q; mask := -1;
              data := DString (units "HELLO WORLD"); ver := 1 |} in
  let n := Z.to_nat (4 * ver q + 17) in
  exists m bits w degrees blocks aligns d nb genpoly m0 r0 m1 m' k f,
    generate q = Ok m
    /\ nDataBits q = Ok (Some bits)
    /\ encode q (Z.shiftr (Js.wrap32 bits) 3) = Ok w
    /\ VERSIONS (ver q) = Some (degrees, blocks, aligns)
    /\ by_level degrees (ecclevel q) = Some d
    /\ by_level blocks (ecclevel q) = Some nb
    /\ GF256.GENPOLY !! Z.to_nat d = Some genpoly
    /\ makeBaseMatrix q = Ok (m0, r0)
    /\ putData (augumentEccs w (Z.to_nat nb) genpoly) (m0, r0) = Ok m1
    /\ findBestMask q (m1, r0) = Ok (m', k)
    /\ 0 <= k <= 7 /\ (0 <= mask q -> k = mask q)
    /\ maskfunc k = Some f
    /\ forall r c, (r < n)%nat -> (c < n)%nat ->
         (forall i, (i < 15)%nat -> hits n i r c = true ->
            cell m r c = Some (format_bit q k i))
         /\ (is_format n r c = false -> marks r0 r c = true ->
             cell m r c = cell m0 r c)
         /\ (marks r0 r c = false ->
             exists v, cell m1 r c = Some v
                       /\ cell m r c
                          = Some (Z.lxor v (if f (Z.of_nat r) (Z.of_nat c)
                                            then 1 else 0))).
Proof.
  apply (generate_cells
           {| mode := ALPHANUMERIC; ecclevel := Some Q; mask := -1;
              data := DString (units "HELLO WORLD"); ver := 1 |}
           (units "HELLO WORLD") 3);
    [simpl; lia | right; left; reflexivity | reflexivity | reflexivity
     | lia | simpl; lia].
Defined.
End symbol.

(** ** The interleaving of the code words *)

Section interleaving.
Import QrCode.

(** The index in [poly] of the first word of block [j]: the blocks before
    [pivot] have [subsize] words and the others one more. *)
Definition block_start (subsize pivot j : nat) : nat :=
  (j * subsize + (j - pivot))%nat.

(** Block [j] of [poly], as [augumentEccs] cuts it. *)
Definition block (poly : list Z) (nblocks j : nat) : list Z :=
  let subsize := (length poly / nblocks)%nat in
  let pivot := (nblocks - length poly mod nblocks)%nat in
  take (block_start subsize pivot (S j) - block_start subsize pivot j)
    (drop (block_start subsize pivot j) poly).

Lemma for_append {A : Type} (lo hi : nat) (g : nat -> A) (r : list A) :
  for_ lo hi (fun j r => r ++ [g j]) r = r ++ (g <$> seq lo (hi - lo)).
Proof.
  unfold for_. generalize (seq lo (hi - lo)). intros l. revert r.
  induction l as [|j l IH]; intros r; cbn [foldl fmap list_fmap].
  - by rewrite app_nil_r.
  - rewrite IH, <- app_assoc. done.
Qed.

Lemma for_append_rows {A : Type} (a b : nat) (g : nat -> nat -> A) (r : list A) :
  for_ 0 a (fun i r => for_ 0 b (fun j r => r ++ [g i j]) r) r
  = r ++ concat ((fun i => g i <$> seq 0 b) <$> seq 0 a).
Proof.
  unfold for_ at 1. rewrite Nat.sub_0_r. generalize (seq 0 a). intros l. revert r.
  induction l as [|i l IH]; intros r; simpl.
  - by rewrite app_nil_r.
  - rewrite IH, for_append, Nat.sub_0_r, <- app_assoc. done.
Qed.

Lemma foldl_subsizes (l : list nat) (d : nat) (subsizes : list nat)
    (subsize0 : nat) :
  foldl (fun s (i : nat) =>
           (fun (_ : nat) '(subsizes, subsize0) =>
              (subsizes ++ [subsize0], (subsize0 + d)%nat)) i s)
    (subsizes, subsize0) l
  = (subsizes ++ ((fun t => (subsize0 + t * d)%nat) <$> seq 0 (length l)),
     (subsize0 + length l * d)%nat).
Proof.
  revert subsizes subsize0.
  induction l as [|j l IH]; intros subsizes subsize0; cbn [foldl length seq].
  - simpl. rewrite app_nil_r. f_equal. lia.
  - rewrite IH. f_equal.
    + rewrite <- app_assoc. f_equal. cbn [fmap list_fmap app]. f_equal; [lia |].
      rewrite <- fmap_S_seq, <- list_fmap_compose. apply list_fmap_ext.
      intros _ t _. simpl. lia.
    + lia.
Qed.

Lemma for_subsizes (lo hi d : nat) (subsizes : list nat) (subsize0 : nat) :
  for_ lo hi (fun _ '(subsizes, subsize0) =>
                (subsizes ++ [subsize0], (subsize0 + d)%nat))
    (subsizes, subsize0)
  = (subsizes ++ ((fun t => (subsize0 + t * d)%nat) <$> seq 0 (hi - lo)),
     (subsize0 + (hi - lo) * d)%nat).
Proof. unfold for_. by rewrite foldl_subsizes, length_seq. Qed.

(** The entries of [subsizes]. *)
Lemma subsizes_lookup (subsize pivot nblocks j : nat) :
  (pivot <= nblocks)%nat -> (j <= nblocks)%nat ->
  default 0%nat
    (((((fun t => (0 + t * subsize)%nat) <$> seq 0 pivot)
       ++ ((fun t => ((0 + pivot * subsize) + t * (subsize + 1))%nat)
           <$> seq 0 (nblocks - pivot)))
      ++ [((0 + pivot * subsize) + (nblocks - pivot) * (subsize + 1))%nat]) !! j)
  = block_start subsize pivot j.
Proof.
  intros Hp Hj. unfold block_start.
  destruct (decide (j < pivot)%nat) as [H1|H1].
  - rewrite <- app_assoc, lookup_app_l by (rewrite length_fmap, length_seq; lia).
    rewrite list_lookup_fmap, lookup_seq_lt by lia. simpl. lia.
  - rewrite <- app_assoc, lookup_app_r by (rewrite length_fmap, length_seq; lia).
    rewrite length_fmap, length_seq.
    destruct (decide (j < nblocks)%nat) as [H2|H2].
    + rewrite lookup_app_l by (rewrite length_fmap, length_seq; lia).
      rewrite list_lookup_fmap, lookup_seq_lt by lia. simpl. nia.
    + rewrite lookup_app_r by (rewrite length_fmap, length_seq; lia).
      rewrite length_fmap, length_seq.
      replace (j - pivot - (nblocks - pivot))%nat with 0%nat by lia. simpl.
      assert (j = nblocks) as -> by lia. nia.
Qed.

Lemma fmap_seq_ext {A : Type} (f g : nat -> A) (lo len : nat) :
  (forall j, (lo <= j < lo + len)%nat -> f j = g j) ->
  f <$> seq lo len = g <$> seq lo len.
Proof.
  intros H. apply list_fmap_ext. intros i j Hj.
  apply lookup_seq in Hj as [-> Hi]. apply H. lia.
Qed.

(** The words that [augumentEccs] returns, with its loops resolved. *)
Lemma augumentEccs_spec (poly : list Z) (nblocks : nat) (genpoly : list Z) :
  (1 <= nblocks)%nat ->
  let subsize := (length poly / nblocks)%nat in
  let pivot := (nblocks - length poly mod nblocks)%nat in
  let start := block_start subsize pivot in
  augumentEccs poly nblocks genpoly
  = concat ((fun i => (fun j => word poly (start j + i)) <$> seq 0 nblocks)
            <$> seq 0 subsize)
    ++ ((fun j => word poly (start (S j) - 1)) <$> seq pivot (nblocks - pivot))
    ++ concat ((fun i =>
                  (fun j => Js.get (calculateEcc (block poly nblocks j) genpoly) i)
                  <$> seq 0 nblocks)
               <$> seq 0 (length genpoly)).
Proof.
  intros Hn subsize pivot start. unfold augumentEccs. fold subsize. fold pivot.
  assert (pivot <= nblocks)%nat as Hp by (unfold pivot; lia).
  rewrite (for_subsizes 0 pivot subsize [] 0).
  rewrite (for_subsizes pivot nblocks (subsize + 1)).
  cbv zeta.
  rewrite for_append_rows, for_append_rows, for_append, !app_nil_l.
  rewrite (for_append 0 nblocks), ?app_nil_l, ?Nat.sub_0_r.
  rewrite <- app_assoc. f_equal; [| f_equal].
  - f_equal. apply fmap_seq_ext. intros i Hi. cbv beta.
    apply fmap_seq_ext. intros j Hj. cbv beta.
    do 2 f_equal. exact (subsizes_lookup subsize pivot nblocks j Hp ltac:(lia)).
  - apply fmap_seq_ext. intros j Hj. cbv beta.
    do 2 f_equal. exact (subsizes_lookup subsize pivot nblocks (S j) Hp ltac:(lia)).
  - f_equal. apply fmap_seq_ext. intros i Hi. cbv beta.
    apply fmap_seq_ext. intros j Hj. cbv beta.
    rewrite list_lookup_fmap, lookup_seq_lt by lia. simpl. unfold block.
    cbv zeta.
    pose proof (subsizes_lookup subsize pivot nblocks j Hp ltac:(lia)) as E1.
    pose proof (subsizes_lookup subsize pivot nblocks (S j) Hp ltac:(lia)) as E2.
    do 3 f_equal; [f_equal; [exact E2 | exact E1] | f_equal; exact E1].
Qed.

(** X24: for a block count of at least one, the words that [augumentEccs]
    returns are: the data words of the blocks, read across the blocks
    word by word; the last words of the longer blocks; and the words of
    [calculateEcc] for the blocks, read across the blocks in the same
    way. Block [j] starts at [j * subsize + max 0 (j - pivot)]. *)
Theorem augumentEccs_interleaves (poly : list Z) (nblocks : nat) (genpoly : list Z) :
  (1 <= nblocks)%nat ->
  let subsize := (length poly / nblocks)%nat in
  let pivot := (nblocks - length poly mod nblocks)%nat in
  let start := block_start subsize pivot in
  augumentEccs poly nblocks genpoly
  = concat ((fun i => (fun j => word poly (start j + i)) <$> seq 0 nblocks)
            <$> seq 0 subsize)
    ++ ((fun j => word poly (start (S j) - 1)) <$> seq pivot (nblocks - pivot))
    ++ concat ((fun i =>
                  (fun j => Js.get (calculateEcc (block poly nblocks j) genpoly) i)
                  <$> seq 0 nblocks)
               <$> seq 0 (length genpoly)).
Proof. apply augumentEccs_spec. Qed.

Lemma augumentEccs_interleaves_witness :
  let poly := [1; 2; 3; 4; 5; 6; 7] in
  let subsize := (length poly / 2)%nat in
  let pivot := (2 - length poly mod 2)%nat in
  let start := block_start subsize pivot in
  augumentEccs poly 2 [25; 1]
  = concat ((fun i => (fun j => word poly (start j + i)) <$> seq 0 2)
            <$> seq 0 subsize)
    ++ ((fun j => word poly (start (S j) - 1)) <$> seq pivot (2 - pivot))
    ++ concat ((fun i =>
                  (fun j => Js.get (calculateEcc (block poly 2 j) [25; 1]) i)
                  <$> seq 0 2)
               <$> seq 0 (length [25; 1])).
Proof. apply (augumentEccs_interleaves [1; 2; 3; 4; 5; 6; 7] 2 [25; 1]). lia. Defined.

(** *** The blocks *)

Section blocks.
Variable poly : list Z.
Variable nblocks : nat.
Hypothesis nblocks_pos : (1 <= nblocks)%nat.

Definition subsize_of : nat := (length poly / nblocks)%nat.
Definition pivot_of : nat := (nblocks - length poly mod nblocks)%nat.
Definition start_of (j : nat) : nat := block_start subsize_of pivot_of j.

Lemma start_of_S (j : nat) :
  start_of (S j)
  = (start_of j + subsize_of + (if decide (pivot_of <= j)%nat then 1 else 0))%nat.
Proof. unfold start_of, block_start. case_decide; lia. Qed.

Lemma start_of_last : start_of nblocks = length poly.
Proof.
  unfold start_of, block_start, subsize_of, pivot_of.
  pose proof (Nat.div_mod_eq (length poly) nblocks) as Hd.
  pose proof (Nat.mod_upper_bound (length poly) nblocks ltac:(lia)) as Hb.
  nia.
Qed.

Lemma start_of_mono (i j : nat) : (i <= j)%nat -> (start_of i <= start_of j)%nat.
Proof. unfold start_of, block_start. nia. Qed.

Lemma block_unfold (j : nat) :
  block poly nblocks j = take (start_of (S j) - start_of j) (drop (start_of j) poly).
Proof. reflexivity. Qed.

Lemma block_length (j : nat) :
  (j < nblocks)%nat ->
  length (block poly nblocks j)
  = (subsize_of + (if decide (pivot_of <= j)%nat then 1 else 0))%nat.
Proof.
  intros Hj. rewrite block_unfold, length_take, length_drop.
  pose proof (start_of_mono (S j) nblocks ltac:(lia)) as Hm.
  rewrite start_of_last in Hm. rewrite start_of_S in *. lia.
Qed.

Lemma block_lookup (j i : nat) :
  (i < start_of (S j) - start_of j)%nat ->
  block poly nblocks j !! i = poly !! (start_of j + i)%nat.
Proof.
  intros Hi. rewrite block_unfold, lookup_take_lt, lookup_drop by done. done.
Qed.

Lemma blocks_concat (k : nat) :
  (k <= nblocks)%nat ->
  concat (block poly nblocks <$> seq 0 k) = take (start_of k) poly.
Proof.
  induction k as [|k IH]; intros Hk.
  - simpl. unfold start_of, block_start. simpl. by rewrite take_0.
  - rewrite seq_S, fmap_app, concat_app, IH by lia. simpl. rewrite app_nil_r.
    rewrite block_unfold, take_take_drop. f_equal.
    pose proof (start_of_mono k (S k) ltac:(lia)). lia.
Qed.

Lemma word_block (j i : nat) (x : Z) :
  block poly nblocks j !! i = Some x ->
  word poly (start_of j + i) = Js.Num x.
Proof.
  intros Hx. assert (i < start_of (S j) - start_of j)%nat as Hi.
  { apply lookup_lt_Some in Hx. rewrite block_unfold, length_take in Hx. lia. }
  rewrite block_lookup in Hx by done. unfold word. by rewrite Hx.
Qed.
End blocks.

Lemma concat_rows_length {A : Type} (a b : nat) (g : nat -> nat -> A) :
  length (concat ((fun i => g i <$> seq 0 b) <$> seq 0 a)) = (a * b)%nat.
Proof.
  induction a as [|a IH]; [done |].
  rewrite seq_S, fmap_app, concat_app, length_app, IH. simpl.
  rewrite app_nil_r, length_fmap, length_seq. lia.
Qed.

Lemma concat_rows_lookup {A : Type} (a b i j : nat) (g : nat -> nat -> A) :
  (i < a)%nat -> (j < b)%nat ->
  concat ((fun i => g i <$> seq 0 b) <$> seq 0 a) !! (i * b + j)%nat
  = Some (g i j).
Proof.
  intros Hi Hj. induction a as [|a IH]; [lia |].
  rewrite seq_S, fmap_app, concat_app. simpl. rewrite app_nil_r.
  destruct (decide (i = a)) as [->|Hne].
  - rewrite lookup_app_r by (rewrite concat_rows_length; lia).
    rewrite concat_rows_length.
    replace (a * b + j - a * b)%nat with j by lia.
    by rewrite list_lookup_fmap, lookup_seq_lt.
  - rewrite lookup_app_l by (rewrite concat_rows_length; nia). apply IH. lia.
Qed.

(** The remainder that [calculateEcc] leaves, as the operators read it. *)
Lemma calculateEcc_remainder (D G : list Z) :
  Forall is_byte D -> exps G ->
  Forall is_byte (ecc_bytes (length G) (calculateEcc D G))
  /\ exists Q,
       length Q = length D
       /\ poly_mul Q (1 :: (alpha <$> G))
          = D ++ ecc_bytes (length G) (calculateEcc D G).
Proof.
  intros HD HG. destruct (calculateEcc_divide D G HD HG) as (a & -> & Hg & Hv).
  unfold ecc_bytes. rewrite view_drop. split.
  - apply Forall_forall. intros x Hx. apply list_elem_of_lookup in Hx as [p Hp].
    pose proof (lookup_lt_Some _ _ _ Hp) as Hl.
    rewrite length_drop, view_length in Hl.
    rewrite lookup_drop, view_lookup in Hp by lia. injection Hp as <-.
    by eapply val_byte.
  - rewrite Hv.
    set (R := divide (alpha <$> G) (length D) (D ++ replicate (length G) 0)).
    assert (length R = (length D + length G)%nat) as HR
      by (unfold R; rewrite divide_length, length_app, length_replicate; lia).
    exists (take (length D) R). split; [rewrite length_take; lia |].
    unfold R at 1. rewrite divide_poly_mul
      by (rewrite length_app, length_replicate, length_fmap; lia).
    fold R. rewrite xor_prefix_app by (by rewrite length_replicate).
    rewrite xor_prefix_zeros. f_equal.
    replace (length G) with (length (drop (length D) R))
      by (rewrite length_drop; lia).
    apply zeros_xor_prefix.
Qed.

(** X25: for a message of bytes, generator exponents in 0..254 and a block
    count of at least one, the word of [augumentEccs] at index
    [poly.length + i * nblocks + j] reads, as the operators of [putData]
    read it, as byte [i] of a remainder [E] that completes block [j] to a
    multiple of the generator polynomial over GF(2^8), also where
    [calculateEcc] left that word [undefined]. *)
Theorem augumentEccs_ecc_words (poly : list Z) (nblocks : nat) (genpoly : list Z)
    (j : nat) :
  Forall is_byte poly -> Forall (fun e => 0 <= e <= 254) genpoly ->
  (1 <= nblocks)%nat -> (j < nblocks)%nat ->
  exists E Q,
    length E = length genpoly /\ Forall is_byte E
    /\ length Q = length (block poly nblocks j)
    /\ poly_mul Q (1 :: (alpha <$> genpoly)) = block poly nblocks j ++ E
    /\ forall i, (i < length genpoly)%nat ->
         E !! i = Some (val (augumentEccs poly nblocks genpoly)
                          (length poly + i * nblocks + j)).
Proof.
  intros Hpoly Hg Hn Hj.
  assert (Forall is_byte (block poly nblocks j)) as Hblock
    by (unfold block; cbv zeta; by apply Forall_take, Forall_drop).
  destruct (calculateEcc_remainder (block poly nblocks j) genpoly Hblock Hg)
    as (HE & Q & HQ & Hmul).
  exists (ecc_bytes (length genpoly) (calculateEcc (block poly nblocks j) genpoly)), Q.
  split; [apply view_length |]. split; [done |]. split; [done |]. split; [done |].
  intros i Hi. unfold ecc_bytes. rewrite view_lookup by done. f_equal.
  unfold val. f_equal. rewrite augumentEccs_spec by done. cbv zeta.
  unfold Js.get at 2.
  pose proof (Nat.div_mod_eq (length poly) nblocks) as Hd.
  pose proof (Nat.mod_upper_bound (length poly) nblocks ltac:(lia)) as Hb.
  rewrite lookup_app_r by (rewrite concat_rows_length; nia).
  rewrite concat_rows_length.
  rewrite lookup_app_r by (rewrite length_fmap, length_seq; nia).
  rewrite length_fmap, length_seq.
  replace (length poly + i * nblocks + j - length poly / nblocks * nblocks
           - (nblocks - (nblocks - length poly mod nblocks)))%nat
    with (i * nblocks + j)%nat by nia.
  by rewrite (concat_rows_lookup (length genpoly) nblocks i j).
Qed.

Lemma augumentEccs_ecc_words_witness :
  exists E Q,
    length E = length [25; 1] /\ Forall is_byte E
    /\ length Q = length (block [0; 2; 3; 4; 5; 6; 7] 2 0)
    /\ poly_mul Q (1 :: (alpha <$> [25; 1])) = block [0; 2; 3; 4; 5; 6; 7] 2 0 ++ E
    /\ forall i, (i < length [25; 1])%nat ->
         E !! i = Some (val (augumentEccs [0; 2; 3; 4; 5; 6; 7] 2 [25; 1])
                          (length [0; 2; 3; 4; 5; 6; 7] + i * 2 + 0)).
Proof.
  apply (augumentEccs_ecc_words [0; 2; 3; 4; 5; 6; 7] 2 [25; 1] 0);
    [repeat constructor; unfold is_byte; lia | repeat constructor; lia | lia | lia].
Defined.

(** *** No data word is lost *)

Lemma heads_tails {A : Type} (d : A) (s : nat) (Bs : list (list A)) :
  Forall (fun L => (s < length L)%nat) Bs ->
  concat (drop s <$> Bs)
  ≡ₚ ((fun L => default d (L !! s)) <$> Bs) ++ concat (drop (S s) <$> Bs).
Proof.
  induction 1 as [|L Bs HL _ IH]; [done |].
  destruct (lookup_lt_is_Some_2 L s HL) as [x Hx].
  rewrite !fmap_cons. cbn [concat]. rewrite (drop_S L x s Hx), Hx, IH. simpl.
  constructor. apply Permutation_app_swap_app.
Qed.

Lemma transpose_perm {A : Type} (d : A) (s : nat) (Bs : list (list A)) :
  Forall (fun L => (s <= length L)%nat) Bs ->
  concat ((fun i => (fun L => default d (L !! i)) <$> Bs) <$> seq 0 s)
  ++ concat (drop s <$> Bs)
  ≡ₚ concat Bs.
Proof.
  induction s as [|s IH]; intros H.
  - simpl. assert (drop 0 <$> Bs = Bs) as ->; [| done]. clear H.
    induction Bs as [|L Bs IHB]; [done |]. rewrite fmap_cons, drop_0.
    by f_equal.
  - rewrite seq_S, fmap_app, concat_app. simpl. rewrite app_nil_r, <- app_assoc.
    rewrite <- heads_tails by (eapply Forall_impl; [exact H | simpl; lia]).
    apply IH. eapply Forall_impl; [exact H | simpl; lia].
Qed.

Lemma concat_fmap_nil {A B : Type} (l : list A) :
  concat ((fun _ => @nil B) <$> l) = [].
Proof. induction l as [|x l IH]; [done |]. by rewrite fmap_cons. Qed.

Lemma concat_fmap_singleton {A B : Type} (h : A -> B) (l : list A) :
  concat ((fun x => [h x]) <$> l) = h <$> l.
Proof. induction l as [|x l IH]; [done |]. rewrite !fmap_cons. simpl. by rewrite IH. Qed.

Lemma concat_fmap_fmap {A B C : Type} (f : B -> C) (g : A -> list B) (l : list A) :
  concat ((fun x => f <$> g x) <$> l) = f <$> concat (g <$> l).
Proof.
  induction l as [|x l IH]; [done |]. rewrite !fmap_cons. simpl.
  by rewrite IH, fmap_app.
Qed.

Lemma augumentEccs_data (poly : list Z) (nblocks : nat) (genpoly : list Z) :
  (1 <= nblocks)%nat ->
  take (length poly) (augumentEccs poly nblocks genpoly) ≡ₚ Js.Num <$> poly.
Proof.
  intros Hn.
  set (s := subsize_of poly nblocks). set (pivot := pivot_of poly nblocks).
  set (start := start_of poly nblocks).
  assert (augumentEccs poly nblocks genpoly
          = concat ((fun i => (fun j => word poly (start j + i)) <$> seq 0 nblocks)
                    <$> seq 0 s)
            ++ ((fun j => word poly (start (S j) - 1))
                <$> seq pivot (nblocks - pivot))
            ++ concat ((fun i =>
                          (fun j => Js.get (calculateEcc (block poly nblocks j)
                                              genpoly) i)
                          <$> seq 0 nblocks)
                       <$> seq 0 (length genpoly))) as ->
    by (by rewrite augumentEccs_spec).
  pose proof (Nat.div_mod_eq (length poly) nblocks) as Hd.
  pose proof (Nat.mod_upper_bound (length poly) nblocks ltac:(lia)) as Hb.
  assert (pivot <= nblocks)%nat as Hp by (unfold pivot, pivot_of; lia).
  rewrite app_assoc, take_app_length'.
  2:{ rewrite length_app, concat_rows_length, length_fmap, length_seq.
      unfold s, pivot, subsize_of, pivot_of. nia. }
  set (Bs := (fun j => Js.Num <$> block poly nblocks j) <$> seq 0 nblocks).
  assert (forall j, (j < nblocks)%nat ->
            length (block poly nblocks j)
            = (s + (if decide (pivot <= j)%nat then 1 else 0))%nat) as Hlen
    by (intros j Hj; by apply block_length).
  assert (concat ((fun i => (fun j => word poly (start j + i)) <$> seq 0 nblocks)
                  <$> seq 0 s)
          = concat ((fun i => (fun L => default Js.Undef (L !! i)) <$> Bs)
                    <$> seq 0 s)) as ->.
  { f_equal. apply fmap_seq_ext. intros i Hi. cbv beta. unfold Bs.
    rewrite <- list_fmap_compose. apply fmap_seq_ext. intros j Hj. simpl.
    destruct (lookup_lt_is_Some_2 (block poly nblocks j) i) as [x Hx];
      [rewrite Hlen by lia; lia |].
    rewrite list_lookup_fmap, Hx. simpl. by apply (word_block poly nblocks Hn). }
  assert ((fun j => word poly (start (S j) - 1)) <$> seq pivot (nblocks - pivot)
          = concat (drop s <$> Bs)) as ->.
  { unfold Bs. rewrite <- list_fmap_compose.
    assert (seq 0 nblocks = seq 0 pivot ++ seq pivot (nblocks - pivot)) as ->
      by (rewrite <- seq_app; f_equal; lia).
    rewrite fmap_app, concat_app. simpl.
    rewrite (fmap_seq_ext _ (fun _ => []) 0 pivot).
    2:{ intros j Hj. simpl. rewrite drop_ge; [done |].
        rewrite length_fmap, Hlen by lia. case_decide; lia. }
    rewrite concat_fmap_nil, app_nil_l.
    rewrite <- (concat_fmap_singleton (fun j => word poly (start (S j) - 1))).
    f_equal. apply fmap_seq_ext. intros j Hj. simpl.
    destruct (lookup_lt_is_Some_2 (block poly nblocks j) s) as [x Hx];
      [rewrite Hlen by lia; case_decide; lia |].
    rewrite <- fmap_drop, (drop_S _ x s Hx), drop_ge
      by (rewrite Hlen by lia; case_decide; lia).
    simpl. f_equal. rewrite <- (word_block poly nblocks Hn j s x Hx). f_equal.
    unfold start. rewrite (start_of_S poly nblocks Hn).
    case_decide; unfold s, pivot in *; lia. }
  rewrite (transpose_perm Js.Undef).
  - unfold Bs. rewrite concat_fmap_fmap, (blocks_concat poly nblocks Hn) by lia.
    rewrite (start_of_last poly nblocks Hn). by rewrite take_ge.
  - unfold Bs. apply Forall_fmap, Forall_forall. intros j Hj. simpl.
    apply list_elem_of_In, in_seq in Hj. rewrite length_fmap, Hlen by lia. lia.
Qed.

(** X26: for a block count of at least one, the first [poly.length] words
    of [augumentEccs(poly, nblocks, genpoly)] are the words of [poly] in
    another order: no data word is lost or repeated. *)
Theorem augumentEccs_keeps_data (poly : list Z) (nblocks : nat) (genpoly : list Z) :
  (1 <= nblocks)%nat ->
  take (length poly) (augumentEccs poly nblocks genpoly) ≡ₚ Js.Num <$> poly.
Proof. apply augumentEccs_data. Qed.

Lemma augumentEccs_keeps_data_witness :
  take (length [1; 2; 3; 4; 5; 6; 7]) (augumentEccs [1; 2; 3; 4; 5; 6; 7] 2 [25; 1])
  ≡ₚ Js.Num <$> [1; 2; 3; 4; 5; 6; 7].
Proof. apply (augumentEccs_keeps_data [1; 2; 3; 4; 5; 6; 7] 2 [25; 1]). lia. Defined.
End interleaving.

(** ** The bit stream of [encode] *)

Section bit_stream.
Import QrCode.

(** The number that a list of code words spells, the first word highest. *)
Definition be (ws : list Z) : Z := foldl (fun acc w => acc * 256 + w) 0 ws.

(** The number that the bits packed so far spell: the words of [buf]
    and the bits of [bits] above its [remaining] free ones. *)
Definition pvalue (p : packer) : Z :=
  be (buf p) * 2 ^ (8 - remaining p) + Z.shiftr (bits p) (remaining p).

Definition pinv (p : packer) : Prop :=
  1 <= remaining p <= 8 /\ 0 <= bits p < 256
  /\ bits p mod 2 ^ remaining p = 0 /\ Forall is_byte (buf p).

Lemma be_app (a : list Z) (w : Z) : be (a ++ [w]) = be a * 256 + w.
Proof. unfold be. by rewrite foldl_app. Qed.

Lemma testbit_low (a k j : Z) :
  0 <= j < k -> a mod 2 ^ k = 0 -> Z.testbit a j = false.
Proof.
  intros Hj Ha. rewrite <- (Z.mod_pow2_bits_low a k j) by lia.
  rewrite Ha. apply Z.bits_0.
Qed.

Lemma lor_disjoint (a b k : Z) :
  0 <= k -> a mod 2 ^ k = 0 -> 0 <= b < 2 ^ k -> Z.lor a b = a + b.
Proof.
  intros Hk Ha Hb. assert (Z.land a b = 0) as Hl.
  { apply Z.bits_inj'. intros j Hj. rewrite Z.land_spec, Z.bits_0.
    destruct (Z_lt_le_dec j k).
    - by rewrite (testbit_low a k j).
    - rewrite (testbit_above b k j) by lia. apply andb_false_r. }
  rewrite <- Z.lxor_lor by done. symmetry. by apply Z.add_nocarry_lxor.
Qed.

Lemma pow2_split (a b : Z) : 0 <= a -> 0 <= b -> 2 ^ (a + b) = 2 ^ a * 2 ^ b.
Proof. intros. by apply Z.pow_add_r. Qed.

Lemma mod_pow2_split (x a b : Z) :
  0 <= a -> 0 <= b ->
  x mod 2 ^ (a + b) = x mod 2 ^ a + 2 ^ a * ((x / 2 ^ a) mod 2 ^ b).
Proof.
  intros Ha Hb. rewrite pow2_split by done.
  apply Z.rem_mul_r; [apply Z.pow_nonzero; lia | apply Z.pow_pos_nonneg; lia].
Qed.

Lemma pack_bytes_value (fuel : nat) (x n : Z) (b : list Z) :
  0 <= n < 8 * (Z.of_nat fuel + 1) -> Forall is_byte b ->
  fst (pack_bytes fuel x n b) = n mod 8
  /\ Forall is_byte (snd (pack_bytes fuel x n b))
  /\ be (snd (pack_bytes fuel x n b))
     = be b * 2 ^ (n - n mod 8) + (x mod 2 ^ n) / 2 ^ (n mod 8).
Proof.
  revert n b. induction fuel as [|fuel IH]; intros n b Hn Hb.
  - cbn [pack_bytes fst snd]. rewrite (Z.mod_small n 8) by lia.
    rewrite Z.sub_diag, Z.div_small
      by (apply Z.mod_pos_bound, Z.pow_pos_nonneg; lia).
    split; [done |]. split; [done |]. lia.
  - cbn [pack_bytes]. destruct (8 <=? n) eqn:E.
    + apply Z.leb_le in E.
      set (w := Z.land (Z.shiftr x (n - 8)) 255).
      assert (w = (x / 2 ^ (n - 8)) mod 2 ^ 8) as Hw.
      { unfold w. change 255 with (Z.ones 8).
        by rewrite Z.land_ones, Z.shiftr_div_pow2 by lia. }
      assert (is_byte w) as Hwb.
      { rewrite Hw. pose proof (Z.mod_pos_bound (x / 2 ^ (n - 8)) (2 ^ 8)).
        unfold is_byte. simpl in *. lia. }
      destruct (IH (n - 8) (b ++ [w]) ltac:(lia)) as (H1 & H2 & H3).
      { apply Forall_app. split; [done | by constructor]. }
      assert ((n - 8) mod 8 = n mod 8) as Hm.
      { replace n with (n - 8 + 1 * 8) at 2 by lia. by rewrite Z.mod_add. }
      rewrite H1, H3, Hm, be_app. split; [done |]. split; [done |].
      pose proof (Z.mod_pos_bound n 8 ltac:(lia)) as Hmb.
      pose proof (Z.div_mod n 8 ltac:(lia)) as Hdm.
      set (m := n mod 8) in *.
      assert (m <= n - 8) as Hle.
      { assert (1 <= n / 8) by (apply Z.div_le_lower_bound; lia). lia. }
      assert (x mod 2 ^ n = x mod 2 ^ (n - 8) + 2 ^ (n - 8) * w) as ->.
      { replace (2 ^ n) with (2 ^ ((n - 8) + 8)) by (f_equal; lia).
        rewrite (mod_pow2_split x (n - 8) 8) by lia. by rewrite Hw. }
      replace (n - m) with (8 + (n - 8 - m)) by lia.
      rewrite (pow2_split 8 (n - 8 - m)) by lia.
      replace (2 ^ (n - 8)) with (2 ^ (n - 8 - m) * 2 ^ m)
        by (rewrite <- pow2_split by lia; f_equal; lia).
      replace (x mod (2 ^ (n - 8 - m) * 2 ^ m) + 2 ^ (n - 8 - m) * 2 ^ m * w)
        with (2 ^ (n - 8 - m) * w * 2 ^ m + x mod (2 ^ (n - 8 - m) * 2 ^ m)) by lia.
      rewrite Z.div_add_l by (apply Z.pow_nonzero; lia).
      change (2 ^ 8) with 256. lia.
    + apply Z.leb_gt in E. cbn [fst snd]. rewrite (Z.mod_small n 8) by lia.
      rewrite Z.sub_diag, Z.div_small
        by (apply Z.mod_pos_bound, Z.pow_pos_nonneg; lia).
      split; [done |]. split; [done |]. lia.
Qed.

(** The second statement of [pack]: fewer bits than are free. *)
Definition pack_low (x n : Z) (p : packer) : packer :=
  if 0 <? n then
    let r := remaining p - n in
    {| buf := buf p;
       bits := Z.lor (bits p) (Z.shiftl (Z.land x (Z.shiftl 1 n - 1)) r);
       remaining := r |}
  else p.

Lemma pinv_multiple (p : packer) :
  pinv p ->
  exists t, bits p = t * 2 ^ remaining p /\ 0 <= t < 2 ^ (8 - remaining p)
            /\ pvalue p = be (buf p) * 2 ^ (8 - remaining p) + t.
Proof.
  intros (Hr & Hb & Hm & _). exists (bits p / 2 ^ remaining p).
  assert (0 < 2 ^ remaining p) as Hpos by (apply Z.pow_pos_nonneg; lia).
  pose proof (Z.div_mod (bits p) (2 ^ remaining p) ltac:(lia)) as Hd.
  rewrite Hm in Hd.
  assert (2 ^ 8 = 2 ^ remaining p * 2 ^ (8 - remaining p)) as H8
    by (rewrite <- pow2_split by lia; f_equal; lia).
  change (2 ^ 8) with 256 in H8.
  split; [lia |]. split.
  - split; [apply Z.div_pos; lia |].
    apply Z.div_lt_upper_bound; lia.
  - unfold pvalue. by rewrite Z.shiftr_div_pow2 by lia.
Qed.

Lemma pack_low_value (x n : Z) (p : packer) :
  pinv p -> 0 <= n < remaining p ->
  pinv (pack_low x n p)
  /\ pvalue (pack_low x n p) = pvalue p * 2 ^ n + x mod 2 ^ n.
Proof.
  intros Hp Hn. unfold pack_low. destruct (0 <? n) eqn:E.
  - apply Z.ltb_lt in E. destruct (pinv_multiple p Hp) as (t & Ht & Htb & Hv).
    destruct Hp as (Hr & Hb & Hm & Hbuf).
    set (r := remaining p) in *. set (y := x mod 2 ^ n).
    assert (0 <= y < 2 ^ n) as Hy by (apply Z.mod_pos_bound, Z.pow_pos_nonneg; lia).
    assert (Z.land x (Z.shiftl 1 n - 1) = y) as ->.
    { rewrite Z.shiftl_1_l. change (2 ^ n - 1) with (Z.pred (2 ^ n)).
      rewrite <- Z.ones_equiv. by apply Z.land_ones; lia. }
    rewrite Z.shiftl_mul_pow2 by lia.
    assert (0 < 2 ^ (r - n)) as Hpos by (apply Z.pow_pos_nonneg; lia).
    assert (2 ^ r = 2 ^ (r - n) * 2 ^ n) as Hrn
      by (rewrite <- pow2_split by lia; f_equal; lia).
    assert (Z.lor (bits p) (y * 2 ^ (r - n)) = bits p + y * 2 ^ (r - n)) as ->.
    { apply (lor_disjoint _ _ r); [lia | done | nia]. }
    assert (2 ^ 8 = 2 ^ r * 2 ^ (8 - r)) as H8
      by (rewrite <- pow2_split by lia; f_equal; lia).
    change (2 ^ 8) with 256 in H8.
    assert (0 < 2 ^ n) as Hpn by (apply Z.pow_pos_nonneg; lia).
    assert (0 < 2 ^ r) as Hpr by (apply Z.pow_pos_nonneg; lia).
    split.
    + unfold pinv. cbn [remaining bits buf]. split; [lia |]. split; [nia |].
      split; [| done]. rewrite Ht, Hrn.
      replace (t * (2 ^ (r - n) * 2 ^ n) + y * 2 ^ (r - n))
        with ((t * 2 ^ n + y) * 2 ^ (r - n)) by lia.
      apply Z.mod_mul. lia.
    + unfold pvalue at 1. cbn [remaining bits buf].
      rewrite Z.shiftr_div_pow2 by lia. rewrite Hv, Ht, Hrn.
      replace (t * (2 ^ (r - n) * 2 ^ n) + y * 2 ^ (r - n))
        with ((t * 2 ^ n + y) * 2 ^ (r - n)) by lia.
      rewrite Z.div_mul by lia.
      replace (8 - (r - n)) with ((8 - r) + n) by lia.
      rewrite pow2_split by lia. lia.
  - apply Z.ltb_ge in E. assert (n = 0) as -> by lia.
    split; [done |]. simpl. rewrite Z.mod_1_r. lia.
Qed.

(** [pack(x, n)] appends the [n] bits of [x]. *)
Lemma pack_value (x n : Z) (p : packer) :
  pinv p -> 0 <= n -> 0 <= x < 2 ^ n ->
  pinv (pack x n p) /\ pvalue (pack x n p) = pvalue p * 2 ^ n + x.
Proof.
  intros Hp Hn Hx. unfold pack. destruct (remaining p <=? n) eqn:E.
  - apply Z.leb_le in E. destruct (pinv_multiple p Hp) as (t & Ht & Htb & Hv).
    destruct Hp as (Hr & Hb & Hm & Hbuf).
    set (r := remaining p) in *. set (n1 := n - r).
    assert (0 < 2 ^ n1) as Hp1 by (apply Z.pow_pos_nonneg; lia).
    assert (0 < 2 ^ r) as Hpr by (apply Z.pow_pos_nonneg; lia).
    assert (2 ^ n = 2 ^ n1 * 2 ^ r) as Hnr
      by (rewrite <- pow2_split by lia; f_equal; lia).
    assert (2 ^ 8 = 2 ^ r * 2 ^ (8 - r)) as H8
      by (rewrite <- pow2_split by lia; f_equal; lia).
    change (2 ^ 8) with 256 in H8.
    assert (0 <= x / 2 ^ n1 < 2 ^ r) as Hhi.
    { split; [apply Z.div_pos; lia |]. apply Z.div_lt_upper_bound; lia. }
    rewrite Z.shiftr_div_pow2 by lia.
    assert (Z.lor (bits p) (x / 2 ^ n1) = bits p + x / 2 ^ n1) as ->
      by (by apply (lor_disjoint _ _ r); [lia | |]).
    set (w0 := bits p + x / 2 ^ n1).
    assert (is_byte w0) as Hw0 by (unfold is_byte, w0; nia).
    destruct (pack_bytes_value (Z.to_nat n1) x n1 (buf p ++ [w0]))
      as (H1 & H2 & H3); [lia | apply Forall_app; split; [done | by constructor] |].
    destruct (pack_bytes (Z.to_nat n1) x n1 (buf p ++ [w0])) as [n2 b'].
    cbn [fst snd] in H1, H2, H3.
    pose proof (Z.mod_pos_bound n1 8 ltac:(lia)) as Hn2. rewrite <- H1 in Hn2.
    set (p1 := {| buf := b'; bits := 0; remaining := 8 |}).
    assert (pinv p1) as Hp1'.
    { unfold pinv, p1. cbn [remaining bits buf]. split; [lia |]. split; [lia |].
      split; [done | done]. }
    destruct (pack_low_value x n2 p1 Hp1' ltac:(simpl; lia)) as [Hinv Hval].
    fold (pack_low x n2 p1). split; [done |]. rewrite Hval.
    unfold pvalue at 1, p1. cbn [remaining bits buf].
    rewrite Z.sub_diag, Z.pow_0_r, Z.shiftr_0_l, Z.mul_1_r, Z.add_0_r.
    rewrite H3, be_app, <- H1.
    assert (0 < 2 ^ n2) as Hp2 by (apply Z.pow_pos_nonneg; lia).
    assert (n2 <= n1) as Hle.
    { rewrite H1. apply Z.mod_le; lia. }
    assert (2 ^ n1 = 2 ^ (n1 - n2) * 2 ^ n2) as Hn12
      by (rewrite <- pow2_split by lia; f_equal; lia).
    set (y := x mod 2 ^ n1).
    assert (x mod 2 ^ n2 = y mod 2 ^ n2) as ->.
    { unfold y. rewrite Hn12. rewrite Z.mul_comm.
      rewrite Z.rem_mul_r by lia. rewrite Z.mul_comm, Z.mod_add by lia.
      by rewrite Z.mod_mod by lia. }
    pose proof (Z.div_mod y (2 ^ n2) ltac:(lia)) as Hdy.
    pose proof (Z.div_mod x (2 ^ n1) ltac:(lia)) as Hdx. fold y in Hdx.
    rewrite Hv. unfold w0. rewrite Ht. rewrite Hnr.
    rewrite (Z.mul_add_distr_r _ (y / 2 ^ n2) (2 ^ n2)).
    rewrite <- Z.mul_assoc, <- Hn12, <- Z.add_assoc.
    rewrite (Z.mul_comm (y / 2 ^ n2)), <- Hdy.
    set (X := x / 2 ^ n1) in *. rewrite Hdx. rewrite H8. ring.
  - apply Z.leb_gt in E. fold (pack_low x n p).
    destruct (pack_low_value x n p Hp ltac:(lia)) as [Hinv Hval].
    split; [done |]. rewrite Hval. by rewrite Z.mod_small.
Qed.

(** *** Fields *)

(** The number that a list of fields spells after [v0]: every field is a
    value and a width in bits. *)
Definition join (fields : list (Z * Z)) (v0 : Z) : Z :=
  foldl (fun v f => v * 2 ^ snd f + fst f) v0 fields.

Definition width (fields : list (Z * Z)) : Z := foldr (fun f w => snd f + w) 0 fields.

Lemma width_app (fs gs : list (Z * Z)) : width (fs ++ gs) = width fs + width gs.
Proof. unfold width. induction fs as [|f fs IH]; simpl; lia. Qed.

(** [p'] is [p] after the fields [fs]. *)
Definition appends (fs : list (Z * Z)) (p p' : packer) : Prop :=
  pinv p' /\ pvalue p' = join fs (pvalue p)
  /\ packed_bits p' = packed_bits p + width fs.

Lemma appends_nil (p : packer) : pinv p -> appends [] p p.
Proof. intros Hp. split; [done |]. split; [done |]. unfold width. simpl. lia. Qed.

Lemma appends_pack (x n : Z) (p : packer) :
  pinv p -> 0 <= n -> 0 <= x < 2 ^ n -> appends [(x, n)] p (pack x n p).
Proof.
  intros Hp Hn Hx. destruct (pack_value x n p Hp Hn Hx) as [H1 H2].
  destruct (pack_spec x n p) as [_ H3]; [apply Hp | done |].
  split; [done |]. split; [done |]. rewrite H3. unfold width. simpl. lia.
Qed.

Lemma appends_trans (fs gs : list (Z * Z)) (p p' p'' : packer) :
  appends fs p p' -> appends gs p' p'' -> appends (fs ++ gs) p p''.
Proof.
  intros (_ & H2 & H3) (G1 & G2 & G3). split; [done |].
  rewrite width_app. unfold join in *. rewrite foldl_app.
  split; [by rewrite G2, H2 |]. lia.
Qed.

Lemma appends_cons (x n : Z) (gs : list (Z * Z)) (p p'' : packer) :
  pinv p -> 0 <= n -> 0 <= x < 2 ^ n ->
  appends gs (pack x n p) p'' -> appends ((x, n) :: gs) p p''.
Proof.
  intros Hp Hn Hx H. apply (appends_trans [(x, n)] gs p (pack x n p) p''); [| done].
  by apply appends_pack.
Qed.

(** *** Numeric data *)

(** The decimal value of a list of digits. *)
Definition decimal (s : list Z) : Z := foldl (fun acc c => acc * 10 + (c - 48)) 0 s.

(** The fields of a numeric payload: 10 bits for three digits, and 7 or 4
    bits for the two or the one that remain. *)
Fixpoint numeric_fields (s : list Z) : list (Z * Z) :=
  match s with
  | a :: b :: c :: rest => (decimal [a; b; c], 10) :: numeric_fields rest
  | [a; b] => [(decimal [a; b], 7)]
  | [a] => [(decimal [a], 4)]
  | [] => []
  end.

Lemma digit_range (c : Z) : is_digit c = true -> 0 <= c - 48 <= 9.
Proof. unfold is_digit. intros H. apply andb_prop in H as [H1 H2]. lia. Qed.

Lemma digit_not_space (c : Z) : is_digit c = true -> is_space c = false.
Proof.
  intros H. pose proof (digit_range c H) as Hr.
  assert (c = 48 \/ c = 49 \/ c = 50 \/ c = 51 \/ c = 52 \/ c = 53 \/ c = 54
          \/ c = 55 \/ c = 56 \/ c = 57) as Hc by lia.
  by destruct Hc as [->|[->|[->|[->|[->|[->|[->|[->|[->| ->]]]]]]]]].
Qed.

Lemma digits_value_digits (acc : option Z) (s : list Z) :
  forallb is_digit s = true -> s <> [] ->
  digits_value acc s = Some (foldl (fun a c => a * 10 + (c - 48)) (default 0 acc) s).
Proof.
  revert acc. induction s as [|c s IH]; intros acc Hs Hne; [done |].
  cbn [forallb] in Hs. apply andb_prop in Hs as [Hc Hs].
  cbn [digits_value foldl]. rewrite Hc.
  destruct s as [|c' s]; [done |]. by rewrite IH.
Qed.

Lemma parseInt_digits (s : list Z) :
  forallb is_digit s = true -> s <> [] -> parseInt s = Some (decimal s).
Proof.
  intros Hs Hne. destruct s as [|c s]; [done |]. unfold parseInt.
  pose proof Hs as Hs'. cbn [forallb] in Hs'. apply andb_prop in Hs' as [Hc _].
  cbn [skip_space]. rewrite (digit_not_space c Hc).
  pose proof (digit_range c Hc) as Hr.
  assert (c <> 45 /\ c <> 43) as [H45 H43] by lia.
  transitivity (digits_value None (c :: s));
    [| exact (digits_value_digits None (c :: s) Hs Hne)].
  clear -H45 H43. destruct c as [|c|c]; try done.
  do 6 (destruct c as [c|c|]; try done).
Qed.

Lemma wrap32_small (z : Z) : 0 <= z < 2 ^ 31 -> Js.wrap32 z = z.
Proof. intros H. unfold Js.wrap32. rewrite Z.mod_small by lia. lia. Qed.

Lemma decimal_3 (a b c : Z) :
  is_digit a = true -> is_digit b = true -> is_digit c = true ->
  0 <= decimal [a; b; c] < 1000.
Proof.
  intros Ha Hb Hc. pose proof (digit_range a Ha). pose proof (digit_range b Hb).
  pose proof (digit_range c Hc). unfold decimal. simpl. lia.
Qed.

Lemma decimal_2 (a b : Z) :
  is_digit a = true -> is_digit b = true -> 0 <= decimal [a; b] < 100.
Proof.
  intros Ha Hb. pose proof (digit_range a Ha). pose proof (digit_range b Hb).
  unfold decimal. simpl. lia.
Qed.

Lemma decimal_1 (a : Z) : is_digit a = true -> 0 <= decimal [a] < 10.
Proof. intros Ha. pose proof (digit_range a Ha). unfold decimal. simpl. lia. Qed.

(** The last statement of the numeric packer. *)
Lemma numeric_tail (rest : list Z) (p : packer) :
  pinv p -> forallb is_digit rest = true -> (length rest < 3)%nat ->
  appends (numeric_fields rest) p
    (pack (Js.int32_of (parseInt rest))
       (default 0 ([0; 4; 7] !! (length rest mod 3)%nat)) p).
Proof.
  intros Hp Hd Hlen.
  destruct rest as [|a [|b [|c rest]]]; [| | | simpl in Hlen; lia].
  - change (pack _ _ p) with (pack 0 0 p).
    assert (pack 0 0 p = p) as ->.
    { unfold pack. destruct Hp as [Hr _].
      destruct (remaining p <=? 0) eqn:E; [apply Z.leb_le in E; lia | done]. }
    by apply appends_nil.
  - cbn [forallb] in Hd. apply andb_prop in Hd as [Ha _].
    pose proof (decimal_1 a Ha) as Hr.
    rewrite parseInt_digits by (cbn [forallb]; by rewrite ?Ha).
    change (default 0 _) with 4.
    cbn [Js.int32_of]. rewrite wrap32_small by lia.
    apply appends_pack; [done | lia | simpl; lia].
  - cbn [forallb] in Hd. apply andb_prop in Hd as [Ha Hd].
    apply andb_prop in Hd as [Hb _].
    pose proof (decimal_2 a b Ha Hb) as Hr.
    rewrite parseInt_digits by (cbn [forallb]; by rewrite ?Ha, ?Hb).
    change (default 0 _) with 7.
    cbn [Js.int32_of]. rewrite wrap32_small by lia.
    apply appends_pack; [done | lia | simpl; lia].
Qed.

(** The numeric packer appends the fields of the digits. *)
Lemma numeric_pack (fuel : nat) (pre rest : list Z) (p : packer) :
  pinv p -> forallb is_digit rest = true -> (length rest <= 3 * fuel + 2)%nat ->
  exists i p',
    numeric_loop fuel (pre ++ rest) (length pre + 2) p = (i, p')
    /\ appends (numeric_fields rest) p
         (pack (Js.int32_of (parseInt (substring_from (pre ++ rest) (i - 2))))
            (default 0 ([0; 4; 7] !! (length rest mod 3)%nat)) p').
Proof.
  revert pre rest p. induction fuel as [|fuel IH]; intros pre rest p Hp Hd Hlen.
  - exists (length pre + 2)%nat, p. split; [done |].
    replace (length pre + 2 - 2)%nat with (length pre) by lia.
    unfold substring_from. rewrite drop_app_length.
    apply numeric_tail; [done | done | lia].
  - cbn [numeric_loop]. rewrite length_app.
    destruct (decide (length rest < 3)%nat) as [Hs|Hs].
    + rewrite decide_False by lia.
      exists (length pre + 2)%nat, p. split; [done |].
      replace (length pre + 2 - 2)%nat with (length pre) by lia.
      unfold substring_from. rewrite drop_app_length.
      by apply numeric_tail.
    + rewrite decide_True by lia.
      destruct rest as [|a [|b [|c rest]]]; [simpl in Hs; lia ..|].
      cbn [forallb] in Hd. apply andb_prop in Hd as [Ha Hd].
      apply andb_prop in Hd as [Hb Hd]. apply andb_prop in Hd as [Hc Hd].
      pose proof (decimal_3 a b c Ha Hb Hc) as Hr.
      assert (substring (pre ++ a :: b :: c :: rest) (length pre + 2 - 2)
                (length pre + 2 + 1) = [a; b; c]) as ->.
      { unfold substring.
        replace (length pre + 2 + 1 - (length pre + 2 - 2))%nat with 3%nat by lia.
        replace (length pre + 2 - 2)%nat with (length pre) by lia.
        by rewrite drop_app_length. }
      rewrite parseInt_digits by (cbn [forallb]; by rewrite ?Ha, ?Hb, ?Hc).
      cbn [Js.int32_of]. rewrite wrap32_small by lia.
      destruct (appends_pack (decimal [a; b; c]) 10 p Hp) as [H1 _];
        [lia | simpl; lia |].
      destruct (IH (pre ++ [a; b; c]) rest (pack (decimal [a; b; c]) 10 p) H1 Hd)
        as (i & p' & Hloop & Happ); [simpl in Hlen; lia |].
      rewrite <- app_assoc in Hloop, Happ. cbn [app] in Hloop, Happ.
      rewrite length_app in Hloop. cbn [length] in Hloop.
      replace (length pre + 2 + 3)%nat with (length pre + 3 + 2)%nat by lia.
      exists i, p'. split; [done |].
      assert (length (a :: b :: c :: rest) mod 3 = length rest mod 3)%nat as ->.
      { cbn [length]. replace (S (S (S (length rest)))) with (length rest + 1 * 3)%nat
          by lia. by rewrite Nat.Div0.mod_add. }
      cbn [numeric_fields]. apply appends_cons; [done | lia | simpl; lia | done].
Qed.

(** *** Alphanumeric data *)

Definition is_alphanumeric (c : Z) : bool := is_upper c || is_digit c || is_symbol c.

(** The fields of an alphanumeric payload: 11 bits for two characters and
    6 bits for the one that remains. *)
Definition code (c : Z) : Z := default 0 (ALPHANUMERIC_MAP c).

Fixpoint alphanumeric_fields (s : list Z) : list (Z * Z) :=
  match s with
  | a :: b :: rest => (code a * 45 + code b, 11) :: alphanumeric_fields rest
  | [a] => [(code a, 6)]
  | [] => []
  end.

Definition code_check (k : nat) : bool :=
  let c := 32 + Z.of_nat k in
  implb (is_alphanumeric c)
    (match ALPHANUMERIC_MAP c with
     | Some v => (0 <=? v) && (v <? 45)
     | None => false
     end).

Lemma code_check_all : forallb code_check (seq 0 59) = true.
Proof. by vm_compute. Qed.

Lemma code_range (c : Z) :
  is_alphanumeric c = true -> ALPHANUMERIC_MAP c = Some (code c) /\ 0 <= code c < 45.
Proof.
  intros Hc.
  assert (32 <= c <= 90) as Hr.
  { unfold is_alphanumeric, is_upper, is_digit, is_symbol in Hc.
    apply orb_prop in Hc as [Hc|Hc]; [apply orb_prop in Hc as [Hc|Hc] |].
    - apply andb_prop in Hc as [H1 H2]. lia.
    - apply andb_prop in Hc as [H1 H2]. lia.
    - apply bool_decide_eq_true in Hc.
      repeat (apply elem_of_cons in Hc as [->|Hc]; [lia |]).
      by apply elem_of_nil in Hc. }
  pose proof code_check_all as Hall. rewrite forallb_forall in Hall.
  specialize (Hall (Z.to_nat (c - 32))). unfold code_check in Hall.
  replace (32 + Z.of_nat (Z.to_nat (c - 32))) with c in Hall by lia.
  rewrite Hc in Hall. cbn [implb] in Hall. unfold code.
  destruct (ALPHANUMERIC_MAP c) as [v|].
  - change (default 0 (Some v)) with v. specialize (Hall ltac:(apply in_seq; lia)).
    apply andb_prop in Hall as [H1 H2]. split; [done | lia].
  - by specialize (Hall ltac:(apply in_seq; lia)).
Qed.

Lemma alphanumeric_pack (fuel : nat) (pre rest : list Z) (p : packer) :
  pinv p -> forallb is_alphanumeric rest = true -> (length rest <= 2 * fuel + 1)%nat ->
  exists i p',
    alphanumeric_loop fuel (pre ++ rest) (length pre + 1) p = (i, p')
    /\ appends (alphanumeric_fields rest) p
         (if decide (length rest mod 2 = 1)%nat
          then pack (Js.int32_of (c ← (pre ++ rest) !! (i - 1)%nat; ALPHANUMERIC_MAP c))
                 6 p'
          else p').
Proof.
  revert pre rest p. induction fuel as [|fuel IH]; intros pre rest p Hp Hd Hlen.
  - exists (length pre + 1)%nat, p. split; [done |].
    destruct rest as [|a [|b rest]]; [| | simpl in Hlen; lia].
    + rewrite decide_False by done. by apply appends_nil.
    + rewrite decide_True by done.
      replace (length pre + 1 - 1)%nat with (length pre) by lia.
      rewrite list_lookup_middle by done. cbn [mbind option_bind].
      cbn [forallb] in Hd. apply andb_prop in Hd as [Ha _].
      destruct (code_range a Ha) as [-> Hr]. cbn [Js.int32_of].
      rewrite wrap32_small by lia.
      apply appends_pack; [done | lia | simpl; lia].
  - cbn [alphanumeric_loop]. rewrite length_app.
    destruct rest as [|a [|b rest]].
    + rewrite decide_False by (simpl; lia).
      exists (length pre + 1)%nat, p. split; [done |].
      rewrite decide_False by done. by apply appends_nil.
    + rewrite decide_False by (simpl; lia).
      exists (length pre + 1)%nat, p. split; [done |].
      rewrite decide_True by done.
      replace (length pre + 1 - 1)%nat with (length pre) by lia.
      rewrite list_lookup_middle by done. cbn [mbind option_bind].
      cbn [forallb] in Hd. apply andb_prop in Hd as [Ha _].
      destruct (code_range a Ha) as [-> Hr]. cbn [Js.int32_of].
      rewrite wrap32_small by lia.
      apply appends_pack; [done | lia | simpl; lia].
    + rewrite decide_True by (simpl; lia).
      cbn [forallb] in Hd. apply andb_prop in Hd as [Ha Hd].
      apply andb_prop in Hd as [Hb Hd].
      destruct (code_range a Ha) as [Hma Hra].
      destruct (code_range b Hb) as [Hmb Hrb].
      replace (length pre + 1 - 1)%nat with (length pre) by lia.
      rewrite (list_lookup_middle pre (b :: rest) a (length pre) eq_refl).
      assert ((pre ++ a :: b :: rest) !! (length pre + 1)%nat = Some b) as ->.
      { rewrite lookup_app_r by lia.
        by replace (length pre + 1 - length pre)%nat with 1%nat by lia. }
      cbn [mbind option_bind]. rewrite Hma, Hmb. cbn [mbind option_bind Js.int32_of].
      rewrite wrap32_small by lia.
      destruct (appends_pack (code a * 45 + code b) 11 p Hp) as [H1 _];
        [lia | simpl; lia |].
      destruct (IH (pre ++ [a; b]) rest (pack (code a * 45 + code b) 11 p) H1 Hd)
        as (i & p' & Hloop & Happ); [simpl in Hlen; lia |].
      rewrite <- app_assoc in Hloop, Happ. cbn [app] in Hloop, Happ.
      rewrite length_app in Hloop. cbn [length] in Hloop.
      replace (length pre + 1 + 2)%nat with (length pre + 2 + 1)%nat by lia.
      exists i, p'. split; [done |].
      assert (length (a :: b :: rest) mod 2 = length rest mod 2)%nat as ->.
      { cbn [length]. replace (S (S (length rest))) with (length rest + 1 * 2)%nat
          by lia. by rewrite Nat.Div0.mod_add. }
      cbn [alphanumeric_fields]. apply appends_cons; [done | lia | simpl; lia | done].
Qed.

(** *** Octets *)

Lemma octet_pack (a : list Z) (p : packer) :
  pinv p -> Forall is_byte a ->
  appends ((fun x => (x, 8)) <$> a) p (foldl (fun p x => pack (Js.wrap32 x) 8 p) p a).
Proof.
  revert p. induction a as [|x a IH]; intros p Hp Ha; [by apply appends_nil |].
  apply Forall_cons in Ha as [Hx Ha]. unfold is_byte in Hx.
  cbn [foldl fmap list_fmap]. rewrite wrap32_small by lia.
  destruct (appends_pack x 8 p Hp) as [H1 _]; [lia | simpl; lia |].
  apply appends_cons; [done | lia | simpl; lia |]. by apply IH.
Qed.
(** *** The words of [encode] *)

(** The last statement of [encode] before the padding: the bits that are
    left are one more word. *)
Lemma flush_value (p : packer) :
  pinv p ->
  let w := if remaining p <? 8 then buf p ++ [bits p] else buf p in
  Forall is_byte w
  /\ 0 <= 8 * Z.of_nat (length w) - packed_bits p < 8
  /\ be w = pvalue p * 2 ^ (8 * Z.of_nat (length w) - packed_bits p).
Proof.
  intros (Hr & Hb & Hm & Hf). unfold packed_bits, pvalue. cbv zeta.
  destruct (remaining p <? 8) eqn:E.
  - apply Z.ltb_lt in E. rewrite length_app. cbn [length].
    split; [apply Forall_app; split; [done |]; apply Forall_cons; split; [| done];
            unfold is_byte; lia |].
    split; [lia |].
    replace (8 * Z.of_nat (length (buf p) + 1)
             - (8 * Z.of_nat (length (buf p)) + (8 - remaining p)))
      with (remaining p) by lia.
    rewrite be_app.
    rewrite Z.shiftr_div_pow2 by lia.
    assert (bits p = bits p / 2 ^ remaining p * 2 ^ remaining p) as Hbits.
    { pose proof (Z.div_mod (bits p) (2 ^ remaining p)) as Hdm. nia. }
    rewrite Z.mul_add_distr_r, <- Z.mul_assoc, <- Z.pow_add_r by lia.
    replace (8 - remaining p + remaining p) with 8 by lia.
    rewrite <- Hbits. by change (2 ^ 8) with 256.
  - apply Z.ltb_ge in E. assert (remaining p = 8) as H8 by lia. rewrite H8.
    split; [done |]. split; [lia |].
    replace (8 * Z.of_nat (length (buf p)) - (8 * Z.of_nat (length (buf p)) + (8 - 8)))
      with 0 by lia.
    rewrite Z.shiftr_div_pow2 by lia. change (2 ^ 8) with 256.
    rewrite Z.div_small by lia. change (2 ^ (8 - 8)) with 1. change (2 ^ 0) with 1. lia.
Qed.

(** The data that the packer of the mode takes unit by unit: decimal
    digits in numeric mode, characters of the alphanumeric table in
    alphanumeric mode, an array of octets in octet mode. *)
Definition well_formed (q : t) : bool :=
  match data q with
  | DString s =>
      (mode q =? NUMERIC) && REGEXP_NUMERIC s
      || (mode q =? ALPHANUMERIC) && REGEXP_ALPHANUMERIC_OUT s
  | DArray a => (mode q =? OCTET) && forallb (fun x => (0 <=? x) && (x <=? 255)) a
  | DNull => false
  end.

Definition payload (q : t) : list (Z * Z) :=
  match data q with
  | DString s => if mode q =? NUMERIC then numeric_fields s else alphanumeric_fields s
  | DArray a => (fun x => (x, 8)) <$> a
  | DNull => []
  end.

(** Mode indicator, character count, payload and terminator. *)
Definition stream (q : t) (len lenbits : Z) : list (Z * Z) :=
  (mode q, 4) :: (len, lenbits) :: payload q ++ [(TERMINATOR, 4)].

Lemma payload_appends (q : t) (p : packer) :
  well_formed q = true -> pinv p ->
  exists p',
    (if mode q =? NUMERIC then pack_numeric (data q) p
     else if mode q =? ALPHANUMERIC then pack_alphanumeric (data q) p
     else if mode q =? OCTET then pack_octet (data q) p
     else Throw TypeError) = Ok p'
    /\ appends (payload q) p p'.
Proof.
  unfold well_formed, payload. intros Hq Hp.
  destruct (data q) as [|s|a]; [done | |].
  - apply orb_prop in Hq as [Hq|Hq]; apply andb_prop in Hq as [Hm Hs];
      apply Z.eqb_eq in Hm; rewrite Hm.
    + change (NUMERIC =? NUMERIC) with true. cbv iota.
      destruct (numeric_pack (length s) [] s p Hp Hs) as (i & p' & Hloop & Happ);
        [lia |].
      cbn [app length Nat.add] in Hloop, Happ.
      unfold pack_numeric. rewrite Hloop. by eexists.
    + change (ALPHANUMERIC =? NUMERIC) with false.
      change (ALPHANUMERIC =? ALPHANUMERIC) with true. cbv iota.
      destruct (alphanumeric_pack (length s) [] s p Hp Hs) as (i & p' & Hloop & Happ);
        [lia |].
      cbn [app length Nat.add] in Hloop, Happ.
      unfold pack_alphanumeric. rewrite Hloop. by eexists.
  - apply andb_prop in Hq as [Hm Ha]. apply Z.eqb_eq in Hm. rewrite Hm.
    change (OCTET =? NUMERIC) with false. change (OCTET =? ALPHANUMERIC) with false.
    change (OCTET =? OCTET) with true. cbv iota.
    unfold pack_octet. eexists. split; [done |].
    apply octet_pack; [done |]. apply Forall_forall. intros x Hx.
    rewrite forallb_forall in Ha. specialize (Ha x ltac:(by apply list_elem_of_In)).
    apply andb_prop in Ha as [H1 H2]. unfold is_byte. lia.
Qed.

Lemma well_formed_mode (q : t) :
  well_formed q = true -> mode q = NUMERIC \/ mode q = ALPHANUMERIC \/ mode q = OCTET.
Proof.
  unfold well_formed. intros Hq. destruct (data q) as [|s|a]; [done | |].
  - apply orb_prop in Hq as [Hq|Hq]; apply andb_prop in Hq as [Hm _];
      apply Z.eqb_eq in Hm; auto.
  - apply andb_prop in Hq as [Hm _]. apply Z.eqb_eq in Hm. auto.
Qed.

Lemma encode_words_spec (q : t) (len lenbits : Z) :
  well_formed q = true ->
  data_length (data q) = Ok len -> nDataLenBits q = Some lenbits ->
  len < 2 ^ lenbits ->
  exists w,
    encode_words q = Ok w
    /\ Forall is_byte w
    /\ 0 <= 8 * Z.of_nat (length w) - width (stream q len lenbits) < 8
    /\ be w = join (stream q len lenbits) 0
              * 2 ^ (8 * Z.of_nat (length w) - width (stream q len lenbits)).
Proof.
  intros Hq Hlen Hbits Hlt. unfold encode_words. rewrite Hlen, Hbits. cbn [rbind].
  cbv zeta.
  set (p0 := {| buf := []; bits := 0; remaining := 8 |}).
  assert (pinv p0) as Hp0.
  { unfold pinv, p0. cbn [buf bits remaining].
    split; [lia |]. split; [lia |]. split; [done | constructor]. }
  assert (0 <= len) as Hlen0.
  { destruct (data q); simplify_eq/=; lia. }
  assert (8 <= lenbits <= 16) as Hlb.
  { unfold nDataLenBits in Hbits.
    repeat case_match; simplify_eq; lia. }
  assert (len < 2 ^ 16) as Hlen16.
  { pose proof (Z.pow_le_mono_r 2 lenbits 16). lia. }
  assert (0 <= mode q < 2 ^ 4) as Hmode.
  { destruct (well_formed_mode q Hq) as [->|[->| ->]]; by vm_compute. }
  rewrite (wrap32_small (mode q)) by (simpl in Hmode; lia).
  rewrite (wrap32_small len) by lia.
  pose proof (appends_pack (mode q) 4 p0 Hp0 ltac:(lia) Hmode) as H1.
  pose proof (appends_pack len lenbits (pack (mode q) 4 p0) (proj1 H1) ltac:(lia)
                ltac:(lia)) as H2.
  destruct (payload_appends q (pack len lenbits (pack (mode q) 4 p0)) Hq (proj1 H2))
    as (p3 & -> & H3).
  cbn [rbind].
  pose proof (appends_pack TERMINATOR 4 p3 (proj1 H3) ltac:(lia) ltac:(by vm_compute))
    as H4.
  pose proof (appends_trans _ _ _ _ _ H1
                (appends_trans _ _ _ _ _ H2 (appends_trans _ _ _ _ _ H3 H4)))
    as (Hinv & Hval & Hpb).
  change ([(mode q, 4)] ++ [(len, lenbits)] ++ payload q ++ [(TERMINATOR, 4)])
    with (stream q len lenbits) in Hval, Hpb.
  destruct (flush_value _ Hinv) as (Hf1 & Hf2 & Hf3).
  eexists. split; [done |]. split; [done |].
  change (pvalue p0) with 0 in Hval. change (packed_bits p0) with 0 in Hpb.
  rewrite Hpb, Hval in *. rewrite Z.add_0_l in *. done.
Qed.
(** *** Reading the words back *)

(** The [k] bits at position [pos] of the words, the first bit of the
    first word being at position 0. *)
Definition read (w : list Z) (pos k : Z) : Z :=
  (be w / 2 ^ (8 * Z.of_nat (length w) - pos - k)) mod 2 ^ k.

Fixpoint read_numeric (w : list Z) (pos : Z) (n : nat) : list Z :=
  match n with
  | S (S (S n')) =>
      let v := read w pos 10 in
      (48 + v / 100) :: (48 + v / 10 mod 10) :: (48 + v mod 10)
        :: read_numeric w (pos + 10) n'
  | 2%nat => let v := read w pos 7 in [48 + v / 10; 48 + v mod 10]
  | 1%nat => [48 + read w pos 4]
  | O => []
  end.

Definition char (v : Z) : Z := default 0 (ALPHANUMERIC_CHARS !! Z.to_nat v).

Fixpoint read_alphanumeric (w : list Z) (pos : Z) (n : nat) : list Z :=
  match n with
  | S (S n') =>
      let v := read w pos 11 in
      char (v / 45) :: char (v mod 45) :: read_alphanumeric w (pos + 11) n'
  | 1%nat => [char (read w pos 6)]
  | O => []
  end.

Fixpoint read_octets (w : list Z) (pos : Z) (n : nat) : list Z :=
  match n with
  | S n' => read w pos 8 :: read_octets w (pos + 8) n'
  | O => []
  end.

Definition read_data (m : Z) (w : list Z) (pos : Z) (n : nat) : Data :=
  if m =? NUMERIC then DString (read_numeric w pos n)
  else if m =? ALPHANUMERIC then DString (read_alphanumeric w pos n)
  else DArray (read_octets w pos n).

Definition field_ok (f : Z * Z) : Prop := 0 <= snd f /\ 0 <= fst f < 2 ^ snd f.

Lemma width_nonneg (fs : list (Z * Z)) : Forall field_ok fs -> 0 <= width fs.
Proof.
  induction 1 as [|f fs [Hf _] _ IH]; [done |]. unfold width in *. simpl. lia.
Qed.

Lemma join_shift (fs : list (Z * Z)) (v0 : Z) :
  Forall field_ok fs -> join fs v0 = v0 * 2 ^ width fs + join fs 0.
Proof.
  intros Hfs. revert v0. induction Hfs as [|[v k] fs [Hk Hv] Hfs IH]; intros v0.
  - unfold join, width. simpl. lia.
  - pose proof (width_nonneg fs Hfs) as Hw. cbn [fst snd] in Hk, Hv.
    change (join ((v, k) :: fs) v0) with (join fs (v0 * 2 ^ k + v)).
    change (join ((v, k) :: fs) 0) with (join fs (0 * 2 ^ k + v)).
    change (width ((v, k) :: fs)) with (k + width fs).
    rewrite (IH (v0 * 2 ^ k + v)), (IH (0 * 2 ^ k + v)).
    rewrite Z.pow_add_r by lia. ring.
Qed.

Lemma join_bound (fs : list (Z * Z)) :
  Forall field_ok fs -> 0 <= join fs 0 < 2 ^ width fs.
Proof.
  induction 1 as [|[v k] fs [Hk Hv] Hfs IH]; [by vm_compute |].
  pose proof (width_nonneg fs Hfs) as Hw. cbn [fst snd] in Hk, Hv.
  change (join ((v, k) :: fs) 0) with (join fs (0 * 2 ^ k + v)).
  change (width ((v, k) :: fs)) with (k + width fs).
  rewrite join_shift by done. rewrite Z.pow_add_r by lia.
  assert (0 < 2 ^ width fs) by (apply Z.pow_pos_nonneg; lia). nia.
Qed.

Lemma numeric_fields_ok (s : list Z) :
  forallb is_digit s = true -> Forall field_ok (numeric_fields s).
Proof.
  remember (length s) as n eqn:Hn. revert s Hn.
  induction n as [n IH] using lt_wf_ind. intros s Hn Hs.
  destruct s as [|a [|b [|c rest]]]; cbn [numeric_fields].
  - constructor.
  - cbn [forallb] in Hs. apply andb_prop in Hs as [Ha _].
    pose proof (decimal_1 a Ha). repeat constructor; simpl; lia.
  - cbn [forallb] in Hs. apply andb_prop in Hs as [Ha Hs].
    apply andb_prop in Hs as [Hb _].
    pose proof (decimal_2 a b Ha Hb). repeat constructor; simpl; lia.
  - cbn [forallb] in Hs. apply andb_prop in Hs as [Ha Hs].
    apply andb_prop in Hs as [Hb Hs]. apply andb_prop in Hs as [Hc Hs].
    pose proof (decimal_3 a b c Ha Hb Hc). constructor.
    + split; simpl; lia.
    + apply (IH (length rest)); [simpl in Hn; lia | done | done].
Qed.

Lemma alphanumeric_fields_ok (s : list Z) :
  forallb is_alphanumeric s = true -> Forall field_ok (alphanumeric_fields s).
Proof.
  remember (length s) as n eqn:Hn. revert s Hn.
  induction n as [n IH] using lt_wf_ind. intros s Hn Hs.
  destruct s as [|a [|b rest]]; cbn [alphanumeric_fields].
  - constructor.
  - cbn [forallb] in Hs. apply andb_prop in Hs as [Ha _].
    destruct (code_range a Ha) as [_ Hr]. repeat constructor; simpl; lia.
  - cbn [forallb] in Hs. apply andb_prop in Hs as [Ha Hs].
    apply andb_prop in Hs as [Hb Hs].
    destruct (code_range a Ha) as [_ Hra]. destruct (code_range b Hb) as [_ Hrb].
    constructor.
    + split; simpl; lia.
    + apply (IH (length rest)); [simpl in Hn; lia | done | done].
Qed.

Lemma octet_fields_ok (a : list Z) :
  Forall is_byte a -> Forall field_ok ((fun x => (x, 8)) <$> a).
Proof.
  intros Ha. apply Forall_fmap. eapply Forall_impl; [exact Ha |].
  intros x Hx. unfold is_byte in Hx. split; simpl; lia.
Qed.

Definition char_check (k : nat) : bool :=
  let c := 32 + Z.of_nat k in
  implb (is_alphanumeric c) (char (code c) =? c).

Lemma char_check_all : forallb char_check (seq 0 59) = true.
Proof. by vm_compute. Qed.

Lemma char_code (c : Z) : is_alphanumeric c = true -> char (code c) = c.
Proof.
  intros Hc.
  assert (32 <= c <= 90) as Hr.
  { unfold is_alphanumeric, is_upper, is_digit, is_symbol in Hc.
    apply orb_prop in Hc as [Hc|Hc]; [apply orb_prop in Hc as [Hc|Hc] |].
    - apply andb_prop in Hc as [H1 H2]. lia.
    - apply andb_prop in Hc as [H1 H2]. lia.
    - apply bool_decide_eq_true in Hc.
      repeat (apply elem_of_cons in Hc as [->|Hc]; [lia |]).
      by apply elem_of_nil in Hc. }
  pose proof char_check_all as Hall. rewrite forallb_forall in Hall.
  specialize (Hall (Z.to_nat (c - 32)) ltac:(apply in_seq; lia)).
  unfold char_check in Hall.
  replace (32 + Z.of_nat (Z.to_nat (c - 32))) with c in Hall by lia.
  rewrite Hc in Hall. cbn [implb] in Hall. by apply Z.eqb_eq in Hall.
Qed.

Section reading.
Variable w : list Z.
Variable fs : list (Z * Z).
Hypothesis pad_nonneg : 0 <= 8 * Z.of_nat (length w) - width fs.
Hypothesis first_bits : be w / 2 ^ (8 * Z.of_nat (length w) - width fs) = join fs 0.

Lemma read_field (pre post : list (Z * Z)) (v k : Z) :
  fs = pre ++ (v, k) :: post -> field_ok (v, k) -> Forall field_ok post ->
  read w (width pre) k = v.
Proof.
  intros Hfs [Hk Hv] Hpost. cbn [fst snd] in Hk, Hv. unfold read.
  pose proof (width_nonneg post Hpost) as Hw.
  pose proof (join_bound post Hpost) as Hb.
  set (pad := 8 * Z.of_nat (length w) - width fs) in *.
  assert (width fs = width pre + (k + width post)) as Hwidth.
  { rewrite Hfs, width_app. done. }
  replace (8 * Z.of_nat (length w) - width pre - k) with (pad + width post)
    by (unfold pad; lia).
  rewrite Z.pow_add_r by lia.
  assert (0 < 2 ^ pad) by (apply Z.pow_pos_nonneg; lia).
  assert (0 < 2 ^ width post) by (apply Z.pow_pos_nonneg; lia).
  rewrite <- Z.div_div by lia. rewrite first_bits.
  rewrite Hfs. unfold join at 1. rewrite foldl_app. cbn [foldl fst snd].
  fold (join pre 0). fold (join post (join pre 0 * 2 ^ k + v)).
  rewrite join_shift by done.
  rewrite Z.div_add_l by lia. rewrite (Z.div_small (join post 0)) by lia.
  rewrite Z.add_0_r, Z.add_comm, Z_mod_plus_full. apply Z.mod_small. lia.
Qed.

Lemma read_numeric_fields (s : list Z) (pre post : list (Z * Z)) :
  fs = pre ++ numeric_fields s ++ post ->
  forallb is_digit s = true -> Forall field_ok post ->
  read_numeric w (width pre) (length s) = s.
Proof.
  remember (length s) as n eqn:Hn. revert s pre Hn.
  induction n as [n IH] using lt_wf_ind. intros s pre Hn Hfs Hs Hpost.
  destruct s as [|a [|b [|c rest]]]; cbn [length] in Hn; subst n;
    cbn [numeric_fields app] in Hfs.
  - done.
  - cbn [forallb] in Hs. apply andb_prop in Hs as [Ha _].
    pose proof (decimal_1 a Ha) as Hr. cbn [read_numeric].
    rewrite (read_field pre post (decimal [a]) 4 Hfs); [| split; simpl; lia | done].
    unfold decimal. simpl. f_equal. lia.
  - cbn [forallb] in Hs. apply andb_prop in Hs as [Ha Hs].
    apply andb_prop in Hs as [Hb _].
    pose proof (decimal_2 a b Ha Hb) as Hr. cbn [read_numeric]. cbv zeta.
    rewrite (read_field pre post (decimal [a; b]) 7 Hfs); [| split; simpl; lia | done].
    pose proof (digit_range a Ha). pose proof (digit_range b Hb).
    unfold decimal. cbn [foldl].
    f_equal; [| f_equal]; Z.div_mod_to_equations; lia.
  - cbn [forallb] in Hs. apply andb_prop in Hs as [Ha Hs].
    apply andb_prop in Hs as [Hb Hs]. apply andb_prop in Hs as [Hc Hs].
    pose proof (decimal_3 a b c Ha Hb Hc) as Hr. cbn [read_numeric]. cbv zeta.
    rewrite (read_field pre (numeric_fields rest ++ post) (decimal [a; b; c]) 10 Hfs);
      [| split; simpl; lia
       | apply Forall_app; split; [by apply numeric_fields_ok | done]].
    pose proof (digit_range a Ha). pose proof (digit_range b Hb).
    pose proof (digit_range c Hc).
    assert (read_numeric w (width pre + 10) (length rest) = rest) as ->.
    { replace (width pre + 10) with (width (pre ++ [(decimal [a; b; c], 10)]))
        by (rewrite width_app; unfold width; simpl; lia).
      apply (IH (length rest)); [lia | done | | done | done].
      by rewrite <- app_assoc. }
    unfold decimal. cbn [foldl].
    f_equal; [| f_equal; [| f_equal]]; Z.div_mod_to_equations; lia.
Qed.
Lemma read_alphanumeric_fields (s : list Z) (pre post : list (Z * Z)) :
  fs = pre ++ alphanumeric_fields s ++ post ->
  forallb is_alphanumeric s = true -> Forall field_ok post ->
  read_alphanumeric w (width pre) (length s) = s.
Proof.
  remember (length s) as n eqn:Hn. revert s pre Hn.
  induction n as [n IH] using lt_wf_ind. intros s pre Hn Hfs Hs Hpost.
  destruct s as [|a [|b rest]]; cbn [length] in Hn; subst n;
    cbn [alphanumeric_fields app] in Hfs.
  - done.
  - cbn [forallb] in Hs. apply andb_prop in Hs as [Ha _].
    destruct (code_range a Ha) as [_ Hr]. cbn [read_alphanumeric].
    rewrite (read_field pre post (code a) 6 Hfs); [| split; simpl; lia | done].
    by rewrite char_code.
  - cbn [forallb] in Hs. apply andb_prop in Hs as [Ha Hs].
    apply andb_prop in Hs as [Hb Hs].
    destruct (code_range a Ha) as [_ Hra]. destruct (code_range b Hb) as [_ Hrb].
    cbn [read_alphanumeric]. cbv zeta.
    rewrite (read_field pre (alphanumeric_fields rest ++ post)
               (code a * 45 + code b) 11 Hfs);
      [| split; simpl; lia
       | apply Forall_app; split; [by apply alphanumeric_fields_ok | done]].
    assert (read_alphanumeric w (width pre + 11) (length rest) = rest) as ->.
    { replace (width pre + 11) with (width (pre ++ [(code a * 45 + code b, 11)]))
        by (rewrite width_app; unfold width; simpl; lia).
      apply (IH (length rest)); [lia | done | | done | done].
      by rewrite <- app_assoc. }
    assert ((code a * 45 + code b) / 45 = code a) as ->
      by (Z.div_mod_to_equations; lia).
    assert ((code a * 45 + code b) mod 45 = code b) as ->
      by (Z.div_mod_to_equations; lia).
    by rewrite !char_code.
Qed.

Lemma read_octets_fields (a : list Z) (pre post : list (Z * Z)) :
  fs = pre ++ ((fun x => (x, 8)) <$> a) ++ post ->
  Forall is_byte a -> Forall field_ok post ->
  read_octets w (width pre) (length a) = a.
Proof.
  revert pre. induction a as [|x a IH]; intros pre Hfs Ha Hpost; [done |].
  apply Forall_cons in Ha as [Hx Ha]. unfold is_byte in Hx.
  cbn [fmap list_fmap app] in Hfs. cbn [length read_octets].
  rewrite (read_field pre (((fun x => (x, 8)) <$> a) ++ post) x 8 Hfs);
    [| split; simpl; lia
     | apply Forall_app; split; [by apply octet_fields_ok | done]].
  f_equal.
  replace (width pre + 8) with (width (pre ++ [(x, 8)]))
    by (rewrite width_app; unfold width; simpl; lia).
  apply IH; [| done | done]. by rewrite <- app_assoc.
Qed.
End reading.

Lemma be_app_list (a b : list Z) :
  be (a ++ b) = be a * 2 ^ (8 * Z.of_nat (length b)) + be b.
Proof.
  induction b as [|x b IH] using rev_ind.
  - rewrite app_nil_r. unfold be at 3. simpl. lia.
  - rewrite app_assoc, !be_app, IH, length_app. cbn [length].
    replace (8 * Z.of_nat (length b + 1)) with (8 * Z.of_nat (length b) + 8) by lia.
    rewrite Z.pow_add_r by lia. change (2 ^ 8) with 256. ring.
Qed.

Lemma be_bound (b : list Z) :
  Forall is_byte b -> 0 <= be b < 2 ^ (8 * Z.of_nat (length b)).
Proof.
  induction b as [|x b IH] using rev_ind; intros Hb; [by vm_compute |].
  apply Forall_app in Hb as [Hb Hx]. apply Forall_cons in Hx as [Hx _].
  unfold is_byte in Hx. specialize (IH Hb).
  rewrite be_app, length_app. cbn [length].
  replace (8 * Z.of_nat (length b + 1)) with (8 * Z.of_nat (length b) + 8) by lia.
  rewrite Z.pow_add_r by lia. change (2 ^ 8) with 256. lia.
Qed.

Lemma padding_bytes (k : nat) : Forall is_byte (padding k).
Proof.
  induction k as [k IH] using lt_wf_ind. destruct k as [|[|k]].
  - constructor.
  - repeat constructor; unfold is_byte; lia.
  - cbn [padding]. repeat (constructor; [unfold is_byte; lia |]). apply IH. lia.
Qed.

(** The first bits of the words are not changed by words that follow. *)
Lemma first_bits_app (w v : list Z) (n : Z) :
  Forall is_byte v -> 0 <= 8 * Z.of_nat (length w) - n ->
  be (w ++ v) / 2 ^ (8 * Z.of_nat (length (w ++ v)) - n)
  = be w / 2 ^ (8 * Z.of_nat (length w) - n).
Proof.
  intros Hv Hn. pose proof (be_bound v Hv) as Hb.
  rewrite be_app_list, length_app.
  replace (8 * Z.of_nat (length w + length v) - n)
    with (8 * Z.of_nat (length v) + (8 * Z.of_nat (length w) - n)) by lia.
  rewrite Z.pow_add_r by lia.
  assert (0 < 2 ^ (8 * Z.of_nat (length v))) by (apply Z.pow_pos_nonneg; lia).
  assert (0 < 2 ^ (8 * Z.of_nat (length w) - n)) by (apply Z.pow_pos_nonneg; lia).
  rewrite <- Z.div_div by lia.
  rewrite Z.div_add_l by lia. rewrite (Z.div_small (be v)) by lia.
  by rewrite Z.add_0_r.
Qed.

Lemma encode_read (q : t) (maxbuflen len lenbits : Z) :
  well_formed q = true ->
  data_length (data q) = Ok len -> nDataLenBits q = Some lenbits ->
  len < 2 ^ lenbits ->
  exists w,
    encode q maxbuflen = Ok w
    /\ read w 0 4 = mode q
    /\ read w 4 lenbits = len
    /\ read_data (mode q) w (4 + lenbits) (Z.to_nat len) = data q.
Proof.
  intros Hq Hlen Hbits Hlt.
  destruct (encode_words_spec q len lenbits Hq Hlen Hbits Hlt)
    as (w0 & Hw & _ & [Hpad0 _] & Hbe0).
  rewrite (encode_pad_words q maxbuflen w0 Hw).
  set (v := padding (Z.to_nat (maxbuflen - Z.of_nat (length w0)))).
  set (w := w0 ++ v).
  assert (0 <= 8 * Z.of_nat (length w) - width (stream q len lenbits)) as Hpad
    by (unfold w; rewrite length_app; lia).
  assert (be w / 2 ^ (8 * Z.of_nat (length w) - width (stream q len lenbits))
          = join (stream q len lenbits) 0) as Hbe.
  { unfold w. rewrite first_bits_app by (done || apply padding_bytes).
    rewrite Hbe0. apply Z.div_mul.
    apply Z.pow_nonzero; lia. }
  clearbody w. clear Hbe0 Hpad0 Hw v w0.
  exists w. split; [done |].
  assert (0 <= len) as Hlen0.
  { destruct (data q); simplify_eq/=; lia. }
  assert (8 <= lenbits <= 16) as Hlb.
  { unfold nDataLenBits in Hbits. repeat case_match; simplify_eq; lia. }
  assert (0 <= mode q < 2 ^ 4) as Hmode.
  { destruct (well_formed_mode q Hq) as [->|[->| ->]]; by vm_compute. }
  assert (field_ok (TERMINATOR, 4)) as Hterm by (split; by vm_compute).
  assert (Forall field_ok (payload q ++ [(TERMINATOR, 4)])) as Hpay.
  { apply Forall_app. split; [| by repeat constructor].
    unfold well_formed in Hq. unfold payload. destruct (data q) as [|s|a]; [done | |].
    - apply orb_prop in Hq as [Hq|Hq]; apply andb_prop in Hq as [Hm Hs];
        apply Z.eqb_eq in Hm; rewrite Hm.
      + by apply numeric_fields_ok.
      + by apply alphanumeric_fields_ok.
    - apply andb_prop in Hq as [_ Ha]. apply octet_fields_ok.
      apply Forall_forall. intros x Hx. rewrite forallb_forall in Ha.
      specialize (Ha x ltac:(by apply list_elem_of_In)).
      apply andb_prop in Ha as [H1 H2]. unfold is_byte. lia. }
  split; [| split].
  - apply (read_field w _ Hpad Hbe [] ((len, lenbits) :: payload q ++ [(TERMINATOR, 4)])
             (mode q) 4); [done | split; simpl; lia |].
    constructor; [split; simpl; lia | done].
  - apply (read_field w _ Hpad Hbe [(mode q, 4)] (payload q ++ [(TERMINATOR, 4)])
             len lenbits); [done | split; simpl; lia | done].
  - replace (4 + lenbits) with (width [(mode q, 4); (len, lenbits)])
      by (unfold width; simpl; lia).
    unfold read_data. unfold well_formed in Hq. unfold stream, payload in *.
    destruct (data q) as [|s|a]; [done | |].
    + cbn [data_length] in Hlen. injection Hlen as <-. rewrite Nat2Z.id.
      apply orb_prop in Hq as [Hq|Hq]; apply andb_prop in Hq as [Hm Hs];
        apply Z.eqb_eq in Hm; rewrite Hm in *.
      * change (NUMERIC =? NUMERIC) with true in *. cbv iota in *. f_equal.
        by apply (read_numeric_fields w _ Hpad Hbe s _ [(TERMINATOR, 4)]);
          [| | repeat constructor].
      * change (ALPHANUMERIC =? NUMERIC) with false in *.
        change (ALPHANUMERIC =? ALPHANUMERIC) with true. cbv iota in *. f_equal.
        by apply (read_alphanumeric_fields w _ Hpad Hbe s _ [(TERMINATOR, 4)]);
          [| | repeat constructor].
    + cbn [data_length] in Hlen. injection Hlen as <-. rewrite Nat2Z.id.
      apply andb_prop in Hq as [Hm Ha]. apply Z.eqb_eq in Hm. rewrite Hm in *.
      change (OCTET =? NUMERIC) with false. change (OCTET =? ALPHANUMERIC) with false.
      cbv iota. f_equal.
      apply (read_octets_fields w _ Hpad Hbe a _ [(TERMINATOR, 4)]);
        [done | | by repeat constructor].
      apply Forall_forall. intros x Hx. rewrite forallb_forall in Ha.
      specialize (Ha x ltac:(by apply list_elem_of_In)).
      apply andb_prop in Ha as [H1 H2]. unfold is_byte. lia.
Qed.
(** X27: for decimal digits in numeric mode, characters of the
    alphanumeric table in alphanumeric mode, or an array of octets in octet
    mode, whose length fits the character count, [encode] returns the words
    of one bit string followed by the pad words. The bit string is, first
    bit first: the mode in 4 bits, the length in the bits of the character
    count, the payload (10 bits for three digits, 7 or 4 for the last two
    or one; 11 bits for two characters [45 * a + b], 6 for the last one; 8
    bits for an octet), four zero bits, and fewer than 8 zero bits that
    fill the last word. *)
Theorem encode_bit_stream (q : t) (maxbuflen len lenbits : Z) :
  well_formed q = true ->
  data_length (data q) = Ok len -> nDataLenBits q = Some lenbits ->
  len < 2 ^ lenbits ->
  exists w,
    encode q maxbuflen
    = Ok (w ++ padding (Z.to_nat (maxbuflen - Z.of_nat (length w))))
    /\ Forall is_byte w
    /\ 0 <= 8 * Z.of_nat (length w) - width (stream q len lenbits) < 8
    /\ be w = join (stream q len lenbits) 0
              * 2 ^ (8 * Z.of_nat (length w) - width (stream q len lenbits)).
Proof.
  intros Hq Hlen Hbits Hlt.
  destruct (encode_words_spec q len lenbits Hq Hlen Hbits Hlt) as (w & Hw & H).
  exists w. split; [| done]. by apply encode_pad_words.
Qed.

Lemma encode_bit_stream_witness :
  let q := {| mode := NUMERIC; ecclevel := Some L; mask := -1;
              data := DString (units "01234567"); ver := 1 |} in
  exists w,
    encode q 19 = Ok (w ++ padding (Z.to_nat (19 - Z.of_nat (length w))))
    /\ Forall is_byte w
    /\ 0 <= 8 * Z.of_nat (length w) - width (stream q 8 10) < 8
    /\ be w = join (stream q 8 10) 0
              * 2 ^ (8 * Z.of_nat (length w) - width (stream q 8 10)).
Proof.
  intros q. apply (encode_bit_stream q 19 8 10).
  - reflexivity.
  - reflexivity.
  - reflexivity.
  - reflexivity.
Defined.

(** X28: under the same conditions the words that [encode] returns can be
    read back: their first 4 bits are the mode, the bits of the character
    count that follow are the length of the data, and reading the payload
    after them group by group gives the data again, whatever pad words
    follow. *)
Theorem encode_read_back (q : t) (maxbuflen len lenbits : Z) :
  well_formed q = true ->
  data_length (data q) = Ok len -> nDataLenBits q = Some lenbits ->
  len < 2 ^ lenbits ->
  exists w,
    encode q maxbuflen = Ok w
    /\ read w 0 4 = mode q
    /\ read w 4 lenbits = len
    /\ read_data (mode q) w (4 + lenbits) (Z.to_nat len) = data q.
Proof. exact (encode_read q maxbuflen len lenbits). Qed.

Lemma encode_read_back_witness :
  let q := {| mode := ALPHANUMERIC; ecclevel := Some L; mask := -1;
              data := DString (units "HELLO WORLD"); ver := 1 |} in
  exists w,
    encode q 19 = Ok w
    /\ read w 0 4 = mode q
    /\ read w 4 9 = 11
    /\ read_data (mode q) w (4 + 9) (Z.to_nat 11) = data q.
Proof.
  intros q. apply (encode_read_back q 19 11 9).
  - reflexivity.
  - reflexivity.
  - reflexivity.
  - reflexivity.
Defined.
(** *** The words of a constructed symbol *)

(** At every version and level the greatest length that [getMaxDataLen]
    allows is below two to the bits of the character count. *)
Definition count_check (v : Z) : bool :=
  forallb (fun e =>
    forallb (fun m =>
      match getMaxDataLen (config m e v), nDataLenBits (config m e v) with
      | Ok (Some a), Some l => a <? 2 ^ l
      | _, _ => false
      end) [NUMERIC; ALPHANUMERIC; OCTET]) levels.

Lemma count_check_all : forallb count_check (Z.of_nat <$> seq 1 40) = true.
Proof. by vm_compute. Qed.

Lemma count_checked (m : Z) (e : option Z) (v max : Z) :
  1 <= v <= 40 ->
  m = NUMERIC \/ m = ALPHANUMERIC \/ m = OCTET ->
  e = None \/ (exists e', e = Some e' /\ 0 <= e' <= 3) ->
  getMaxDataLen (config m e v) = Ok (Some max) ->
  exists l, nDataLenBits (config m e v) = Some l /\ max < 2 ^ l.
Proof.
  intros Hv Hm He Hmax. pose proof count_check_all as H.
  rewrite forallb_forall in H.
  specialize (H v). unfold count_check in H. rewrite forallb_forall in H.
  assert (e ∈ levels) as Hin.
  { destruct He as [->|(e' & -> & He)]; [unfold levels; repeat constructor |].
    by apply level_cases. }
  specialize (H ltac:(apply list_elem_of_In, list_elem_of_fmap; exists (Z.to_nat v);
                      split; [lia |]; apply list_elem_of_In, in_seq; lia)
                e (proj1 (list_elem_of_In _ _) Hin)).
  rewrite forallb_forall in H.
  specialize (H m (proj1 (list_elem_of_In _ _) (mode_cases _ Hm))).
  rewrite Hmax in H.
  destruct (nDataLenBits (config m e v)) as [l|]; [| done].
  exists l. split; [done |]. by apply Z.ltb_lt in H.
Qed.

Lemma constructor_text_result (s : list Z) (o : QrCodeOptions) (q : t) :
  mode_supported o = true -> opt_version o = None ->
  constructor (DString s) o = Ok q ->
  data q = DString s
  /\ 1 <= ver q <= 40
  /\ (ecclevel q = None \/ exists e', ecclevel q = Some e' /\ 0 <= e' <= 3)
  /\ exists max, getMaxDataLen q = Ok (Some max) /\ Z.of_nat (length s) <= max.
Proof.
  intros Hmode Hver Hc.
  destruct (constructor_text_level s o Hmode Hver) as (m & e & _ & He & Heq).
  rewrite Heq in Hc. cbv zeta in Hc.
  match type of Hc with
  | context [pick_version 40 ?q0 1] =>
      destruct (pick_version_spec 40 q0 s 1 eq_refl ltac:(lia) ltac:(lia))
        as (v' & Hp & Hb & Hno & Hyes)
  end.
  rewrite Hp in Hc. cbn [rbind] in Hc.
  destruct (40 <? v') eqn:E; [done |]. apply Z.ltb_ge in E. cbn [rbind] in Hc.
  match type of Hc with
  | (if ?c then _ else _) = _ => destruct c; [done |]
  end.
  injection Hc as <-. cbn [ver data ecclevel].
  split; [done |]. split; [lia |]. split; [done |].
  apply Hyes. simpl. lia.
Qed.

(** X29: a text that the constructor accepts with no version given, and
    whose characters are those of the mode of the symbol (decimal digits
    for numeric, the characters of the alphanumeric table for
    alphanumeric), is read back from the words of [encode]: the mode, the
    length in the character count of the chosen version, then the text
    itself. The chosen version always leaves room for the length in the
    character count. *)
Theorem constructor_words_read_back (s : list Z) (o : QrCodeOptions) (q : t)
    (maxbuflen : Z) :
  mode_supported o = true -> opt_version o = None ->
  constructor (DString s) o = Ok q ->
  well_formed q = true ->
  exists lenbits w,
    nDataLenBits q = Some lenbits
    /\ encode q maxbuflen = Ok w
    /\ read w 0 4 = mode q
    /\ read w 4 lenbits = Z.of_nat (length s)
    /\ read_data (mode q) w (4 + lenbits) (length s) = DString s.
Proof.
  intros Hmode Hver Hc Hq.
  destruct (constructor_text_result s o q Hmode Hver Hc)
    as (Hd & Hv & He & max & Hmax & Hle).
  rewrite getMaxDataLen_config in Hmax.
  destruct (count_checked _ _ _ _ Hv (well_formed_mode q Hq) He Hmax)
    as (l & Hl & Hlt).
  change (nDataLenBits (config (mode q) (ecclevel q) (ver q)))
    with (nDataLenBits q) in Hl.
  destruct (encode_read q maxbuflen (Z.of_nat (length s)) l Hq) as (w & Hw & H1 & H2 & H3);
    [by rewrite Hd | done | lia |].
  exists l, w. rewrite Nat2Z.id, Hd in H3. done.
Qed.

Lemma constructor_words_read_back_witness :
  let s := units "HELLO WORLD" in
  let q := {| mode := ALPHANUMERIC; ecclevel := Some L; mask := -1;
              data := DString s; ver := 1 |} in
  exists lenbits w,
    nDataLenBits q = Some lenbits
    /\ encode q 19 = Ok w
    /\ read w 0 4 = mode q
    /\ read w 4 lenbits = Z.of_nat (length s)
    /\ read_data (mode q) w (4 + lenbits) (length s) = DString s.
Proof.
  intros s q.
  apply (constructor_words_read_back s (options None None None None) q 19).
  - reflexivity.
  - reflexivity.
  - by vm_compute.
  - reflexivity.
Defined.
End bit_stream.
